(** * mcp-tools-doris: a shallow embedding of the helpers, the Doris client
      and the query tool, with the properties of their specification.

    Sources embedded here:
    - [src/utils/helpers.js]: [formatTable], [formatBytes], [parseCSV],
      [exportToCSV], [progressBar], [parseArgs];
    - [src/lib/client.js]: [DorisClient] ([connect], [disconnect],
      [_ensureConnected], [query], [getTableSchema], [bulkImport],
      [exportToFile]);
    - the query tool [dorisQuery], the manager and the configuration loader.

    JavaScript values are embedded as an inductive type, objects as
    association lists in key order or as finite maps, asynchronous methods as
    computations of a state-and-exception monad over the client's fields and
    the history of driver calls. The two helpers that compute with numbers,
    [formatBytes] and [progressBar], are embedded twice: on integers with
    exact quotients, and in module [Float64] on IEEE 754 doubles, with the
    roundings, the number-to-string conversion and the limit on the length of
    strings that the engine has. *)

From Stdlib Require Import ZArith String Ascii List Lia Bool.
From Stdlib Require Import QArith Qround Qabs Qpower Lqa Qreduction Qcanon.
From stdpp Require Import base option list strings gmap pretty.

Local Close Scope Qc_scope.
Local Open Scope string_scope.
Local Open Scope list_scope.
Local Open Scope Z_scope.

(* ===================================================================== *)
(** * JavaScript values and strings *)
(* ===================================================================== *)

(** The primitive values that reach the embedded functions. A number is
    integer valued (row counts, byte counts, integer columns); its text is
    its decimal numeral, as [String] gives for integers of magnitude below
    1e21. *)
Inductive JsVal : Type :=
  | JUndefined
  | JNull
  | JBool (b : bool)
  | JNum (n : Z)
  | JStr (s : string).

(** [ToBoolean]. *)
Definition truthy (v : JsVal) : bool :=
  match v with
  | JUndefined | JNull => false
  | JBool b => b
  | JNum n => negb (n =? 0)
  | JStr s => negb (String.eqb s "")
  end.

(** [String(v)] and template-literal interpolation. *)
Definition js_String (v : JsVal) : string :=
  match v with
  | JUndefined => "undefined"
  | JNull => "null"
  | JBool true => "true"
  | JBool false => "false"
  | JNum n => pretty n
  | JStr s => s
  end.

(** [a || b]. *)
Definition js_or (a b : JsVal) : JsVal := if truthy a then a else b.

(** A record (a result row): its own enumerable properties, in the order
    [Object.keys] lists them. Column names are taken not to collide with the
    members every object inherits, so that reading a key the record lacks
    gives [undefined]. *)
Definition record : Type := list (string * JsVal).

Definition Object_keys (o : record) : list string := map fst o.

(** [o[k]]: the property, [undefined] when the record has none. *)
Fixpoint js_get (o : record) (k : string) : JsVal :=
  match o with
  | [] => JUndefined
  | (k', v) :: o' => if String.eqb k' k then v else js_get o' k
  end.

(** What a function call completes with: a value, or a thrown error. *)
Inductive JsError : Type :=
  | Error (message : string)        (* [new Error(message)], driver and I/O errors *)
  | TypeError (message : string)    (* raised by the engine on a null dereference *)
  | RangeError (message : string).  (* raised by the engine, e.g. by [toFixed] *)

Definition message (e : JsError) : string :=
  match e with Error m | TypeError m | RangeError m => m end.

Inductive completion (A : Type) : Type :=
  | Normal (a : A)
  | Throw (e : JsError).
Arguments Normal {A} a.
Arguments Throw {A} e.

Definition LF : ascii := "010"%char.
Definition DQUOTE : ascii := "034"%char.
Definition str1 (c : ascii) : string := String c EmptyString.

(** [s.startsWith(p)]. *)
Definition startsWith (p s : string) : bool := String.prefix p s.

(** [s.substring(n)]: [s] without its first [n] characters. *)
Fixpoint substring_from (n : nat) (s : string) : string :=
  match n, s with
  | O, _ => s
  | S n', String _ s' => substring_from n' s'
  | S _, EmptyString => EmptyString
  end.

(** Does the character occur in the string? *)
Fixpoint has_char (c : ascii) (s : string) : bool :=
  match s with
  | EmptyString => false
  | String a s' => Ascii.eqb a c || has_char c s'
  end.

(** [hay.includes(needle)]. *)
Fixpoint includes (needle hay : string) : bool :=
  String.prefix needle hay ||
  match hay with
  | EmptyString => false
  | String _ hay' => includes needle hay'
  end.

Definition rev_string (acc : list ascii) : string := string_of_list_ascii (rev acc).

(** The characters of [s] pushed on a reversed accumulator. *)
Definition pushed (s : string) (acc : list ascii) : list ascii :=
  rev (list_ascii_of_string s) ++ acc.

(** [s.split(sep)] for a non-empty separator: [skip] counts the characters of
    a separator occurrence still to be passed over, [acc] holds the current
    piece in reverse. *)
Fixpoint js_split_go (sep : string) (skip : nat) (acc : list ascii) (s : string)
  : list string :=
  match s with
  | EmptyString => [rev_string acc]
  | String c s' =>
      match skip with
      | S k => js_split_go sep k acc s'
      | O =>
          if String.prefix sep s
          then rev_string acc :: js_split_go sep (String.length sep - 1) [] s'
          else js_split_go sep O (c :: acc) s'
      end
  end.

(** [s.split(sep)]; an empty separator splits between all characters. *)
Definition js_split (sep s : string) : list string :=
  match sep with
  | EmptyString => map str1 (list_ascii_of_string s)
  | _ => js_split_go sep O [] s
  end.

(** [l.join(sep)]. *)
Definition js_join (sep : string) (l : list string) : string := String.concat sep l.

(** [s.replace] of every double quote (the global pattern) by two. *)
Fixpoint double_quotes (s : string) : string :=
  match s with
  | EmptyString => EmptyString
  | String c s' =>
      if Ascii.eqb c DQUOTE
      then String DQUOTE (String DQUOTE (double_quotes s'))
      else String c (double_quotes s')
  end.

(* ===================================================================== *)
(** * [src/utils/helpers.js] *)
(* ===================================================================== *)

(** ** formatBytes *)

Definition sizes : list string :=
  ["Bytes"; "KB"; "MB"; "GB"; "TB"; "PB"; "EB"; "ZB"; "YB"].

(** [Math.floor(Math.log(bytes) / Math.log(1024))] for [bytes > 0]: the
    quotient of logarithms is [log2(bytes) / 10], whose floor is the floor of
    [floor(log2 bytes) / 10]. The quotient is taken exactly; the
    double-precision quotient agrees with it except for counts within
    rounding distance below a power of 1024. *)
Definition unit_index (bytes : Z) : Z := Z.log2 bytes / 10.

(** [x.toFixed(dm)] for the quotient [x = num / den]: the integer [n] with
    [n / 10^dm] nearest to [x], the larger one on a tie. *)
Definition toFixed_scaled (num den dm : Z) : Z :=
  (2 * num * 10 ^ dm + den) / (2 * den).

(** The fraction digits of [n / 10^dm] once trailing zeros are gone:
    [parseFloat] followed by number-to-string keeps no trailing zero. *)
Fixpoint strip_zeros (dm : nat) (n : Z) : nat * Z :=
  match dm with
  | O => (O, n)
  | S dm' => if n mod 10 =? 0 then strip_zeros dm' (n / 10) else (dm, n)
  end.

(** The last [dm] decimal digits of [n], zero padded. *)
Fixpoint digits (dm : nat) (n : Z) : string :=
  match dm with
  | O => EmptyString
  | S dm' => digits dm' (n / 10) +:+ pretty (n mod 10)
  end.

(** The text of the number [n / 10^dm] ([0 <= n]): what
    [parseFloat(x.toFixed(dm))] prints as. Exact while the numeral has at
    most 15 significant digits. *)
Definition decimal_text (dm : nat) (n : Z) : string :=
  let '(d, m) := strip_zeros dm n in
  match d with
  | O => pretty m
  | S _ => pretty (m / 10 ^ Z.of_nat d) +:+ "." +:+ digits d (m mod 10 ^ Z.of_nat d)
  end.

(** [formatBytes(bytes, decimals = 2)] on an integer byte count and an
    integer number of decimals; [decimals] is [None] when the argument is
    left out. The division by a power of 1024 only shifts the exponent of a
    double, so the quotient is the exact one. *)
Definition formatBytes (bytes : Z) (decimals : option Z) : completion string :=
  let decimals := default 2 decimals in
  if bytes =? 0 then Normal "0 Bytes"
  else
    let k := 1024 in
    let dm := if decimals <? 0 then 0 else decimals in
    if 100 <? dm then Throw (RangeError "toFixed() digits argument must be between 0 and 100")
    else if bytes <? 0 then
      (* Math.log of a negative number is NaN, and so is all that follows *)
      Normal ("NaN" +:+ " " +:+ "undefined")
    else
      let i := unit_index bytes in
      let n := toFixed_scaled bytes (k ^ i) dm in
      Normal (decimal_text (Z.to_nat dm) n +:+ " " +:+ nth (Z.to_nat i) sizes "undefined").

(** ** parseCSV *)

(** [parseCSV(csvString, delimiter = ',')]. *)
Definition parseCSV (csvString : string) (delimiter : string) : list (list string) :=
  let lines := js_split (str1 LF) csvString in
  map (fun line => js_split delimiter line) lines.

(** ** exportToCSV *)

(** The body of [headers.map], first half: the cell as a string. *)
Definition csv_raw (item : record) (header : string) : string :=
  let cell := js_or (js_get item header) (JStr "") in
  let cell := match cell with JNull | JUndefined => JStr "" | _ => cell end in
  js_String cell.

(** Second half: a cell that holds the delimiter, a quote or a line feed is
    wrapped in quotes, its own quotes doubled. *)
Definition csv_escape (delimiter cell : string) : string :=
  if includes delimiter cell || includes (str1 DQUOTE) cell || includes (str1 LF) cell
  then str1 DQUOTE +:+ double_quotes cell +:+ str1 DQUOTE
  else cell.

Definition csv_cell (delimiter : string) (item : record) (header : string) : string :=
  csv_escape delimiter (csv_raw item header).

(** [exportToCSV(data, delimiter = ',')]; absent data takes the same exit as
    the empty array. *)
Definition exportToCSV (data : list record) (delimiter : string) : string :=
  match data with
  | [] => ""
  | first :: _ =>
      let headers := Object_keys first in
      let csvContent := js_join delimiter headers +:+ str1 LF in
      fold_left
        (fun csvContent item =>
           let row := map (csv_cell delimiter item) headers in
           csvContent +:+ js_join delimiter row +:+ str1 LF)
        data csvContent
  end.

(** ** parseArgs *)

(** A value of the parsed-arguments object: [true] or a string. *)
Inductive argval : Type :=
  | ATrue
  | AStr (s : string).

(** [params[key] = v] on a plain object: an own property, except that the
    inherited [__proto__] setter swallows a primitive. *)
Definition js_set (params : gmap string argval) (key : string) (v : argval)
  : gmap string argval :=
  if String.eqb key "__proto__" then params else <[key := v]> params.

(** One round of the [forEach] callback, on [(params, currentKey)];
    [currentKey] is [None] for [null]. *)
Definition parseArgs_step (st : gmap string argval * option string) (arg : string)
  : gmap string argval * option string :=
  let '(params, currentKey) := st in
  if startsWith "--" arg then
    let parts := js_split "=" (substring_from 2 arg) in
    let currentKey := nth 0 parts "" in
    if (1 <? Z.of_nat (length parts))
    then (js_set params currentKey (AStr (nth 1 parts "")), None)
    else (js_set params currentKey ATrue, Some currentKey)
  else if startsWith "-" arg then
    let currentKey := substring_from 1 arg in
    (js_set params currentKey ATrue, Some currentKey)
  else
    match currentKey with
    | Some key =>
        if String.eqb key "" then st   (* the empty string is falsy *)
        else (js_set params key (AStr arg), None)
    | None => st
    end.

Definition parseArgs_run (args : list string) : gmap string argval * option string :=
  fold_left parseArgs_step args (∅, None).

Definition parseArgs (args : list string) : gmap string argval :=
  fst (parseArgs_run args).

(** The key a flag token sets, as [parseArgs_step] computes it; [None] for
    a token that is no flag. *)
Definition flag_key (arg : string) : option string :=
  if startsWith "--" arg then Some (nth 0 (js_split "=" (substring_from 2 arg)) "")
  else if startsWith "-" arg then Some (substring_from 1 arg)
  else None.

(** [flag] is the long or the short flag token of [key]. *)
Definition flag_of (key flag : string) : Prop :=
  (flag = "--" +:+ key /\ has_char "=" key = false) \/
  (flag = "-" +:+ key /\ startsWith "-" key = false).

(* ===================================================================== *)
(** * [src/lib/client.js] *)
(* ===================================================================== *)

(** ** The SQL driver *)

(** The connection parameters the client is constructed with;
    [database] and [timeout] may be left out. *)
Record ConnectionConfig : Type := {
  host : string;
  port : Z;
  user : string;
  password : string;
  database : option string;
  timeout : option Z
}.

(** The options object [connect] hands to [mysql.createConnection]. *)
Record ConnectOptions : Type := {
  o_host : string;
  o_port : Z;
  o_user : string;
  o_password : string;
  o_database : option string;
  o_connectTimeout : Z;
  o_ssl : bool;
  o_charset : string
}.

(** A connection object of the driver; a resolved [createConnection] always
    yields one, so a handle is never [null]. *)
Definition Handle : Type := nat.

(** What the client does to the outside, in the order it happens. *)
Inductive event : Type :=
  | EvCreateConnection (opts : ConnectOptions)
  | EvExecute (h : Handle) (sql : string) (params : list JsVal)
  | EvQuery (h : Handle) (sql : string) (values : list (list JsVal))
  | EvEnd (h : Handle)
  | EvLog (label msg : string).               (* [console.error(label, msg)] *)

(** A driver call resolves with a value or rejects with a driver error, of
    which the client reads the message only. *)
Inductive driver_result (A : Type) : Type :=
  | Resolved (a : A)
  | Rejected (msg : string).
Arguments Resolved {A} a.
Arguments Rejected {A} msg.

(** The driver and the server behind it: how each call answers, given all
    that happened before it. [execute] answers with the rows and the field
    metadata of a statement that returns rows. [end] resolves whatever the
    close reports (the promise the driver returns for it has no rejecting
    path), so it has no entry here. *)
Record Driver : Type := {
  createConnection : list event -> ConnectOptions -> driver_result Handle;
  execute : list event -> Handle -> string -> list JsVal
            -> driver_result (list record * list record);
  conn_query : list event -> Handle -> string -> list (list JsVal)
               -> driver_result Z          (* the result header's [affectedRows] *)
}.

(** ** The client object and its computations *)

Record DorisClient : Type := {
  config : ConnectionConfig;
  connection : option Handle;
  isConnected : bool
}.

(** [constructor(config)]. *)
Definition new_DorisClient (cfg : ConnectionConfig) : DorisClient :=
  {| config := cfg; connection := None; isConnected := false |}.

Definition set_connection (v : option Handle) (c : DorisClient) : DorisClient :=
  {| config := config c; connection := v; isConnected := isConnected c |}.

Definition set_isConnected (v : bool) (c : DorisClient) : DorisClient :=
  {| config := config c; connection := connection c; isConnected := v |}.

(** An asynchronous method: from the client's fields and the history so far
    to a completion, the fields and the history afterwards. Field updates
    made before a throw stay. *)
Definition M (A : Type) : Type :=
  DorisClient -> list event -> completion A * DorisClient * list event.

Definition ret {A} (a : A) : M A := fun c w => (Normal a, c, w).

Definition bind {A B} (m : M A) (f : A -> M B) : M B :=
  fun c w =>
    match m c w with
    | (Normal a, c', w') => f a c' w'
    | (Throw e, c', w') => (Throw e, c', w')
    end.

Definition throw {A} (e : JsError) : M A := fun c w => (Throw e, c, w).

(** [try { body } catch (error) { handler }]. *)
Definition try_catch {A} (body : M A) (handler : JsError -> M A) : M A :=
  fun c w =>
    match body c w with
    | (Normal a, c', w') => (Normal a, c', w')
    | (Throw e, c', w') => handler e c' w'
    end.

Definition this : M DorisClient := fun c w => (Normal c, c, w).
Definition assign (f : DorisClient -> DorisClient) : M unit :=
  fun c w => (Normal tt, f c, w).
Definition emit (e : event) : M unit := fun c w => (Normal tt, c, w ++ [e]).

(** [await] of a driver promise: the call is recorded, a rejection is
    thrown. *)
Definition await {A} (e : event) (answer : list event -> driver_result A) : M A :=
  fun c w =>
    match answer w with
    | Resolved a => (Normal a, c, w ++ [e])
    | Rejected msg => (Throw (Error msg), c, w ++ [e])
    end.

Definition console_error (label : string) (e : JsError) : M unit :=
  emit (EvLog label (message e)).

Global Instance M_ret : MRet M := @ret.
Global Instance M_bind : MBind M := fun A B f m => bind m f.

(** The engine's error for a method call on [null]. *)
Definition null_deref (method : string) : JsError :=
  TypeError ("Cannot read properties of null (reading '" +:+ method +:+ "')").

Definition connect_options (cfg : ConnectionConfig) : ConnectOptions :=
  {| o_host := host cfg;
     o_port := port cfg;
     o_user := user cfg;
     o_password := password cfg;
     o_database := database cfg;
     o_connectTimeout :=
       match timeout cfg with
       | Some t => if t =? 0 then 30000 else t      (* [timeout || 30000] *)
       | None => 30000
       end;
     o_ssl := false;
     o_charset := "utf8mb4" |}.

(** The import report of [bulkImport]. *)
Record ImportResult : Type := {
  success : bool;
  rowsAffected : Z;
  imp_message : string
}.

Section Client.
Variable drv : Driver.

(** [async connect()]. *)
Definition connect : M bool :=
  try_catch
    (c ← this;
     let opts := connect_options (config c) in
     h ← await (EvCreateConnection opts) (fun w => createConnection drv w opts);
     assign (set_connection (Some h)) ;;
     assign (set_isConnected true) ;;
     mret true)
    (fun error =>
       console_error "连接到 Doris 失败:" error ;;
       assign (set_isConnected false) ;;
       throw error).

(** [async disconnect()]. *)
Definition disconnect : M unit :=
  c ← this;
  match connection c with
  | Some h =>
      emit (EvEnd h) ;;
      assign (set_isConnected false) ;;
      assign (set_connection None)
  | None => mret tt
  end.

(** [async _ensureConnected()]. *)
Definition _ensureConnected : M unit :=
  c ← this;
  if negb (isConnected c) then connect ;; mret tt else mret tt.

(** [async query(sql, params = [])]. *)
Definition query (sql : string) (params : list JsVal)
  : M (list record * list record) :=
  _ensureConnected ;;
  try_catch
    (c ← this;
     match connection c with
     | None => throw (null_deref "execute")
     | Some h =>
         '(rows, fields) ← await (EvExecute h sql params)
                                  (fun w => execute drv w h sql params);
         mret (rows, fields)
     end)
    (fun error =>
       console_error "执行查询失败:" error ;;
       throw error).

(** [async getTableSchema(database, table)]. *)
Definition getTableSchema (database table : string) : M (list record) :=
  _ensureConnected ;;
  '(rows, _) ← query ("DESC `" +:+ database +:+ "`.`" +:+ table +:+ "`") [];
  mret rows.

(** [async bulkImport(database, table, data)]; [data] is [None] when the
    argument is absent. *)
Definition bulkImport (database table : string) (data : option (list record))
  : M ImportResult :=
  match data with
  | None | Some [] => throw (Error "没有提供数据进行导入")
  | Some data =>
      _ensureConnected ;;
      schema ← getTableSchema database table;
      let columns := map (fun col => js_or (js_get col "Field") (js_get col "name")) schema in
      let placeholders := js_join ", " (map (fun _ => "?") columns) in
      let sql := "INSERT INTO `" +:+ database +:+ "`.`" +:+ table +:+ "` ("
                 +:+ js_join ", " (map (fun c => "`" +:+ js_String c +:+ "`") columns)
                 +:+ ") VALUES (" +:+ placeholders +:+ ")" in
      let values := map (fun row => map (fun col => js_get row (js_String col)) columns) data in
      try_catch
        (c ← this;
         match connection c with
         | None => throw (null_deref "query")
         | Some h =>
             affectedRows ← await (EvQuery h sql values)
                                   (fun w => conn_query drv w h sql values);
             mret {| success := true;
                    rowsAffected := affectedRows;
                    imp_message := "成功导入 " +:+ pretty affectedRows +:+ " 条数据" |}
         end)
        (fun error =>
           console_error "数据导入失败:" error ;;
           throw error)
  end.
End Client.

(** ** Sequences of client operations *)

Inductive client_op : Type :=
  | OpConnect
  | OpDisconnect
  | OpQuery (sql : string) (params : list JsVal).

(** One operation called on the client; the caller goes on whether it
    returned or threw. *)
Definition run_op (drv : Driver) (op : client_op) (c : DorisClient) (w : list event)
  : DorisClient * list event :=
  match op with
  | OpConnect => let '(_, c', w') := connect drv c w in (c', w')
  | OpDisconnect => let '(_, c', w') := disconnect c w in (c', w')
  | OpQuery sql params => let '(_, c', w') := query drv sql params c w in (c', w')
  end.

Fixpoint run_ops (drv : Driver) (ops : list client_op) (c : DorisClient) (w : list event)
  : DorisClient * list event :=
  match ops with
  | [] => (c, w)
  | op :: ops' => let '(c', w') := run_op drv op c w in run_ops drv ops' c' w'
  end.

(** The connected flag is only up when a handle is held. *)
Definition client_inv (c : DorisClient) : Prop :=
  isConnected c = true -> connection c <> None.

(** Has the completion thrown the engine's null-dereference error? *)
Definition is_null_deref {A} (r : completion A) : bool :=
  match r with
  | Throw (TypeError _) => true
  | _ => false
  end.

(* ===================================================================== *)
(** * The query tool *)
(* ===================================================================== *)

(** What the tool reads of [config.json]. *)
Record AppConfig : Type := { doris : ConnectionConfig }.

(** The tool's input [{sql, database?}]. *)
Record QueryParams : Type := { sql : string; q_database : option string }.

(** The two shapes of the tool's answer: [{success: true, data, message}] and
    [{success: false, error, message}]. *)
Inductive ToolResult : Type :=
  | ToolSuccess (data : list record) (msg : string)
  | ToolFailure (error msg : string).

(** [helpers.loadConfig()]: [read] is how reading and parsing [config.json]
    completes. *)
Definition loadConfig (read : completion AppConfig) (w : list event)
  : completion AppConfig * list event :=
  match read with
  | Normal cfg => (Normal cfg, w)
  | Throw error => (Throw error, w ++ [EvLog "加载配置文件失败:" (message error)])
  end.

(** The spread [{...config.doris, ...(database ? { database } : {})}]. *)
Definition with_database (cfg : ConnectionConfig) (db : option string) : ConnectionConfig :=
  match db with
  | Some d =>
      if String.eqb d "" then cfg
      else {| host := host cfg; port := port cfg; user := user cfg;
              password := password cfg; database := Some d; timeout := timeout cfg |}
  | None => cfg
  end.

(** The [try] block of [dorisQuery]. *)
Definition dorisQuery_try (drv : Driver) (params : QueryParams)
    (read : completion AppConfig) (w : list event)
  : completion (list record * list record) * list event :=
  match loadConfig read w with
  | (Throw error, w1) => (Throw error, w1)
  | (Normal cfg, w1) =>
      let client := new_DorisClient (with_database (doris cfg) (q_database params)) in
      let '(r, _, w2) :=
        (connect drv ;;
         result ← query drv (sql params) [];
         disconnect ;;
         mret result) client w1 in
      (r, w2)
  end.

(** [async function dorisQuery(params)]. *)
Definition dorisQuery (drv : Driver) (params : QueryParams)
    (read : completion AppConfig) (w : list event)
  : completion ToolResult * list event :=
  match dorisQuery_try drv params read w with
  | (Normal (rows, _), w') =>
      (Normal (ToolSuccess rows
                 ("查询成功，返回 " +:+ pretty (length rows) +:+ " 条记录")), w')
  | (Throw error, w') =>
      (Normal (ToolFailure (message error) ("查询失败: " +:+ message error)), w')
  end.

(* ===================================================================== *)
(** * Reference CSV splitter *)
(* ===================================================================== *)

(** The splitter the round-trip property of [exportToCSV] is measured
    against; it is not part of the repository. It reads records ended by a
    line feed and cells separated by the delimiter; a cell that opens with a
    double quote runs to the matching quote, delimiters and line feeds
    included, and two quotes inside it stand for one. *)
Inductive csv_mode : Type :=
  | FieldStart      (* nothing of the cell read yet *)
  | InPlain         (* inside an unquoted cell *)
  | InQuoted        (* inside a quoted cell *)
  | QuoteSeen.      (* inside a quoted cell, just after a quote *)

(** Close the current cell, and with a line feed the current record. *)
Definition close_cell (cells : list string) (cur : list ascii) : list string :=
  rev_string cur :: cells.

Fixpoint ref_split_go (d : ascii) (rows : list (list string)) (cells : list string)
    (cur : list ascii) (mode : csv_mode) (s : string) : list (list string) :=
  match s with
  | EmptyString =>
      match mode, cells with
      | FieldStart, [] => rev rows
      | _, _ => rev (rev (close_cell cells cur) :: rows)
      end
  | String c s' =>
      let plain :=
        if Ascii.eqb c d then ref_split_go d rows (close_cell cells cur) [] FieldStart s'
        else if Ascii.eqb c LF
             then ref_split_go d (rev (close_cell cells cur) :: rows) [] [] FieldStart s'
             else ref_split_go d rows cells (c :: cur) InPlain s' in
      match mode with
      | FieldStart =>
          if Ascii.eqb c DQUOTE then ref_split_go d rows cells cur InQuoted s' else plain
      | InPlain => plain
      | InQuoted =>
          if Ascii.eqb c DQUOTE then ref_split_go d rows cells cur QuoteSeen s'
          else ref_split_go d rows cells (c :: cur) InQuoted s'
      | QuoteSeen =>
          if Ascii.eqb c DQUOTE then ref_split_go d rows cells (DQUOTE :: cur) InQuoted s'
          else plain
      end
  end.

Definition ref_split_csv (d : ascii) (s : string) : list (list string) :=
  ref_split_go d [] [] [] FieldStart s.

(** The cell terminators: the delimiter inside a record, the line feed at
    its end. *)
Definition terminator (d t : ascii) : Prop := t = d \/ t = LF.

(** Where the splitter stands once a cell's terminator [t] is read. *)
Definition after_terminator (d t : ascii) (rows : list (list string))
    (cells : list string) (cur : list ascii) (rest : string) : list (list string) :=
  if Ascii.eqb t d
  then ref_split_go d rows (close_cell cells cur) [] FieldStart rest
  else ref_split_go d (rev (close_cell cells cur) :: rows) [] [] FieldStart rest.

(** All the lines of a file, one after the other. *)
Definition unlines (lines : list string) : string := fold_right String.append "" lines.

(** A text that [exportToCSV] emits as it is. *)
Definition plain_text (d : ascii) (s : string) : bool :=
  negb (has_char d s) && negb (has_char DQUOTE s) && negb (has_char LF s).

(** The text a cell value stands for in the export: empty for [null] and
    [undefined], its string conversion otherwise. *)
Definition cell_text (v : JsVal) : string :=
  match v with
  | JNull | JUndefined => ""
  | _ => js_String v
  end.

(** The values whose text the export keeps: every value but the number zero
    and [false]. *)
Definition kept_value (v : JsVal) : bool :=
  match v with
  | JNum n => negb (n =? 0)
  | JBool b => b
  | _ => true
  end.

(* ===================================================================== *)
(** * [src/utils/helpers.js], the other helpers *)
(* ===================================================================== *)

(** How often the character occurs in the string. *)
Fixpoint count_char (c : ascii) (s : string) : nat :=
  match s with
  | EmptyString => O
  | String a s' => (if Ascii.eqb a c then 1 else 0) + count_char c s'
  end.

(** ** progressBar *)

(** [Math.round(num / den)] for [den <> 0]: the nearest integer, the larger
    one on a tie. The quotient is taken exactly; in double precision a
    quotient that is a tie or within rounding distance of one can fall on
    either side. *)
Definition round_div (num den : Z) : Z := (2 * num + den) / (2 * den).

Fixpoint repeat_string (s : string) (n : nat) : string :=
  match n with
  | O => EmptyString
  | S n' => s +:+ repeat_string s n'
  end.

(** [s.repeat(count)] for an integer count below the limit on the length of
    strings: a negative count raises. *)
Definition js_repeat (s : string) (count : Z) : completion string :=
  if count <? 0 then Throw (RangeError ("Invalid count value: " +:+ pretty count))
  else Normal (repeat_string s (Z.to_nat count)).

(** [progressBar(current, total, width = 30)] on integers. With [total] zero
    the quotient is not a number for [current] zero, and so are its
    roundings, which repeat nothing; otherwise it is infinite, and so is the
    completed width (repeating raises) unless [width] is zero, which makes
    the completed width not a number again. *)
Definition progressBar (current total : Z) (width : option Z) : completion string :=
  let width := default 30 width in
  if total =? 0 then
    if current =? 0
    then Normal ("[" +:+ "" +:+ ">" +:+ "" +:+ "] " +:+ "NaN" +:+ "% ("
                 +:+ pretty current +:+ "/" +:+ pretty total +:+ ")")
    else if width =? 0
    then Normal ("[" +:+ "" +:+ ">" +:+ "" +:+ "] "
                 +:+ (if current <? 0 then "-Infinity" else "Infinity") +:+ "% ("
                 +:+ pretty current +:+ "/" +:+ pretty total +:+ ")")
    else Throw (RangeError ("Invalid count value: "
                            +:+ (if xorb (current <? 0) (width <? 0)
                                 then "-Infinity" else "Infinity")))
  else
    let percentage := round_div (current * 100) total in
    let completedWidth := round_div (current * width) total in
    let remaining := width - completedWidth in
    match js_repeat "=" completedWidth with
    | Throw e => Throw e
    | Normal completed =>
        match js_repeat " " remaining with
        | Throw e => Throw e
        | Normal empty =>
            Normal ("[" +:+ completed +:+ ">" +:+ empty +:+ "] " +:+ pretty percentage
                    +:+ "% (" +:+ pretty current +:+ "/" +:+ pretty total +:+ ")")
        end
    end.

(** ** formatTable *)

(** A row handed to [formatTable]: an object, an array of cells, or anything
    else ([null] included). *)
Inductive table_row : Type :=
  | RowObject (o : record)
  | RowArray (cells : list JsVal)
  | RowOther (v : JsVal).

(** The loop of [formatTable] over the data rows, [tableData] growing at its
    end. An object row gives one cell for each header; [null] passes the
    object test, and reading a header of it raises; rows of other types are
    passed over. *)
Fixpoint formatTable_rows (headers : list string) (data : list table_row)
    (tableData : list (list JsVal)) : completion (list (list JsVal)) :=
  match data with
  | [] => Normal tableData
  | RowObject row :: data' =>
      let rowValues := map (fun header => js_or (js_get row header) (JStr "")) headers in
      formatTable_rows headers data' (tableData ++ [rowValues])
  | RowArray row :: data' => formatTable_rows headers data' (tableData ++ [row])
  | RowOther JNull :: data' =>
      match headers with
      | [] => formatTable_rows headers data' (tableData ++ [[]])
      | header :: _ =>
          Throw (TypeError ("Cannot read properties of null (reading '" +:+ header +:+ "')"))
      end
  | RowOther _ :: data' => formatTable_rows headers data' tableData
  end.

Section FormatTable.
(** The two library calls: [chalk.bold] and [table]. *)
Variable bold : string -> string.
Variable table : list (list JsVal) -> string.

(** [formatTable(data, headers)]. *)
Definition formatTable (data : list table_row) (headers : list string)
  : completion string :=
  let tableData := [map (fun h => JStr (bold h)) headers] in
  match formatTable_rows headers data tableData with
  | Normal tableData => Normal (table tableData)
  | Throw e => Throw e
  end.
End FormatTable.


(* ===================================================================== *)
(** * [src/lib/client.js], the other methods *)
(* ===================================================================== *)

(** ** exportToFile *)

(** The options [exportToFile] reads; [separator] is [None] when left out,
    [includeHeader] is the truth value of the option. *)
Record ExportOptions : Type := {
  separator : option string;
  includeHeader : bool
}.

Record ExportResult : Type := {
  exp_success : bool;
  rowCount : nat;
  exp_file : string;
  exp_message : string
}.

Definition Object_values (o : record) : list JsVal := map snd o.

(** The text [join] gives an element of the array: empty for [null] and
    [undefined], the string conversion otherwise. *)
Definition join_element (v : JsVal) : string :=
  match v with
  | JNull | JUndefined => ""
  | _ => js_String v
  end.

(** [options.separator || ',']. *)
Definition export_separator (options : ExportOptions) : string :=
  match separator options with
  | Some s => if String.eqb s "" then "," else s
  | None => ","
  end.

(** The text [exportToFile] builds from the rows. *)
Definition export_content (rows : list record) (options : ExportOptions) : string :=
  let separator := export_separator options in
  let content := "" in
  let content :=
    match rows with
    | first :: _ =>
        if includeHeader options
        then content +:+ js_join separator (Object_keys first) +:+ str1 LF
        else content
    | [] => content
    end in
  fold_left
    (fun content row =>
       content +:+ js_join separator (map join_element (Object_values row)) +:+ str1 LF)
    rows content.

(** [async exportToFile(sql, outputFile, options = {})]. [writeFile] is how
    [fs.writeFile] completes for a path and a content; the last component of
    the result lists the writes attempted. *)
Definition exportToFile (drv : Driver) (writeFile : string -> string -> completion unit)
    (sql outputFile : string) (options : ExportOptions)
    (c : DorisClient) (w : list event)
  : completion ExportResult * DorisClient * list event * list (string * string) :=
  match _ensureConnected drv c w with
  | (Throw e, c1, w1) => (Throw e, c1, w1, [])
  | (Normal _, c1, w1) =>
      match query drv sql [] c1 w1 with
      | (Throw error, c2, w2) =>
          (Throw error, c2, w2 ++ [EvLog "数据导出失败:" (message error)], [])
      | (Normal (rows, _), c2, w2) =>
          let content := export_content rows options in
          match writeFile outputFile content with
          | Normal _ =>
              (Normal {| exp_success := true;
                         rowCount := length rows;
                         exp_file := outputFile;
                         exp_message := "成功导出 " +:+ pretty (length rows)
                                        +:+ " 条记录到 " +:+ outputFile |},
               c2, w2, [(outputFile, content)])
          | Throw error =>
              (Throw error, c2, w2 ++ [EvLog "数据导出失败:" (message error)],
               [(outputFile, content)])
          end
      end
  end.

(* ===================================================================== *)
(** * The SQL operations of [DorisManager] *)
(* ===================================================================== *)

(** The manager owns one client, built from [config.doris]; its SQL
    operations are computations on that client. *)

(** The shape the SQL operations share: connect, one statement, a result
    read off the rows, all inside [try], the [catch] logging and
    rethrowing. *)
Definition manager_sql {A} (drv : Driver) (label sql : string)
    (result : list record -> M A) : M A :=
  try_catch
    (connect drv ;;
     '(rows, _) ← query drv sql [];
     result rows)
    (fun error =>
       console_error label error ;;
       throw error).

(** [async getTablePartitions(database, table)]. *)
Definition getTablePartitions (drv : Driver) (database table : string) : M (list record) :=
  try_catch
    (connect drv ;;
     '(rows, _) ← query drv ("SHOW PARTITIONS FROM `" +:+ database +:+ "`.`" +:+ table +:+ "`") [];
     mret rows)
    (fun error =>
       console_error "获取表分区信息失败:" error ;;
       throw error).

(** [async getTableStats(database, table)]; [rows[0]] is [None] for
    [undefined]. *)
Definition getTableStats (drv : Driver) (database table : string) : M (option record) :=
  try_catch
    (connect drv ;;
     '(rows, _) ← query drv ("SHOW STATS `" +:+ database +:+ "`.`" +:+ table +:+ "`") [];
     mret (head rows))
    (fun error =>
       console_error "获取表统计信息失败:" error ;;
       throw error).

(** [async getRunningQueries()]. *)
Definition getRunningQueries (drv : Driver) : M (list record) :=
  try_catch
    (connect drv ;;
     '(rows, _) ← query drv "SHOW PROCESSLIST" [];
     mret rows)
    (fun error =>
       console_error "获取运行中的查询失败:" error ;;
       throw error).

(** [async killQuery(queryId)]. *)
Definition killQuery (drv : Driver) (queryId : string) : M bool :=
  try_catch
    (connect drv ;;
     query drv ("KILL '" +:+ queryId +:+ "'") [] ;;
     mret true)
    (fun error =>
       console_error "终止查询失败:" error ;;
       throw error).

(** [async getVersion()]; reading [version] of the [undefined] that
    [rows[0]] is for an empty result raises. *)
Definition getVersion (drv : Driver) : M JsVal :=
  try_catch
    (connect drv ;;
     '(rows, _) ← query drv "SELECT DORIS_VERSION() as version" [];
     match rows with
     | row :: _ => mret (js_get row "version")
     | [] => throw (TypeError "Cannot read properties of undefined (reading 'version')")
     end)
    (fun error =>
       console_error "获取版本信息失败:" error ;;
       throw error).

(** [async addBeNode(host, port)]. *)
Definition addBeNode (drv : Driver) (host : string) (port : Z) : M bool :=
  try_catch
    (connect drv ;;
     query drv ("ALTER SYSTEM ADD BACKEND " +:+ str1 DQUOTE +:+ host +:+ ":"
                +:+ pretty port +:+ str1 DQUOTE) [] ;;
     mret true)
    (fun error =>
       console_error "添加BE节点失败:" error ;;
       throw error).

(** [async removeBeNode(host, port)]. *)
Definition removeBeNode (drv : Driver) (host : string) (port : Z) : M bool :=
  try_catch
    (connect drv ;;
     query drv ("ALTER SYSTEM DROP BACKEND " +:+ str1 DQUOTE +:+ host +:+ ":"
                +:+ pretty port +:+ str1 DQUOTE) [] ;;
     mret true)
    (fun error =>
       console_error "移除BE节点失败:" error ;;
       throw error).

Inductive manager_op : Type :=
  | MgrPartitions (database table : string)
  | MgrStats (database table : string)
  | MgrRunningQueries
  | MgrKill (queryId : string)
  | MgrVersion
  | MgrAddBe (host : string) (port : Z)
  | MgrRemoveBe (host : string) (port : Z).

(** One SQL operation called on the manager; the caller goes on whether it
    returned or threw. *)
Definition run_manager_op (drv : Driver) (op : manager_op) (c : DorisClient)
    (w : list event) : DorisClient * list event :=
  match op with
  | MgrPartitions db t => let '(_, c', w') := getTablePartitions drv db t c w in (c', w')
  | MgrStats db t => let '(_, c', w') := getTableStats drv db t c w in (c', w')
  | MgrRunningQueries => let '(_, c', w') := getRunningQueries drv c w in (c', w')
  | MgrKill id => let '(_, c', w') := killQuery drv id c w in (c', w')
  | MgrVersion => let '(_, c', w') := getVersion drv c w in (c', w')
  | MgrAddBe h p => let '(_, c', w') := addBeNode drv h p c w in (c', w')
  | MgrRemoveBe h p => let '(_, c', w') := removeBeNode drv h p c w in (c', w')
  end.

Fixpoint run_manager_ops (drv : Driver) (ops : list manager_op) (c : DorisClient)
    (w : list event) : DorisClient * list event :=
  match ops with
  | [] => (c, w)
  | op :: ops' => let '(c', w') := run_manager_op drv op c w in run_manager_ops drv ops' c' w'
  end.

(** Counting the events of a kind in a history. *)
Fixpoint count_events (p : event -> bool) (w : list event) : nat :=
  match w with
  | [] => O
  | e :: w' => (if p e then 1 else 0) + count_events p w'
  end.

Definition is_create (e : event) : bool :=
  match e with EvCreateConnection _ => true | _ => false end.

Definition is_end (e : event) : bool :=
  match e with EvEnd _ => true | _ => false end.

Definition is_execute (e : event) : bool :=
  match e with EvExecute _ _ _ => true | _ => false end.


(** What a call adds to the history: [tail], with so many connection
    attempts, closes and statements in it. *)
Definition adds (w w' tail : list event) (creates ends executes : nat) : Prop :=
  w' = w ++ tail /\
  count_events is_create tail = creates /\
  count_events is_end tail = ends /\
  count_events is_execute tail = executes.

(* ===================================================================== *)
(** * [ConfigLoader] *)
(* ===================================================================== *)

(** [s.endsWith(suffix)]. *)
Definition endsWith (suffix s : string) : bool :=
  (String.length suffix <=? String.length s)%nat &&
  String.eqb (substring_from (String.length s - String.length suffix) s) suffix.

(** [s.slice(2, -1)]: from the third character up to, not including, the
    last. *)
Definition slice_2_m1 (s : string) : string :=
  String.substring 2 (String.length s - 3) s.

(** [process.env[name] || dflt]: an unset variable and an empty one both
    give the default. Variable names are taken not to collide with the
    members every object inherits. *)
Definition env_or (env : gmap string string) (name dflt : string) : string :=
  match env !! name with
  | Some v => if String.eqb v "" then dflt else v
  | None => dflt
  end.

(** The value [resolveEnvVariables] stores for an entry of the side
    configuration. *)
Definition resolve_value (env : gmap string string) (value : JsVal) : JsVal :=
  match value with
  | JStr s =>
      if startsWith "${" s && endsWith "}" s
      then JStr (env_or env (slice_2_m1 s) "")
      else value
  | _ => value
  end.

(** [o[key] = v] on a plain object holding primitives (see [js_set]). *)
Definition obj_set {V} (o : gmap string V) (key : string) (v : V) : gmap string V :=
  if String.eqb key "__proto__" then o else <[key := v]> o.

(** [resolveEnvVariables(envConfig)], [env] being [process.env] and
    [envConfig] the entries of the configured object in order. *)
Definition resolveEnvVariables (env : gmap string string) (envConfig : record)
  : gmap string JsVal :=
  fold_left
    (fun resolved '(key, value) => obj_set resolved key (resolve_value env value))
    envConfig ∅.

(** What [loadEnv] reads of [mcp.json]: the object at [doris.env], [None]
    when [doris] or [doris.env] is missing. *)
Record McpConfig : Type := { mcp_env : option record }.

(** [loadEnv()]: [env] is [process.env] once [dotenv.config()] has run,
    [mcp] is [None] when there is no [mcp.json] and otherwise how reading
    and parsing it completes. Returns the environment afterwards, a variable
    assigned to [process.env] being stored as its string conversion, and the
    warnings printed. *)
Definition loadEnv (env : gmap string string) (mcp : option (completion McpConfig))
  : gmap string string * list string :=
  match mcp with
  | None => (env, [])
  | Some (Throw error) => (env, ["无法加载 mcp.json 配置文件: " +:+ message error])
  | Some (Normal mcpConfig) =>
      match mcp_env mcpConfig with
      | Some envConfig => ((js_String <$> resolveEnvVariables env envConfig) ∪ env, [])
      | None => (env, [])
      end
  end.

(** The connection parameters [getDorisConfig] returns. *)
Record DorisEnvConfig : Type := {
  env_host : string;
  env_port : JsVal;
  env_user : string;
  env_password : string
}.

(** [getDorisConfig()]; [parseInt] is the built-in. *)
Definition getDorisConfig (parseInt : string -> JsVal) (env : gmap string string)
  : DorisEnvConfig :=
  {| env_host := env_or env "DORIS_HOST" "localhost";
     env_port := parseInt (env_or env "DORIS_PORT" "9030");
     env_user := env_or env "DORIS_USER" "root";
     env_password := env_or env "DORIS_PASSWORD" "" |}.

(* ===================================================================== *)
(** * Handles in the history *)
(* ===================================================================== *)

(** The driver returned the handle [h] for a connection attempt recorded in
    the history [w]. *)
Definition handed_out (drv : Driver) (h : Handle) (w : list event) : Prop :=
  exists w0 opts tail,
    w = w0 ++ EvCreateConnection opts :: tail /\
    createConnection drv w0 opts = Resolved h.

(** The handle a driver call is made on. *)
Definition event_handle (e : event) : option Handle :=
  match e with
  | EvExecute h _ _ | EvQuery h _ _ | EvEnd h => Some h
  | EvCreateConnection _ | EvLog _ _ => None
  end.

(** Every call recorded in the history was made on a handle the driver had
    returned before it. *)
Definition known_events (drv : Driver) (w : list event) : Prop :=
  forall before e after h,
    w = before ++ e :: after -> event_handle e = Some h -> handed_out drv h before.

(** The same for the handle the client holds. *)
Definition handles_known (drv : Driver) (c : DorisClient) (w : list event) : Prop :=
  (forall h, connection c = Some h -> handed_out drv h w) /\ known_events drv w.

(* ===================================================================== *)
(** * Double precision *)
(* ===================================================================== *)

(** The embeddings of [formatBytes] and [progressBar] above take integers
    for numbers, with exact quotients and roundings. The numbers of the
    engine are IEEE 754 doubles: every quotient and product is rounded to the
    nearest double, [Math.log] is an approximation the engine chooses, and a
    number is printed as the shortest numeral that identifies its double.
    This module embeds the two helpers once more with that arithmetic.

    A finite double is kept as the rational number it stands for, in lowest
    terms; zero carries no sign (the helpers never divide by a zero they
    have computed, and a negative zero prints as 0). *)
Module Float64.

Definition pow2 (e : Z) : Q := Qpower 2 e.
Definition pow10 (e : Z) : Q := Qpower 10 e.

Definition Qltb (x y : Q) : bool := negb (Qle_bool y x).

(** The floor of the binary logarithm of a positive rational. *)
Definition Qlog2 (q : Q) : Z :=
  let l := Z.log2 (Qnum q) - Z.log2 (Zpos (Qden q)) in
  if Qle_bool (pow2 l) q then l else l - 1.

(** The nearest integer, the even one on a tie. *)
Definition round_even (q : Q) : Z :=
  let f := Qfloor q in
  match Qcompare (q - inject_Z f) (1 # 2) with
  | Lt => f
  | Gt => f + 1
  | Eq => if Z.even f then f else f + 1
  end.

(** The exponent of the unit in the last place of a positive number: 53
    bits of mantissa, and no exponent below that of the subnormal numbers. *)
Definition ulp_exp (q : Q) : Z := Z.max (Qlog2 q - 52) (-1074).

Definition fl53_pos (q : Q) : Q :=
  let e := ulp_exp q in (inject_Z (round_even (q / pow2 e)) * pow2 e)%Q.

(** Rounding to the nearest double, ties to even, before overflow is looked
    at. *)
Definition fl53 (q : Q) : Q :=
  match Qcompare q 0 with
  | Eq => 0%Q
  | Gt => fl53_pos q
  | Lt => Qopp (fl53_pos (Qopp q))
  end.

(** A number of the engine. *)
Inductive double : Type :=
  | Num (q : Q)
  | Inf (negative : bool)
  | NaN.

(** The double nearest to a real result: infinite from [2^1024] on. *)
Definition to_double (q : Q) : double :=
  let r := Qred (fl53 q) in
  if Qle_bool (pow2 1024) (Qabs r) then Inf (Qltb r 0) else Num r.

(** The number an integer argument is. *)
Definition of_Z (z : Z) : double := to_double (inject_Z z).

(** [a / b]. *)
Definition ddiv (a b : double) : double :=
  match a, b with
  | NaN, _ | _, NaN => NaN
  | Inf _, Inf _ => NaN
  | Inf s, Num y => Inf (xorb s (Qltb y 0))
  | Num _, Inf _ => Num 0
  | Num x, Num y =>
      if Qeq_bool y 0
      then if Qeq_bool x 0 then NaN else Inf (Qltb x 0)
      else to_double (x / y)
  end.

(** [a * b]. *)
Definition dmul (a b : double) : double :=
  match a, b with
  | NaN, _ | _, NaN => NaN
  | Inf s, Inf t => Inf (xorb s t)
  | Inf s, Num y | Num y, Inf s =>
      if Qeq_bool y 0 then NaN else Inf (xorb s (Qltb y 0))
  | Num x, Num y => to_double (x * y)
  end.

(** [a - b]. *)
Definition dsub (a b : double) : double :=
  match a, b with
  | NaN, _ | _, NaN => NaN
  | Inf s, Inf t => if Bool.eqb s t then NaN else Inf s
  | Inf s, Num _ => Inf s
  | Num _, Inf t => Inf (negb t)
  | Num x, Num y => to_double (x - y)
  end.

(** [Math.round]: the nearest integer, the larger one on a tie. It is a
    double whenever its argument is. *)
Definition Math_round (d : double) : double :=
  match d with
  | Num q => Num (inject_Z (Qfloor (q + (1 # 2))))
  | _ => d
  end.

(** [Math.floor]. *)
Definition Math_floor (d : double) : double :=
  match d with
  | Num q => Num (inject_Z (Qfloor q))
  | _ => d
  end.

(** ** Number to string *)

(** Does the numeral [c * 10^e] denote the double [x]? *)
Definition round_trips (x : Q) (c e : Z) : bool :=
  (0 <? c) && Qeq_bool (fl53 (inject_Z c * pow10 e)) x.

(** The search for the shortest numeral that denotes the positive double
    [x]: from the coarsest decimal grid down, the two grid points around [x]
    are tried; of two that both succeed the one nearer to [x] is taken. *)
Fixpoint shortest_go (fuel : nat) (e : Z) (x : Q) : Z * Z :=
  match fuel with
  | O => (0, e)
  | S fuel' =>
      let lo := Qfloor (x / pow10 e) in
      match round_trips x lo e, round_trips x (lo + 1) e with
      | true, true =>
          match Qcompare (x - inject_Z lo * pow10 e) (inject_Z (lo + 1) * pow10 e - x) with
          | Lt => (lo, e)
          | Gt => (lo + 1, e)
          | Eq => if Z.even lo then (lo, e) else (lo + 1, e)
          end
      | true, false => (lo, e)
      | false, true => (lo + 1, e)
      | false, false => shortest_go fuel' (e - 1) x
      end
  end.

(** Seventeen digits always suffice, and no double is below [10^-324]. *)
Definition shortest (x : Q) : Z * Z :=
  let e0 := Z.max 0 (Qlog2 x) + 1 in
  shortest_go (Z.to_nat (e0 + 342)) e0 x.

Fixpoint strip10 (fuel : nat) (m e : Z) : Z * Z :=
  match fuel with
  | O => (m, e)
  | S fuel' => if m mod 10 =? 0 then strip10 fuel' (m / 10) (e + 1) else (m, e)
  end.

(** The text of a positive double. With [k] digits [m] and the decimal
    point after [n] of them: the digits and [n - k] zeros when
    [k <= n <= 21]; the digits with the point inside, or after 0 and
    [- n] zeros, when [-6 < n <= 21]; the exponent notation otherwise. *)
Definition positive_text (x : Q) : string :=
  let '(m0, e0) := shortest x in
  let '(m, e) := strip10 (Z.to_nat (Z.log2 m0)) m0 e0 in
  let s := pretty m in
  let n := Z.of_nat (String.length s) + e in
  if (0 <=? e) && (n <=? 21) then pretty (m * 10 ^ e)
  else if (e <? 0) && (-6 <? n) && (n <=? 21)
  then pretty (m / 10 ^ (- e)) +:+ "." +:+ digits (Z.to_nat (- e)) (m mod 10 ^ (- e))
  else
    let mantissa :=
      match s with
      | String c EmptyString => s
      | String c rest => String c ("." +:+ rest)
      | EmptyString => s
      end in
    mantissa +:+ "e" +:+ (if n - 1 <? 0 then "-" else "+") +:+ pretty (Z.abs (n - 1)).

(** [String(d)], also what a template literal and [+] with a string make of
    a number. *)
Definition Number_toString (d : double) : string :=
  match d with
  | NaN => "NaN"
  | Inf true => "-Infinity"
  | Inf false => "Infinity"
  | Num q =>
      match Qcompare q 0 with
      | Eq => "0"
      | Lt => "-" +:+ positive_text (Qopp q)
      | Gt => positive_text q
      end
  end.

(** ** Strings with the engine's limit *)

(** [ToIntegerOrInfinity] of a finite number: towards zero. *)
Definition Qtrunc (q : Q) : Z := if Qltb q 0 then Qceiling q else Qfloor q.

(** [s.repeat(count)]; [limit] is the greatest length of a string in the
    engine. *)
Definition js_repeat (limit : Z) (s : string) (count : double) : completion string :=
  match count with
  | NaN => Normal ""
  | Inf _ => Throw (RangeError ("Invalid count value: " +:+ Number_toString count))
  | Num q =>
      let n := Qtrunc q in
      if n <? 0 then Throw (RangeError ("Invalid count value: " +:+ Number_toString count))
      else if limit <? n * Z.of_nat (String.length s)
      then Throw (RangeError "Invalid string length")
      else Normal (repeat_string s (Z.to_nat n))
  end.

(** The string a template literal builds. *)
Definition template (limit : Z) (s : string) : completion string :=
  if limit <? Z.of_nat (String.length s) then Throw (RangeError "Invalid string length")
  else Normal s.

(** ** progressBar *)

(** [progressBar(current, total, width = 30)] on arguments that are
    integers and doubles; [limit] is the greatest length of a string in the
    engine. *)
Definition progressBar (limit : Z) (current total : Z) (width : option Z)
  : completion string :=
  let width := of_Z (default 30 width) in
  let current := of_Z current in
  let total := of_Z total in
  let percentage := Math_round (dmul (ddiv current total) (of_Z 100)) in
  let completedWidth := Math_round (dmul (ddiv current total) width) in
  let remaining := dsub width completedWidth in
  match js_repeat limit "=" completedWidth with
  | Throw e => Throw e
  | Normal completed =>
      match js_repeat limit " " remaining with
      | Throw e => Throw e
      | Normal empty =>
          template limit
            ("[" +:+ completed +:+ ">" +:+ empty +:+ "] " +:+ Number_toString percentage
             +:+ "% (" +:+ Number_toString current +:+ "/" +:+ Number_toString total +:+ ")")
      end
  end.

(** ** Reading numerals *)

Definition digit_char (d : Z) : ascii := pretty_N_char (Z.to_N d).

Definition digit_of (c : ascii) : option Z :=
  let n := Z.of_nat (nat_of_ascii c) in
  if (48 <=? n) && (n <=? 57) then Some (n - 48) else None.

(** The digits at the head of [s]: their value on top of [acc], their
    number on top of [count], and the rest of [s]. *)
Fixpoint read_digits (acc : Z) (count : nat) (s : string) : Z * nat * string :=
  match s with
  | EmptyString => (acc, count, s)
  | String c s' =>
      match digit_of c with
      | Some d => read_digits (10 * acc + d) (S count) s'
      | None => (acc, count, s)
      end
  end.

(** The exponent part at the head of [s], 0 when there is none. *)
Definition read_exponent (s : string) : Z :=
  match s with
  | String c r =>
      if Ascii.eqb c "e" || Ascii.eqb c "E" then
        let '(negative, r') :=
          match r with
          | String "-" r' => (true, r')
          | String "+" r' => (false, r')
          | _ => (false, r)
          end in
        let '(v, n, _) := read_digits 0 0 r' in
        match n with
        | O => 0
        | S _ => if negative : bool then - v else v
        end
      else 0
  | EmptyString => 0
  end.

(** The value of the longest decimal numeral at the head of [s]: digits, a
    point and digits, an exponent; [None] when [s] starts with none. *)
Definition read_decimal (s : string) : option Q :=
  let '(ip, ni, r1) := read_digits 0 0 s in
  let '(fp, nf, r2) :=
    match r1 with
    | String "." r => read_digits 0 0 r
    | _ => (0, O, r1)
    end in
  match (ni + nf)%nat with
  | O => None
  | S _ => Some ((inject_Z ip + inject_Z fp / pow10 (Z.of_nat nf)) * pow10 (read_exponent r2))%Q
  end.

(** White space, as far as one byte can hold it. *)
Definition is_space (c : ascii) : bool :=
  let n := nat_of_ascii c in
  ((9 <=? n) && (n <=? 13))%nat || (n =? 32)%nat.

Fixpoint skip_spaces (s : string) : string :=
  match s with
  | String c s' => if is_space c then skip_spaces s' else s
  | EmptyString => s
  end.

Definition read_unsigned (s : string) : double :=
  if String.prefix "Infinity" s then Inf false
  else match read_decimal s with
       | Some q => to_double q
       | None => NaN
       end.

Definition negate (d : double) : double :=
  match d with
  | Num q => Num (- q)
  | Inf s => Inf (negb s)
  | NaN => NaN
  end.

(** [parseFloat(s)]. *)
Definition parseFloat (s : string) : double :=
  match skip_spaces s with
  | String "-" r => negate (read_unsigned r)
  | String "+" r => read_unsigned r
  | r => read_unsigned r
  end.

(** [x.toFixed(f)]: the integer [n] with [n / 10^f] nearest to [x], the
    larger one on a tie, written with [f] fraction digits; the plain text of
    the number from [1e21] on. *)
Definition toFixed (x : double) (f : Z) : completion string :=
  if (f <? 0) || (100 <? f)
  then Throw (RangeError "toFixed() digits argument must be between 0 and 100")
  else
    match x with
    | Num q =>
        let a := Qabs q in
        let m :=
          if Qle_bool (pow10 21) a then Number_toString (Num a)
          else
            let n := Qfloor (a * pow10 f + (1 # 2)) in
            if f =? 0 then pretty n
            else pretty (n / 10 ^ f) +:+ "." +:+ digits (Z.to_nat f) (n mod 10 ^ f) in
        Normal ((if Qltb q 0 then "-" else "") +:+ m)
    | _ => Normal (Number_toString x)
    end.

(** [l[i]] put into a string: the text [undefined] unless [i] is an index
    of the array. *)
Definition element (l : list string) (i : double) : string :=
  match i with
  | Num q =>
      if Qle_bool 0 q && Qeq_bool q (inject_Z (Qfloor q))
      then nth (Z.to_nat (Qfloor q)) l "undefined"
      else "undefined"
  | _ => "undefined"
  end.

(** [Math.pow(k, i)] for a base above 1 and an exponent that is an integer,
    as [Math.floor] returns it: the power, rounded to the nearest double.
    The powers of 1024 are powers of two: each is a double, or overflows, or
    falls below the least double, and the engines return them without
    error. *)
Definition Math_pow (k : Z) (i : double) : double :=
  match i with
  | NaN => NaN
  | Inf true => Num 0
  | Inf false => Inf false
  | Num q => to_double (Qpower (inject_Z k) (Qfloor q))
  end.

(** ** formatBytes *)

Section Engine.
(** What the engine takes for the natural logarithm of an integer above 1:
    the language leaves the approximation to the engine. *)
Variable ln : Z -> Q.

(** [Math.log(x)] on an integer. *)
Definition Math_log (x : Z) : double :=
  if x <? 0 then NaN
  else if x =? 0 then Inf true
  else if x =? 1 then Num 0
  else to_double (ln x).

(** [formatBytes(bytes, decimals = 2)] on a byte count that is an integer
    and a double, and an integer number of decimals; [decimals] is [None]
    when the argument is left out. *)
Definition formatBytes (bytes : Z) (decimals : option Z) : completion string :=
  let decimals := default 2 decimals in
  if bytes =? 0 then Normal "0 Bytes"
  else
    let k := 1024 in
    let dm := if decimals <? 0 then 0 else decimals in
    let i := Math_floor (ddiv (Math_log bytes) (Math_log k)) in
    match toFixed (ddiv (of_Z bytes) (Math_pow k i)) dm with
    | Throw e => Throw e
    | Normal text =>
        Normal (Number_toString (parseFloat text) +:+ " " +:+ element sizes i)
    end.
End Engine.

(** ** A sample engine *)

(** The natural logarithm to 200 binary places, which [Math_log] rounds to
    the nearest double: twice the series of the inverse hyperbolic tangent,
    for 2 and for the mantissa of the argument. *)
Definition ln_bits : Z := 200.

Fixpoint atanh_sum (fuel : nat) (k term t2 acc : Z) : Z :=
  match fuel with
  | O => acc
  | S fuel' => atanh_sum fuel' (k + 2) (term * t2 / 2 ^ ln_bits) t2 (acc + term / k)
  end.

Definition atanh_fixed (num den : Z) : Z :=
  let t := num * 2 ^ ln_bits / den in
  atanh_sum 80 1 t (t * t / 2 ^ ln_bits) 0.

Definition ln_series (x : Z) : Q :=
  let l := Z.log2 x in
  let v := l * (2 * atanh_fixed 1 3) + 2 * atanh_fixed (x - 2 ^ l) (x + 2 ^ l) in
  Qmake v (Z.to_pos (2 ^ ln_bits)).

End Float64.

(* ===================================================================== *)
(** * Sample inputs *)
(* ===================================================================== *)

Definition sample_config : ConnectionConfig :=
  {| host := "127.0.0.1"; port := 9030; user := "root"; password := "";
     database := None; timeout := None |}.

(** A host nobody listens on. *)
Definition refusing_driver : Driver :=
  {| createConnection := fun _ _ => Rejected "connect ECONNREFUSED 127.0.0.1:9030";
     execute := fun _ _ _ _ => Rejected "closed";
     conn_query := fun _ _ _ _ => Rejected "closed" |}.

(** A server with one table of one column: it describes the table on [DESC]
    and answers any other statement with one row. *)
Definition serving_driver : Driver :=
  {| createConnection := fun w _ => Resolved (length w);
     execute := fun _ _ sql _ =>
       if startsWith "DESC" sql
       then Resolved ([[("Field", JStr "id"); ("Type", JStr "INT")]], [])
       else Resolved ([[("1", JNum 1)]], [[("name", JStr "1")]]);
     conn_query := fun _ _ _ values => Resolved (Z.of_nat (length values)) |}.

(** Two rows of a result set, the first with a comma, quotes and a line
    feed in its cells. *)
Definition sample_rows : list record :=
  [ [("name", JStr "Doe, Jane");
     ("note", JStr ("say " +:+ String DQUOTE ("hi" +:+ String DQUOTE (String LF "there"))));
     ("age", JNum 42)];
    [("name", JNull); ("note", JStr ""); ("age", JNum (-7))] ].

(* ===================================================================== *)
(** * Properties of the client *)
(* ===================================================================== *)

(** Unfold the monad of asynchronous methods down to its pairs. *)
Ltac run_js :=
  unfold mbind, mret, M_bind, M_ret, bind, ret, throw, try_catch, this, assign,
    emit, await, console_error in *;
  cbn [fst snd connection isConnected config set_connection set_isConnected
       new_DorisClient message] in *.

(** Case analysis on the next driver answer in the goal. *)
Ltac case_driver :=
  match goal with
  | |- context [execute ?d ?w ?h ?s ?p] =>
      destruct (execute d w h s p) as [[? ?]|?]
  | |- context [conn_query ?d ?w ?h ?s ?v] =>
      destruct (conn_query d w h s v) as [?|?]
  end.

Lemma connect_resolved drv c w h :
  createConnection drv w (connect_options (config c)) = Resolved h ->
  connect drv c w =
    (Normal true,
     {| config := config c; connection := Some h; isConnected := true |},
     w ++ [EvCreateConnection (connect_options (config c))]).
Proof.
  intros Hc. unfold connect. run_js. rewrite Hc. reflexivity.
Qed.

Lemma connect_rejected drv c w msg :
  createConnection drv w (connect_options (config c)) = Rejected msg ->
  connect drv c w =
    (Throw (Error msg), set_isConnected false c,
     w ++ [EvCreateConnection (connect_options (config c));
           EvLog "连接到 Doris 失败:" msg]).
Proof.
  intros Hc. unfold connect. run_js. rewrite Hc. cbn.
  rewrite <- app_assoc. reflexivity.
Qed.

Lemma ensureConnected_up drv c w :
  isConnected c = true -> _ensureConnected drv c w = (Normal tt, c, w).
Proof. intros H. unfold _ensureConnected. run_js. rewrite H. reflexivity. Qed.

Lemma ensureConnected_down drv c w :
  isConnected c = false ->
  _ensureConnected drv c w =
    match connect drv c w with
    | (Normal _, c', w') => (Normal tt, c', w')
    | (Throw e, c', w') => (Throw e, c', w')
    end.
Proof.
  intros H. unfold _ensureConnected. run_js. rewrite H. cbn.
  destruct (connect drv c w) as [[[b|e] c'] w']; reflexivity.
Qed.

(** [query] step by step: the guard, then the guarded [execute]. *)
Lemma query_unfold drv sql params c w :
  query drv sql params c w =
    match _ensureConnected drv c w with
    | (Normal _, c1, w1) =>
        match connection c1 with
        | None =>
            (Throw (null_deref "execute"), c1,
             w1 ++ [EvLog "执行查询失败:" (message (null_deref "execute"))])
        | Some h =>
            match execute drv w1 h sql params with
            | Resolved (rows, fields) =>
                (Normal (rows, fields), c1, w1 ++ [EvExecute h sql params])
            | Rejected msg =>
                (Throw (Error msg), c1,
                 w1 ++ [EvExecute h sql params; EvLog "执行查询失败:" msg])
            end
        end
    | (Throw e, c1, w1) => (Throw e, c1, w1)
    end.
Proof.
  unfold query. run_js.
  destruct (_ensureConnected drv c w) as [[[u|e] c1] w1]; [|reflexivity].
  destruct (connection c1) as [h|]; [|reflexivity].
  destruct (execute drv w1 h sql params) as [[rows fields]|msg]; cbn;
    rewrite <- ?app_assoc; reflexivity.
Qed.

(** Whatever the driver answers, [connect] leaves the flag up only with a
    handle. *)
Lemma connect_inv drv c w : client_inv (snd (fst (connect drv c w))).
Proof.
  destruct (createConnection drv w (connect_options (config c))) as [h|msg] eqn:Hc.
  - rewrite (connect_resolved _ _ _ _ Hc). cbn. intros _. discriminate.
  - rewrite (connect_rejected _ _ _ _ Hc). cbn. intros H. discriminate.
Qed.

Lemma disconnect_inv c w : client_inv c -> client_inv (snd (fst (disconnect c w))).
Proof.
  intros Hinv. unfold disconnect. run_js.
  destruct (connection c) as [h|] eqn:Hh; cbn.
  - intros H. discriminate.
  - exact Hinv.
Qed.

Lemma query_state drv sql params c w :
  snd (fst (query drv sql params c w)) = c \/
  snd (fst (query drv sql params c w)) = snd (fst (connect drv c w)).
Proof.
  unfold query, _ensureConnected. run_js.
  destruct (isConnected c); cbn.
  - left. destruct (connection c) as [h|]; cbn; [|reflexivity].
    destruct (execute drv w h sql params) as [[rows fields]|msg]; reflexivity.
  - right. destruct (connect drv c w) as [[[b|e] c1] w1]; cbn; [|reflexivity].
    destruct (connection c1) as [h|]; cbn; [|reflexivity].
    destruct (execute drv w1 h sql params) as [[rows fields]|msg]; reflexivity.
Qed.

Lemma query_inv drv sql params c w :
  client_inv c -> client_inv (snd (fst (query drv sql params c w))).
Proof.
  intros Hinv. destruct (query_state drv sql params c w) as [-> | ->].
  - exact Hinv.
  - apply connect_inv.
Qed.

Lemma run_op_inv drv op c w : client_inv c -> client_inv (fst (run_op drv op c w)).
Proof.
  intros Hinv. destruct op as [| |sql params]; cbn.
  - pose proof (connect_inv drv c w) as H.
    destruct (connect drv c w) as [[r c1] w1]. exact H.
  - pose proof (disconnect_inv c w Hinv) as H.
    destruct (disconnect c w) as [[r c1] w1]. exact H.
  - pose proof (query_inv drv sql params c w Hinv) as H.
    destruct (query drv sql params c w) as [[r c1] w1]. exact H.
Qed.

Lemma run_ops_inv drv ops : forall c w,
  client_inv c -> client_inv (fst (run_ops drv ops c w)).
Proof.
  induction ops as [|op ops IH]; intros c w Hinv; cbn.
  - exact Hinv.
  - pose proof (run_op_inv drv op c w Hinv) as H.
    destruct (run_op drv op c w) as [c1 w1]. apply IH. exact H.
Qed.

(** From a state that satisfies the invariant, [query] has a handle whenever
    it reaches [execute]. *)
Lemma query_no_null_deref drv sql params c w :
  client_inv c -> is_null_deref (fst (fst (query drv sql params c w))) = false.
Proof.
  intros Hinv. unfold query, _ensureConnected. run_js.
  destruct (isConnected c) eqn:Hflag; cbn.
  - destruct (connection c) as [h|] eqn:Hh.
    + cbn. destruct (execute drv w h sql params) as [[rows fields]|msg]; reflexivity.
    + exfalso. apply Hinv; [exact Hflag | exact Hh].
  - destruct (createConnection drv w (connect_options (config c))) as [h|msg] eqn:Hc.
    + rewrite (connect_resolved _ _ _ _ Hc). cbn.
      destruct (execute drv _ h sql params) as [[rows fields]|msg]; reflexivity.
    + rewrite (connect_rejected _ _ _ _ Hc). reflexivity.
Qed.

(** C3. [bulkImport] called with absent data or with an empty array throws
    the validation error at once: the client's fields and the history of
    driver calls are what they were, so no connection was opened and neither
    the schema lookup nor the insert was issued. *)
Theorem bulkImport_empty_no_sql drv db table c w :
  bulkImport drv db table None c w = (Throw (Error "没有提供数据进行导入"), c, w) /\
  bulkImport drv db table (Some []) c w = (Throw (Error "没有提供数据进行导入"), c, w).
Proof. split; reflexivity. Qed.

(** With data to import the driver is called: a connection, the schema
    lookup and one insert for all rows. *)
Example bulkImport_sample :
  bulkImport serving_driver "db" "t"
    (Some [[("id", JNum 1)]; [("id", JNum 2)]]) (new_DorisClient sample_config) []
  = (Normal {| success := true; rowsAffected := 2;
               imp_message := "成功导入 2 条数据" |},
     {| config := sample_config; connection := Some O; isConnected := true |},
     [EvCreateConnection (connect_options sample_config);
      EvExecute O "DESC `db`.`t`" [];
      EvQuery O "INSERT INTO `db`.`t` (`id`) VALUES (?)" [[JNum 1]; [JNum 2]]]).
Proof. vm_compute. reflexivity. Qed.

(** C5. When the driver rejects the connection attempt, [connect] throws the
    driver's error as it is, after a single attempt (the history gains one
    [createConnection] call and the log line), and leaves the connected flag
    down; a later [query] then starts with a new connection attempt. *)
Theorem connect_failure drv c w msg :
  createConnection drv w (connect_options (config c)) = Rejected msg ->
  let opts := connect_options (config c) in
  let w1 := w ++ [EvCreateConnection opts; EvLog "连接到 Doris 失败:" msg] in
  connect drv c w = (Throw (Error msg), set_isConnected false c, w1) /\
  isConnected (snd (fst (connect drv c w))) = false /\
  forall sql params, exists tail,
    snd (query drv sql params (snd (fst (connect drv c w))) w1)
    = w1 ++ EvCreateConnection opts :: tail.
Proof.
  intros Hc opts w1. rewrite (connect_rejected _ _ _ _ Hc).
  split; [reflexivity|]. split; [reflexivity|].
  intros sql params. cbn [fst snd].
  rewrite query_unfold, ensureConnected_down by reflexivity.
  change (connect_options (config (set_isConnected false c))) with opts.
  destruct (createConnection drv w1 opts) as [h|msg'] eqn:Hc'.
  - rewrite (connect_resolved drv (set_isConnected false c) w1 h Hc').
    cbn [connection].
    destruct (execute drv _ h sql params) as [[rows fields]|msg'].
    + exists [EvExecute h sql params]. rewrite <- app_assoc. reflexivity.
    + exists [EvExecute h sql params; EvLog "执行查询失败:" msg'].
      rewrite <- app_assoc. reflexivity.
  - rewrite (connect_rejected drv (set_isConnected false c) w1 msg' Hc').
    exists [EvLog "连接到 Doris 失败:" msg']. reflexivity.
Qed.

Lemma connect_failure_witness :
  connect refusing_driver (new_DorisClient sample_config) []
  = (Throw (Error "connect ECONNREFUSED 127.0.0.1:9030"),
     new_DorisClient sample_config,
     [EvCreateConnection (connect_options sample_config);
      EvLog "连接到 Doris 失败:" "connect ECONNREFUSED 127.0.0.1:9030"]).
Proof.
  exact (proj1 (connect_failure refusing_driver (new_DorisClient sample_config) []
                  "connect ECONNREFUSED 127.0.0.1:9030" eq_refl)).
Defined.

(** C6. On a freshly constructed client, [query] first opens the connection
    and then executes the statement on it, returning the rows and the field
    metadata; when the connection attempt is rejected, [query] throws that
    error and never reaches [execute]; in no case does it call [execute] on
    a missing handle. *)
Theorem query_lazy_connect drv cfg sql params w :
  let opts := connect_options cfg in
  (forall h rows fields,
      createConnection drv w opts = Resolved h ->
      execute drv (w ++ [EvCreateConnection opts]) h sql params = Resolved (rows, fields) ->
      query drv sql params (new_DorisClient cfg) w
      = (Normal (rows, fields),
         {| config := cfg; connection := Some h; isConnected := true |},
         w ++ [EvCreateConnection opts; EvExecute h sql params])) /\
  (forall msg,
      createConnection drv w opts = Rejected msg ->
      query drv sql params (new_DorisClient cfg) w
      = (Throw (Error msg), new_DorisClient cfg,
         w ++ [EvCreateConnection opts; EvLog "连接到 Doris 失败:" msg])) /\
  is_null_deref (fst (fst (query drv sql params (new_DorisClient cfg) w))) = false.
Proof.
  intros opts. split; [|split].
  - intros h rows fields Hc He.
    rewrite query_unfold, ensureConnected_down by reflexivity.
    rewrite (connect_resolved drv (new_DorisClient cfg) w h Hc).
    cbn [connection config new_DorisClient]. fold opts. rewrite He.
    rewrite <- app_assoc. reflexivity.
  - intros msg Hc.
    rewrite query_unfold, ensureConnected_down by reflexivity.
    rewrite (connect_rejected drv (new_DorisClient cfg) w msg Hc). reflexivity.
  - apply query_no_null_deref. intros H. discriminate.
Qed.

Lemma query_lazy_connect_witness :
  query serving_driver "SELECT 1" [] (new_DorisClient sample_config) []
  = (Normal ([[("1", JNum 1)]], [[("name", JStr "1")]]),
     {| config := sample_config; connection := Some O; isConnected := true |},
     [EvCreateConnection (connect_options sample_config); EvExecute O "SELECT 1" []]).
Proof.
  exact (proj1 (query_lazy_connect serving_driver sample_config "SELECT 1" [] [])
           O _ _ eq_refl eq_refl).
Defined.

(** C7. [disconnect] with no connection open returns without raising and
    changes nothing; from any state of the client in which the flag is up
    only with a handle, a call to [disconnect] returns with no handle held
    and the flag down, and calling it again right away is such a no-op. *)
Theorem disconnect_idempotent c w :
  (connection c = None -> disconnect c w = (Normal tt, c, w)) /\
  (client_inv c ->
   exists c' w',
     disconnect c w = (Normal tt, c', w') /\
     connection c' = None /\ isConnected c' = false /\
     disconnect c' w' = (Normal tt, c', w')).
Proof.
  split.
  - intros Hh. unfold disconnect. run_js. rewrite Hh. reflexivity.
  - intros Hinv. unfold disconnect. run_js.
    destruct (connection c) as [h|] eqn:Hh.
    + eexists. eexists. split; [reflexivity|]. cbn. repeat split; reflexivity.
    + exists c, w. split; [reflexivity|]. split; [exact Hh|].
      split; [|rewrite Hh; reflexivity].
      destruct (isConnected c) eqn:Hflag; [|reflexivity].
      exfalso. apply Hinv; [exact Hflag | exact Hh].
Qed.

Lemma disconnect_idempotent_witness :
  exists c' w',
    disconnect {| config := sample_config; connection := Some 3%nat; isConnected := true |} []
    = (Normal tt, c', w') /\
    connection c' = None /\ isConnected c' = false /\
    disconnect c' w' = (Normal tt, c', w').
Proof.
  apply (proj2 (disconnect_idempotent
                  {| config := sample_config; connection := Some 3%nat;
                     isConnected := true |} [])).
  intros _. discriminate.
Defined.

(** C10. After any finite sequence of [connect], [disconnect] and [query]
    calls on a new client, each returning or throwing as the driver decides,
    a connected flag that is up comes with a handle, and the [execute] call
    of a further [query] is never made on a missing handle. *)
Theorem client_flag_implies_handle drv cfg ops w :
  let c := fst (run_ops drv ops (new_DorisClient cfg) w) in
  let w' := snd (run_ops drv ops (new_DorisClient cfg) w) in
  (isConnected c = true -> connection c <> None) /\
  (forall sql params, is_null_deref (fst (fst (query drv sql params c w'))) = false).
Proof.
  intros c w'.
  assert (Hinv : client_inv c).
  { apply run_ops_inv. intros H. discriminate. }
  split; [exact Hinv|].
  intros sql params. apply query_no_null_deref. exact Hinv.
Qed.

(** C4. [dorisQuery] always returns a result object: the success shape with
    the rows and their count when loading the configuration, connecting and
    querying all succeed, the failure shape carrying the error's message
    when loading, connecting or querying fails. *)
Theorem dorisQuery_structured_result drv params read w :
  (exists r w', dorisQuery drv params read w = (Normal r, w')) /\
  (forall cfg h rows fields,
      let opts := connect_options (with_database (doris cfg) (q_database params)) in
      read = Normal cfg ->
      createConnection drv w opts = Resolved h ->
      execute drv (w ++ [EvCreateConnection opts]) h (sql params) [] = Resolved (rows, fields) ->
      fst (dorisQuery drv params read w)
      = Normal (ToolSuccess rows ("查询成功，返回 " +:+ pretty (length rows) +:+ " 条记录"))) /\
  (forall error,
      read = Throw error ->
      fst (dorisQuery drv params read w)
      = Normal (ToolFailure (message error) ("查询失败: " +:+ message error))) /\
  (forall cfg msg,
      let opts := connect_options (with_database (doris cfg) (q_database params)) in
      read = Normal cfg ->
      createConnection drv w opts = Rejected msg ->
      fst (dorisQuery drv params read w)
      = Normal (ToolFailure msg ("查询失败: " +:+ msg))) /\
  (forall cfg h msg,
      let opts := connect_options (with_database (doris cfg) (q_database params)) in
      read = Normal cfg ->
      createConnection drv w opts = Resolved h ->
      execute drv (w ++ [EvCreateConnection opts]) h (sql params) [] = Rejected msg ->
      fst (dorisQuery drv params read w)
      = Normal (ToolFailure msg ("查询失败: " +:+ msg))).
Proof.
  split; [|split; [|split; [|split]]].
  - unfold dorisQuery.
    destruct (dorisQuery_try drv params read w) as [[[rows fields]|e] w']; eauto.
  - intros cfg h rows fields opts Hr Hc He.
    unfold dorisQuery, dorisQuery_try, loadConfig. rewrite Hr.
    unfold mbind, M_bind, bind at 1.
    rewrite (connect_resolved drv (new_DorisClient (with_database (doris cfg) (q_database params))) w h Hc).
    unfold bind at 1. rewrite query_unfold, ensureConnected_up by reflexivity.
    cbn [connection config new_DorisClient]. fold opts. rewrite He.
    reflexivity.
  - intros error Hr. unfold dorisQuery, dorisQuery_try, loadConfig.
    rewrite Hr. reflexivity.
  - intros cfg msg opts Hr Hc.
    unfold dorisQuery, dorisQuery_try, loadConfig. rewrite Hr.
    unfold mbind, M_bind, bind at 1.
    rewrite (connect_rejected drv (new_DorisClient (with_database (doris cfg) (q_database params))) w msg Hc). reflexivity.
  - intros cfg h msg opts Hr Hc He.
    unfold dorisQuery, dorisQuery_try, loadConfig. rewrite Hr.
    unfold mbind, M_bind, bind at 1.
    rewrite (connect_resolved drv (new_DorisClient (with_database (doris cfg) (q_database params))) w h Hc).
    unfold bind at 1. rewrite query_unfold, ensureConnected_up by reflexivity.
    cbn [connection config new_DorisClient]. fold opts. rewrite He.
    reflexivity.
Qed.

Lemma dorisQuery_structured_result_witness :
  fst (dorisQuery refusing_driver {| sql := "SELECT 1"; q_database := None |}
         (Normal {| doris := sample_config |}) [])
  = Normal (ToolFailure "connect ECONNREFUSED 127.0.0.1:9030"
              "查询失败: connect ECONNREFUSED 127.0.0.1:9030").
Proof.
  exact (proj1 (proj2 (proj2 (proj2
           (dorisQuery_structured_result refusing_driver
              {| sql := "SELECT 1"; q_database := None |}
              (Normal {| doris := sample_config |}) []))))
           {| doris := sample_config |} _ eq_refl eq_refl).
Defined.

(* ===================================================================== *)
(** * Strings *)
(* ===================================================================== *)

(** stdpp keeps [String.append] folded; the proofs below compute with it. *)
Local Arguments String.append !_ _ / : simpl nomatch.

Lemma append_nil_r (s : string) : s +:+ "" = s.
Proof. induction s as [|a s IH]; simpl; [reflexivity | f_equal; exact IH]. Qed.

Lemma append_assoc (s1 s2 s3 : string) : (s1 +:+ s2) +:+ s3 = s1 +:+ (s2 +:+ s3).
Proof. induction s1 as [|a s1 IH]; simpl; [reflexivity | f_equal; exact IH]. Qed.

Lemma pushed_cons a s acc : pushed (String a s) acc = pushed s (a :: acc).
Proof. unfold pushed. cbn. rewrite <- app_assoc. reflexivity. Qed.

Lemma rev_string_pushed s : rev_string (pushed s []) = s.
Proof.
  unfold rev_string, pushed. rewrite app_nil_r, rev_involutive.
  apply string_of_list_ascii_of_string.
Qed.

Lemma ascii_eqb_false (a b : ascii) : a <> b -> Ascii.eqb a b = false.
Proof. intros H. apply Ascii.eqb_neq. exact H. Qed.

Lemma has_char_append c s1 s2 :
  has_char c (s1 +:+ s2) = has_char c s1 || has_char c s2.
Proof.
  induction s1 as [|a s1 IH]; cbn; [reflexivity|].
  rewrite IH, orb_assoc. reflexivity.
Qed.

Lemma prefix_nil s : String.prefix "" s = true.
Proof. destruct s; reflexivity. Qed.

Lemma prefix_cons c p a s :
  String.prefix (String c p) (String a s) = Ascii.eqb a c && String.prefix p s.
Proof.
  cbn [String.prefix]. destruct (ascii_dec c a) as [->|Hne].
  - rewrite Ascii.eqb_refl. reflexivity.
  - rewrite ascii_eqb_false by congruence. reflexivity.
Qed.

Lemma prefix_str1 c a s :
  String.prefix (str1 c) (String a s) = Ascii.eqb a c.
Proof. unfold str1. rewrite prefix_cons, prefix_nil. apply andb_true_r. Qed.

(** Searching for a one-character string is searching for the character. *)
Lemma includes_str1 c s : includes (str1 c) s = has_char c s.
Proof.
  induction s as [|a s IH]; [reflexivity|].
  cbn [includes has_char]. rewrite prefix_str1, IH. reflexivity.
Qed.

(** [split] on a one-character separator: a piece free of the separator
    runs up to the next occurrence, or to the end. *)
Lemma js_split_go_piece c piece : forall acc rest,
  has_char c piece = false ->
  js_split_go (str1 c) O acc (piece +:+ String c rest)
  = rev_string (pushed piece acc) :: js_split_go (str1 c) O [] rest.
Proof.
  induction piece as [|a piece IH]; intros acc rest Hfree.
  - cbn [String.append]. cbn [js_split_go]. rewrite prefix_str1, Ascii.eqb_refl.
    reflexivity.
  - cbn in Hfree. apply orb_false_elim in Hfree as [Ha Hp].
    cbn [String.append js_split_go]. rewrite prefix_str1, Ha.
    rewrite IH by exact Hp. rewrite pushed_cons. reflexivity.
Qed.

Lemma js_split_go_last c piece : forall acc,
  has_char c piece = false ->
  js_split_go (str1 c) O acc piece = [rev_string (pushed piece acc)].
Proof.
  induction piece as [|a piece IH]; intros acc Hfree.
  - reflexivity.
  - cbn in Hfree. apply orb_false_elim in Hfree as [Ha Hp].
    cbn [js_split_go]. rewrite prefix_str1, Ha.
    rewrite IH by exact Hp. rewrite pushed_cons. reflexivity.
Qed.

Lemma js_split_one c s : has_char c s = false -> js_split (str1 c) s = [s].
Proof.
  intros H. unfold js_split. cbn [str1].
  change (String c "") with (str1 c).
  rewrite js_split_go_last by exact H. rewrite rev_string_pushed. reflexivity.
Qed.

Lemma js_split_two c s1 s2 :
  has_char c s1 = false -> has_char c s2 = false ->
  js_split (str1 c) (s1 +:+ String c s2) = [s1; s2].
Proof.
  intros H1 H2. unfold js_split. cbn [str1].
  change (String c "") with (str1 c).
  rewrite js_split_go_piece by exact H1.
  rewrite js_split_go_last by exact H2.
  rewrite !rev_string_pushed. reflexivity.
Qed.

(* ===================================================================== *)
(** * Properties of [parseArgs] *)
(* ===================================================================== *)

Lemma parseArgs_run_app pre post :
  parseArgs_run (pre ++ post) = fold_left parseArgs_step post (parseArgs_run pre).
Proof. unfold parseArgs_run. apply fold_left_app. Qed.

Lemma js_set_lookup params key v :
  key <> "__proto__" -> js_set params key v !! key = Some v.
Proof.
  intros Hk. unfold js_set. apply String.eqb_neq in Hk. rewrite Hk.
  apply lookup_insert_eq.
Qed.

Lemma js_set_lookup_other params key v key' :
  key <> key' -> js_set params key v !! key' = params !! key'.
Proof.
  intros Hk. unfold js_set. destruct (String.eqb key "__proto__"); [reflexivity|].
  apply lookup_insert_ne. exact Hk.
Qed.

Lemma startsWith_dash2 tok : startsWith "-" tok = false -> startsWith "--" tok = false.
Proof.
  unfold startsWith. destruct tok as [|a tok]; [reflexivity|].
  rewrite !prefix_cons, prefix_nil, andb_true_r. intros ->. reflexivity.
Qed.

Lemma startsWith_long rest : startsWith "--" ("--" +:+ rest) = true.
Proof.
  unfold startsWith. cbn [String.append]. rewrite !prefix_cons, prefix_nil.
  reflexivity.
Qed.

Lemma startsWith_short rest : startsWith "-" ("-" +:+ rest) = true.
Proof.
  unfold startsWith. cbn [String.append]. rewrite prefix_cons, prefix_nil.
  reflexivity.
Qed.

Lemma step_long_value params cur key value :
  has_char "=" key = false -> has_char "=" value = false ->
  parseArgs_step (params, cur) ("--" +:+ key +:+ "=" +:+ value)
  = (js_set params key (AStr value), None).
Proof.
  intros Hk Hv. unfold parseArgs_step. rewrite startsWith_long.
  change (substring_from 2 ("--" +:+ key +:+ "=" +:+ value))
    with (key +:+ String "=" value).
  change "=" with (str1 "="). rewrite js_split_two by assumption. reflexivity.
Qed.

Lemma step_long_flag params cur key :
  has_char "=" key = false ->
  parseArgs_step (params, cur) ("--" +:+ key) = (js_set params key ATrue, Some key).
Proof.
  intros Hk. unfold parseArgs_step. rewrite startsWith_long.
  change (substring_from 2 ("--" +:+ key)) with key.
  change "=" with (str1 "="). rewrite js_split_one by assumption. reflexivity.
Qed.

Lemma step_short_flag params cur key :
  startsWith "-" key = false ->
  parseArgs_step (params, cur) ("-" +:+ key) = (js_set params key ATrue, Some key).
Proof.
  intros Hk. unfold parseArgs_step.
  assert (H2 : startsWith "--" ("-" +:+ key) = false).
  { unfold startsWith in *. cbn [String.append].
    destruct key as [|a key]; [reflexivity|].
    rewrite prefix_cons, Hk. apply andb_false_r. }
  rewrite H2, startsWith_short. reflexivity.
Qed.

Lemma step_value params key tok :
  key <> "" -> startsWith "-" tok = false ->
  parseArgs_step (params, Some key) tok = (js_set params key (AStr tok), None).
Proof.
  intros Hk Ht. unfold parseArgs_step.
  rewrite (startsWith_dash2 _ Ht), Ht.
  apply String.eqb_neq in Hk. rewrite Hk. reflexivity.
Qed.

(** A flag token writes the property of its own key only. *)
Lemma step_flag_other params cur tok key key' :
  flag_key tok = Some key' -> key' <> key ->
  fst (parseArgs_step (params, cur) tok) !! key = params !! key.
Proof.
  unfold flag_key, parseArgs_step. intros Hf Hne.
  destruct (startsWith "--" tok).
  - injection Hf as <-.
    destruct (1 <? Z.of_nat (length (js_split "=" (substring_from 2 tok))));
      cbn [fst]; apply js_set_lookup_other; exact Hne.
  - destruct (startsWith "-" tok); [|discriminate].
    injection Hf as <-. cbn [fst]. apply js_set_lookup_other; exact Hne.
Qed.

Example parseArgs_sample :
  parseArgs ["--a=1"; "--b"; "2"; "-c"]
  = <["a" := AStr "1"]> (<["b" := AStr "2"]> (<["c" := ATrue]> ∅)).
Proof. vm_compute. reflexivity. Qed.

Lemma step_flag params cur key flag :
  flag_of key flag ->
  parseArgs_step (params, cur) flag = (js_set params key ATrue, Some key).
Proof.
  intros [[-> Hk] | [-> Hk]].
  - apply step_long_flag. exact Hk.
  - apply step_short_flag. exact Hk.
Qed.

(** C8. The token [--a=b=c] binds the key to the text between the first and
    the second equals sign: [split] cuts the token at every equals sign and
    only the second piece is stored, so the rest of the value is lost. The
    same value given as a token of its own, after [--a], is stored whole. *)
Theorem parseArgs_value_cut :
  parseArgs ["--a=b=c"] = <["a" := AStr "b"]> ∅ /\
  parseArgs ["--a=b=c"] !! "a" <> Some (AStr "b=c") /\
  parseArgs ["--a"; "b=c"] !! "a" = Some (AStr "b=c").
Proof.
  split; [vm_compute; reflexivity|].
  split; [vm_compute; intros H; discriminate | vm_compute; reflexivity].
Qed.

(** A token that is no flag of [key], read while the parser does not wait
    for a value of [key] (or read as a flag), leaves the property of [key] as
    it is and does not make the parser wait for a value of [key]. *)
Lemma step_keeps key params cur tok :
  cur <> Some key \/ startsWith "-" tok = true ->
  flag_key tok <> Some key ->
  fst (parseArgs_step (params, cur) tok) !! key = params !! key /\
  snd (parseArgs_step (params, cur) tok) <> Some key.
Proof.
  unfold flag_key, parseArgs_step. intros Hcur Hf.
  destruct (startsWith "--" tok) eqn:H2.
  - assert (Hne : nth 0 (js_split "=" (substring_from 2 tok)) "" <> key)
      by (intros E; apply Hf; rewrite E; reflexivity).
    destruct (1 <? Z.of_nat (length (js_split "=" (substring_from 2 tok))));
      cbn [fst snd]; (split; [apply js_set_lookup_other; exact Hne|]).
    + discriminate.
    + intros E. injection E as E. exact (Hne E).
  - destruct (startsWith "-" tok) eqn:H1.
    + assert (Hne : substring_from 1 tok <> key)
        by (intros E; apply Hf; rewrite E; reflexivity).
      cbn [fst snd]. split; [apply js_set_lookup_other; exact Hne|].
      intros E. injection E as E. exact (Hne E).
    + destruct Hcur as [Hcur | Hcur]; [|discriminate].
      destruct cur as [k|]; [|split; [reflexivity | exact Hcur]].
      destruct (String.eqb k ""); [split; [reflexivity | exact Hcur]|].
      cbn [fst snd]. split; [|discriminate].
      apply js_set_lookup_other. intros E. apply Hcur. rewrite E. reflexivity.
Qed.

(** The same over the rest of the argument vector. *)
Lemma fold_keeps key post : forall params cur,
  cur <> Some key ->
  Forall (fun t => flag_key t <> Some key) post ->
  fst (fold_left parseArgs_step post (params, cur)) !! key = params !! key.
Proof.
  induction post as [|tok post IH]; intros params cur Hcur Hpost; [reflexivity|].
  inversion Hpost as [|? ? Htok Hrest]; subst.
  cbn [fold_left].
  destruct (step_keeps key params cur tok (or_introl Hcur) Htok) as [Hl Hs].
  destruct (parseArgs_step (params, cur) tok) as [params' cur'].
  cbn [fst snd] in Hl, Hs. rewrite (IH params' cur' Hs Hrest). exact Hl.
Qed.

(** A flag waiting for its value keeps [true] when the vector ends or goes
    on with another flag. *)
Lemma fold_keeps_waiting key post params :
  Forall (fun t => flag_key t <> Some key) post ->
  post = [] \/ (exists next rest, post = next :: rest /\ startsWith "-" next = true) ->
  fst (fold_left parseArgs_step post (params, Some key)) !! key = params !! key.
Proof.
  intros Hpost [-> | (next & rest & -> & Hnext)]; [reflexivity|].
  inversion Hpost as [|? ? Htok Hrest]; subst.
  cbn [fold_left].
  destruct (step_keeps key params (Some key) next (or_intror Hnext) Htok) as [Hl Hs].
  destruct (parseArgs_step (params, Some key) next) as [params' cur'].
  cbn [fst snd] in Hl, Hs. rewrite (fold_keeps key rest params' cur' Hs Hrest).
  exact Hl.
Qed.

(** X26. What a token binds in the object [parseArgs] returns, when no later
    token of the vector is a flag of the same key: a [--key=value] token
    whose value holds no equals sign binds key to value; a [--key] or [-k]
    token with a non-empty key, followed by a token that does not start with
    a dash, binds key to that token; a [--key] or [-k] token that ends the
    vector or is followed by a flag token binds its key to [true]. Keys are
    other than [__proto__]. *)
Theorem parseArgs_final_bindings :
  (forall pre post key value,
      key <> "__proto__" -> has_char "=" key = false -> has_char "=" value = false ->
      Forall (fun t => flag_key t <> Some key) post ->
      parseArgs (pre ++ ["--" +:+ key +:+ "=" +:+ value] ++ post) !! key
      = Some (AStr value)) /\
  (forall pre post key flag tok,
      flag_of key flag -> key <> "" -> key <> "__proto__" ->
      startsWith "-" tok = false ->
      Forall (fun t => flag_key t <> Some key) post ->
      parseArgs (pre ++ [flag; tok] ++ post) !! key = Some (AStr tok)) /\
  (forall pre post key flag,
      flag_of key flag -> key <> "__proto__" ->
      Forall (fun t => flag_key t <> Some key) post ->
      post = [] \/ (exists next rest, post = next :: rest /\ startsWith "-" next = true) ->
      parseArgs (pre ++ [flag] ++ post) !! key = Some ATrue).
Proof.
  split; [|split].
  - intros pre post key value Hp Hk Hv Hpost. unfold parseArgs.
    rewrite parseArgs_run_app. destruct (parseArgs_run pre) as [params cur].
    cbn [app fold_left]. rewrite step_long_value by assumption.
    rewrite fold_keeps by (assumption || discriminate).
    apply js_set_lookup. exact Hp.
  - intros pre post key flag tok Hf Hne Hp Ht Hpost. unfold parseArgs.
    rewrite parseArgs_run_app. destruct (parseArgs_run pre) as [params cur].
    cbn [app fold_left]. rewrite (step_flag _ _ key flag Hf).
    rewrite step_value by assumption.
    rewrite fold_keeps by (assumption || discriminate).
    apply js_set_lookup. exact Hp.
  - intros pre post key flag Hf Hp Hpost Hnext. unfold parseArgs.
    rewrite parseArgs_run_app. destruct (parseArgs_run pre) as [params cur].
    cbn [app fold_left]. rewrite (step_flag _ _ key flag Hf).
    rewrite fold_keeps_waiting by assumption.
    apply js_set_lookup. exact Hp.
Qed.

Lemma parseArgs_final_bindings_witness :
  parseArgs (["query"] ++ ["--" +:+ "out" +:+ "=" +:+ "rows.csv"] ++ ["-v"; "--db"; "sales"])
  !! "out" = Some (AStr "rows.csv") /\
  parseArgs (["query"] ++ ["--db"; "sales"] ++ ["-v"; "--out=rows.csv"])
  !! "db" = Some (AStr "sales") /\
  parseArgs (["query"] ++ ["-v"] ++ ["--db"; "sales"]) !! "v" = Some ATrue.
Proof.
  destruct parseArgs_final_bindings as (Hvalue & Hnext & Halone).
  split; [|split].
  - apply (Hvalue ["query"] ["-v"; "--db"; "sales"] "out" "rows.csv").
    + intros H. discriminate.
    + reflexivity.
    + reflexivity.
    + repeat constructor; vm_compute; intros H; discriminate.
  - apply (Hnext ["query"] ["-v"; "--out=rows.csv"] "db" "--db" "sales").
    + left. split; reflexivity.
    + intros H. discriminate.
    + intros H. discriminate.
    + reflexivity.
    + repeat constructor; vm_compute; intros H; discriminate.
  - apply (Halone ["query"] ["--db"; "sales"] "v" "-v").
    + right. split; reflexivity.
    + intros H. discriminate.
    + repeat constructor; vm_compute; intros H; discriminate.
    + right. exists "--db", ["sales"]. split; reflexivity.
Defined.

(* ===================================================================== *)
(** * The rounding of the fixed notation *)
(* ===================================================================== *)


(* ===================================================================== *)
(** * Properties of the CSV helpers *)
(* ===================================================================== *)

Section RoundTrip.
Variable d : ascii.
Hypothesis d_not_quote : d <> DQUOTE.
Hypothesis d_not_lf : d <> LF.

Lemma terminator_not_quote t : terminator d t -> Ascii.eqb t DQUOTE = false.
Proof.
  intros [-> | ->]; apply ascii_eqb_false; [exact d_not_quote | discriminate].
Qed.

(** In plain mode a terminator closes the cell. *)
Lemma plain_terminator t rows cells cur rest :
  terminator d t ->
  (if Ascii.eqb t d then ref_split_go d rows (close_cell cells cur) [] FieldStart rest
   else if Ascii.eqb t LF
        then ref_split_go d (rev (close_cell cells cur) :: rows) [] [] FieldStart rest
        else ref_split_go d rows cells (t :: cur) InPlain rest)
  = after_terminator d t rows cells cur rest.
Proof.
  intros [-> | ->]; unfold after_terminator.
  - rewrite Ascii.eqb_refl. reflexivity.
  - rewrite (ascii_eqb_false LF d) by congruence. reflexivity.
Qed.

Lemma plain_run rows cells rest t (Ht : terminator d t) cell : forall cur,
  has_char d cell = false -> has_char LF cell = false ->
  ref_split_go d rows cells cur InPlain (cell +:+ String t rest)
  = after_terminator d t rows cells (pushed cell cur) rest.
Proof.
  induction cell as [|a cell IH]; intros cur Hd Hl.
  - cbn [String.append ref_split_go]. apply plain_terminator. exact Ht.
  - cbn in Hd, Hl.
    apply orb_false_elim in Hd as [Had Hd]. apply orb_false_elim in Hl as [Hal Hl].
    cbn [String.append ref_split_go]. rewrite Had, Hal.
    rewrite IH by assumption. rewrite pushed_cons. reflexivity.
Qed.

(** A cell written as it is, read from the start of a field. *)
Lemma plain_cell rows cells rest t (Ht : terminator d t) cell :
  plain_text d cell = true ->
  ref_split_go d rows cells [] FieldStart (cell +:+ String t rest)
  = after_terminator d t rows cells (pushed cell []) rest.
Proof.
  unfold plain_text. intros H.
  apply andb_prop in H as [H Hl]. apply andb_prop in H as [Hd Hq].
  apply negb_true_iff in Hd, Hq, Hl.
  destruct cell as [|a cell].
  - cbn [String.append ref_split_go]. rewrite (terminator_not_quote t Ht).
    apply plain_terminator. exact Ht.
  - cbn in Hd, Hq, Hl.
    apply orb_false_elim in Hd as [Had Hd]. apply orb_false_elim in Hq as [Haq Hq].
    apply orb_false_elim in Hl as [Hal Hl].
    cbn [String.append ref_split_go]. rewrite Haq, Had, Hal.
    rewrite plain_run by assumption. rewrite pushed_cons. reflexivity.
Qed.

(** The inside of a quoted cell, up to and including the closing quote and
    the terminator. *)
Lemma quoted_run rows cells rest t (Ht : terminator d t) cell : forall cur,
  ref_split_go d rows cells cur InQuoted
    (double_quotes cell +:+ String DQUOTE (String t rest))
  = after_terminator d t rows cells (pushed cell cur) rest.
Proof.
  induction cell as [|a cell IH]; intros cur.
  - cbn [double_quotes String.append ref_split_go].
    rewrite Ascii.eqb_refl. cbn [ref_split_go].
    rewrite (terminator_not_quote t Ht). apply plain_terminator. exact Ht.
  - cbn [double_quotes]. destruct (Ascii.eqb a DQUOTE) eqn:Ha.
    + apply Ascii.eqb_eq in Ha. subst a.
      cbn [String.append ref_split_go]. rewrite !Ascii.eqb_refl.
      rewrite IH. rewrite pushed_cons. reflexivity.
    + cbn [String.append ref_split_go]. rewrite Ha.
      rewrite IH. rewrite pushed_cons. reflexivity.
Qed.

Lemma csv_escape_plain cell :
  plain_text d cell = true -> csv_escape (str1 d) cell = cell.
Proof.
  unfold csv_escape, plain_text. rewrite !includes_str1. intros H.
  apply andb_prop in H as [H Hl]. apply andb_prop in H as [Hd Hq].
  apply negb_true_iff in Hd, Hq, Hl. rewrite Hd, Hq, Hl. reflexivity.
Qed.

Lemma csv_escape_quoted cell :
  plain_text d cell = false ->
  csv_escape (str1 d) cell = String DQUOTE (double_quotes cell +:+ str1 DQUOTE).
Proof.
  unfold csv_escape, plain_text. rewrite !includes_str1. intros H.
  destruct (has_char d cell), (has_char DQUOTE cell), (has_char LF cell);
    try discriminate; reflexivity.
Qed.

(** Any cell, as [exportToCSV] writes it, is read back whole. *)
Lemma escaped_cell rows cells rest t (Ht : terminator d t) cell :
  ref_split_go d rows cells [] FieldStart (csv_escape (str1 d) cell +:+ String t rest)
  = after_terminator d t rows cells (pushed cell []) rest.
Proof.
  destruct (plain_text d cell) eqn:Hp.
  - rewrite csv_escape_plain by exact Hp. apply plain_cell; assumption.
  - rewrite csv_escape_quoted by exact Hp.
    cbn [String.append ref_split_go]. rewrite Ascii.eqb_refl.
    unfold str1. rewrite append_assoc. cbn [String.append].
    apply quoted_run. exact Ht.
Qed.

(** A line of at least one cell is read back as one record. *)
Lemma escaped_line rows rest cs : forall c cells,
  ref_split_go d rows cells [] FieldStart
    (js_join (str1 d) (map (csv_escape (str1 d)) (c :: cs)) +:+ String LF rest)
  = ref_split_go d (rev (rev (c :: cs) ++ cells) :: rows) [] [] FieldStart rest.
Proof.
  induction cs as [|c2 cs IH]; intros c cells.
  - cbn [map js_join String.concat].
    rewrite escaped_cell by (right; reflexivity).
    unfold after_terminator. rewrite (ascii_eqb_false LF d) by congruence.
    unfold close_cell. rewrite rev_string_pushed. reflexivity.
  - change (js_join (str1 d) (map (csv_escape (str1 d)) (c :: c2 :: cs)))
      with (csv_escape (str1 d) c +:+ str1 d
            +:+ js_join (str1 d) (map (csv_escape (str1 d)) (c2 :: cs))).
    rewrite !append_assoc. unfold str1 at 2. cbn [String.append].
    rewrite escaped_cell by (left; reflexivity).
    unfold after_terminator. rewrite Ascii.eqb_refl.
    unfold close_cell. rewrite rev_string_pushed. rewrite IH.
    cbn [rev]. rewrite <- !app_assoc. reflexivity.
Qed.

(** A file of such lines is read back as the list of its records. *)
Lemma escaped_lines lines : forall rows,
  Forall (fun cs => cs <> []) lines ->
  ref_split_go d rows [] [] FieldStart
    (unlines (map (fun cs => js_join (str1 d) (map (csv_escape (str1 d)) cs) +:+ str1 LF)
                  lines))
  = rev rows ++ lines.
Proof.
  induction lines as [|cs lines IH]; intros rows Hne.
  - cbn. rewrite app_nil_r. reflexivity.
  - inversion Hne as [|? ? Hcs Hrest]; subst.
    destruct cs as [|c cs]; [congruence|].
    set (line := fun cs : list string =>
                   js_join (str1 d) (map (csv_escape (str1 d)) cs) +:+ str1 LF) in *.
    rewrite map_cons.
    change (unlines (line (c :: cs) :: map line lines))
      with (line (c :: cs) +:+ unlines (map line lines)).
    unfold line at 1. rewrite append_assoc.
    change (str1 LF +:+ unlines (map line lines))
      with (String LF (unlines (map line lines))).
    rewrite escaped_line. rewrite IH by exact Hrest.
    rewrite app_nil_r, rev_involutive.
    change (rev ((c :: cs) :: rows)) with (rev rows ++ [c :: cs]).
    rewrite <- app_assoc. reflexivity.
Qed.
End RoundTrip.

Lemma fold_left_lines (f : record -> string) data : forall init,
  fold_left (fun acc item => acc +:+ f item) data init = init +:+ unlines (map f data).
Proof.
  induction data as [|item data IH]; intros init; cbn [fold_left map].
  - cbn. rewrite append_nil_r. reflexivity.
  - rewrite IH. cbn [unlines fold_right]. apply append_assoc.
Qed.

(** The export is the header line followed by one line for each row. *)
Lemma exportToCSV_lines first rest delimiter :
  exportToCSV (first :: rest) delimiter
  = (js_join delimiter (Object_keys first) +:+ str1 LF)
    +:+ unlines
          (map (fun cs => js_join delimiter (map (csv_escape delimiter) cs) +:+ str1 LF)
               (map (fun item => map (csv_raw item) (Object_keys first)) (first :: rest))).
Proof.
  unfold exportToCSV.
  rewrite (fold_left_lines
             (fun item => js_join delimiter (map (csv_cell delimiter item) (Object_keys first))
                          +:+ str1 LF)).
  f_equal. rewrite map_map. f_equal. apply map_ext. intros item.
  rewrite map_map. reflexivity.
Qed.

Lemma escape_plain_headers d headers :
  Forall (fun h => plain_text d h = true) headers ->
  map (csv_escape (str1 d)) headers = headers.
Proof.
  induction 1 as [|h headers Hh _ IH]; [reflexivity|].
  cbn [map]. rewrite csv_escape_plain by exact Hh. rewrite IH. reflexivity.
Qed.

(** The text of a kept value survives [item[header] || ''] and the guard
    after it. *)
Lemma csv_raw_kept item header :
  kept_value (js_get item header) = true ->
  csv_raw item header = cell_text (js_get item header).
Proof.
  unfold csv_raw, js_or. destruct (js_get item header) as [| |[|]|n|s]; cbn;
    try reflexivity; try discriminate.
  - intros Hn. rewrite Hn. reflexivity.
  - intros _. destruct (String.eqb s "") eqn:Hs; [|reflexivity].
    apply String.eqb_eq in Hs. subst s. reflexivity.
Qed.

(** Splitting the export gives the header record and, for every row, its
    cells as [exportToCSV] turned them into strings. *)
Lemma exportToCSV_split d first rest :
  d <> DQUOTE -> d <> LF ->
  Object_keys first <> [] ->
  Forall (fun h => plain_text d h = true) (Object_keys first) ->
  ref_split_csv d (exportToCSV (first :: rest) (str1 d))
  = Object_keys first
    :: map (fun item => map (csv_raw item) (Object_keys first)) (first :: rest).
Proof.
  intros Hq Hl Hne Hplain. rewrite exportToCSV_lines.
  set (line := fun cs => js_join (str1 d) (map (csv_escape (str1 d)) cs) +:+ str1 LF).
  set (body := map (fun item => map (csv_raw item) (Object_keys first)) (first :: rest)).
  replace (js_join (str1 d) (Object_keys first) +:+ str1 LF)
    with (line (Object_keys first))
    by (unfold line; rewrite (escape_plain_headers d _ Hplain); reflexivity).
  change (line (Object_keys first) +:+ unlines (map line body))
    with (unlines (map line (Object_keys first :: body))).
  unfold ref_split_csv, line. rewrite (escaped_lines d Hq Hl); [reflexivity|].
  constructor; [exact Hne|]. unfold body. apply Forall_map. apply Forall_forall.
  intros item _ Hnil. apply Hne.
  destruct (Object_keys first); [reflexivity | discriminate].
Qed.

(** C1. At a row whose cell is the number zero the export writes an empty
    cell: [item[header] || ''] replaces every falsy value, the number zero
    and [false] among them, before the guard for [null] and [undefined] is
    reached. Split again, the text gives an empty string where the original
    cell value is the text of the number or of the boolean. The text
    [exportToFile] builds for the same row holds the zero. *)
Theorem exportToCSV_zero_cell :
  exportToCSV [[("n", JNum 0)]] "," = "n" +:+ String LF (str1 LF) /\
  ref_split_csv "," (exportToCSV [[("n", JNum 0)]] ",") = [["n"]; [""]] /\
  ref_split_csv "," (exportToCSV [[("n", JNum 0)]] ",") <> [["n"]; [js_String (JNum 0)]] /\
  ref_split_csv "," (exportToCSV [[("n", JBool false)]] ",") = [["n"]; [""]] /\
  export_content [[("n", JNum 0)]] {| includeHeader := true; separator := None |}
  = "n" +:+ String LF ("0" +:+ str1 LF).
Proof.
  split; [vm_compute; reflexivity|].
  split; [vm_compute; reflexivity|].
  split; [vm_compute; intros H; discriminate|].
  split; vm_compute; reflexivity.
Qed.

(** X25. The round trip of [exportToCSV] through the reference splitter. For
    a delimiter of one ASCII character other than the double quote and the
    line feed, and a non-empty sequence of rows whose first row has at least one
    key, no key holding the delimiter, a quote or a line feed, every row
    holding all the keys of the first and no cell under those keys being the
    number zero or [false]: the reference splitter applied to
    [exportToCSV(data, delimiter)] yields the record of the first row's keys
    followed, for every row, by the text of its cells under those keys (the
    string conversion of the value, the empty string for [null] and
    [undefined]), whatever delimiters, quotes and line feeds the cells
    hold. *)
Theorem exportToCSV_roundtrip d first rest :
  d <> DQUOTE -> d <> LF ->
  Object_keys first <> [] ->
  Forall (fun h => plain_text d h = true) (Object_keys first) ->
  Forall (fun item => Forall (fun h => In h (Object_keys item)) (Object_keys first))
         rest ->
  Forall (fun item =>
            Forall (fun h => kept_value (js_get item h) = true) (Object_keys first))
         (first :: rest) ->
  ref_split_csv d (exportToCSV (first :: rest) (str1 d))
  = Object_keys first
    :: map (fun item => map (fun h => cell_text (js_get item h)) (Object_keys first))
           (first :: rest).
Proof.
  intros Hq Hl Hne Hplain _ Hkept.
  rewrite exportToCSV_split by assumption. f_equal.
  apply map_ext_in. intros item Hin.
  rewrite List.Forall_forall in Hkept. specialize (Hkept item Hin).
  apply map_ext_in. intros h Hh.
  rewrite List.Forall_forall in Hkept. apply csv_raw_kept. apply Hkept. exact Hh.
Qed.

Lemma exportToCSV_roundtrip_witness :
  ref_split_csv "," (exportToCSV sample_rows ",")
  = [ ["name"; "note"; "age"];
      ["Doe, Jane";
       "say " +:+ String DQUOTE ("hi" +:+ String DQUOTE (String LF "there"));
       "42"];
      [""; ""; "-7"] ].
Proof.
  apply (exportToCSV_roundtrip ","
           [("name", JStr "Doe, Jane");
            ("note", JStr ("say " +:+ String DQUOTE ("hi" +:+ String DQUOTE (String LF "there"))));
            ("age", JNum 42)]
           [[("name", JNull); ("note", JStr ""); ("age", JNum (-7))]]).
  - intros H. discriminate.
  - intros H. discriminate.
  - intros H. discriminate.
  - repeat constructor.
  - repeat match goal with |- Forall _ _ => constructor end; cbn; auto 10.
  - repeat constructor.
Defined.

(** C2. [parseCSV] on what [exportToCSV] writes for one row with the cell
    [x,y]: the quoted cell comes back cut in two at its comma, the quotes
    still on the halves, and the final line feed gives a record of its own. *)
Theorem parseCSV_cuts_quoted_cell :
  exportToCSV [[("a", JStr "x,y")]] ","
  = "a" +:+ String LF (String DQUOTE ("x,y" +:+ String DQUOTE (str1 LF))) /\
  parseCSV (exportToCSV [[("a", JStr "x,y")]] ",") ","
  = [["a"]; [String DQUOTE "x"; "y" +:+ str1 DQUOTE]; [""]].
Proof. split; vm_compute; reflexivity. Qed.

(* ===================================================================== *)
(** * Splitting and joining *)
(* ===================================================================== *)

Lemma string_of_list_ascii_app l1 l2 :
  string_of_list_ascii (l1 ++ l2) = string_of_list_ascii l1 +:+ string_of_list_ascii l2.
Proof. induction l1 as [|a l1 IH]; cbn; [reflexivity | rewrite IH; reflexivity]. Qed.

Lemma rev_string_cons c acc : rev_string (c :: acc) = rev_string acc +:+ str1 c.
Proof. unfold rev_string. cbn [rev]. apply string_of_list_ascii_app. Qed.

Lemma substring_from_nil k : substring_from k "" = "".
Proof. destruct k; reflexivity. Qed.

(** A prefix can be taken off the front. *)
Lemma prefix_split p : forall s,
  String.prefix p s = true -> s = p +:+ substring_from (String.length p) s.
Proof.
  induction p as [|a p IH]; intros s H; [reflexivity|].
  destruct s as [|b s]; [discriminate|].
  rewrite prefix_cons in H. apply andb_prop in H as [Hab Hp].
  apply Ascii.eqb_eq in Hab. subst b.
  cbn [String.length substring_from String.append]. f_equal. apply IH. exact Hp.
Qed.

Lemma js_split_go_nonempty sep s : forall k acc, js_split_go sep k acc s <> [].
Proof.
  induction s as [|c s IH]; intros k acc; cbn [js_split_go]; [discriminate|].
  destruct k as [|k]; [|apply IH].
  destruct (String.prefix sep (String c s)); [discriminate | apply IH].
Qed.

Lemma js_join_cons sep x l :
  l <> [] -> js_join sep (x :: l) = x +:+ sep +:+ js_join sep l.
Proof. intros H. destruct l; [congruence | reflexivity]. Qed.

(** Joining what [split] gave restores the text that was split. *)
Lemma js_join_split_go sep :
  sep <> "" ->
  forall s k acc,
    js_join sep (js_split_go sep k acc s) = rev_string acc +:+ substring_from k s.
Proof.
  intros Hsep. induction s as [|c s IH]; intros k acc.
  - cbn [js_split_go]. rewrite substring_from_nil, append_nil_r. reflexivity.
  - cbn [js_split_go]. destruct k as [|k]; [|rewrite IH; reflexivity].
    destruct (String.prefix sep (String c s)) eqn:Hp.
    + rewrite js_join_cons by apply js_split_go_nonempty. rewrite IH.
      apply prefix_split in Hp. destruct sep as [|a sep]; [congruence|].
      cbn [String.length substring_from] in Hp.
      cbn [String.length]. replace (S (String.length sep) - 1)%nat
        with (String.length sep) by lia.
      cbn [substring_from]. rewrite Hp.
      change (rev_string []) with "". reflexivity.
    + rewrite IH. cbn [substring_from]. rewrite rev_string_cons, append_assoc.
      reflexivity.
Qed.

Lemma js_join_chars s : js_join "" (map str1 (list_ascii_of_string s)) = s.
Proof.
  induction s as [|c s IH]; [reflexivity|].
  cbn [list_ascii_of_string map]. destruct s as [|c' s]; [reflexivity|].
  rewrite js_join_cons by discriminate. rewrite IH. reflexivity.
Qed.

Lemma js_join_split sep s : js_join sep (js_split sep s) = s.
Proof.
  unfold js_split. destruct sep as [|a sep]; [apply js_join_chars|].
  rewrite js_join_split_go by discriminate. reflexivity.
Qed.

(** X1. [parseCSV] keeps all of its input: joining the cells of every
    record with the delimiter and the records with line feeds gives the text
    back, for any text and any delimiter. *)
Theorem parseCSV_join csvString delimiter :
  js_join (str1 LF) (map (js_join delimiter) (parseCSV csvString delimiter)) = csvString.
Proof.
  unfold parseCSV. rewrite map_map.
  rewrite (map_ext _ (fun line => line)) by (intros line; apply js_join_split).
  rewrite map_id. apply js_join_split.
Qed.

Lemma js_split_go_count c s : forall acc,
  length (js_split_go (str1 c) O acc s) = S (count_char c s).
Proof.
  induction s as [|a s IH]; intros acc; [reflexivity|].
  cbn [js_split_go count_char]. rewrite prefix_str1.
  destruct (Ascii.eqb a c); cbn [length]; rewrite IH; reflexivity.
Qed.

(** X2. [parseCSV] returns one record more than the text has line feeds, a
    single record for the empty text included, and with a non-empty
    delimiter every record has at least one cell. *)
Theorem parseCSV_records csvString delimiter :
  length (parseCSV csvString delimiter) = S (count_char LF csvString) /\
  (delimiter <> "" -> Forall (fun cells => cells <> []) (parseCSV csvString delimiter)).
Proof.
  unfold parseCSV. split.
  - rewrite length_map. unfold js_split. cbn [str1]. apply js_split_go_count.
  - intros Hd. apply Forall_map. apply Forall_forall. intros line _.
    unfold js_split. destruct delimiter as [|a d]; [congruence|].
    apply js_split_go_nonempty.
Qed.

Lemma parseCSV_records_witness :
  Forall (fun cells => cells <> []) (parseCSV ("a,b" +:+ str1 LF) ",").
Proof.
  apply (proj2 (parseCSV_records ("a,b" +:+ str1 LF) ",")).
  intros H. discriminate.
Defined.

Lemma has_char_join c sep cells :
  has_char c sep = false ->
  Forall (fun cell => has_char c cell = false) cells ->
  has_char c (js_join sep cells) = false.
Proof.
  intros Hsep. induction 1 as [|cell cells Hc Hcs IH]; [reflexivity|].
  destruct cells as [|cell2 cells]; [exact Hc|].
  rewrite js_join_cons by discriminate.
  rewrite !has_char_append, Hc, Hsep, IH. reflexivity.
Qed.

(** Cells free of the separator come back from their joined line. *)
Lemma js_split_go_join d cells : forall cell acc,
  Forall (fun cell => has_char d cell = false) (cell :: cells) ->
  js_split_go (str1 d) O acc (js_join (str1 d) (cell :: cells))
  = rev_string (pushed cell acc) :: cells.
Proof.
  induction cells as [|cell2 cells IH]; intros cell acc Hfree.
  - inversion Hfree; subst. cbn [js_join String.concat].
    apply js_split_go_last. assumption.
  - inversion Hfree as [|? ? Hc Hrest]; subst.
    rewrite js_join_cons by discriminate. unfold str1 at 2. cbn [String.append].
    rewrite js_split_go_piece by exact Hc. rewrite IH by exact Hrest.
    rewrite rev_string_pushed. reflexivity.
Qed.

Lemma js_split_join d cells :
  cells <> [] ->
  Forall (fun cell => has_char d cell = false) cells ->
  js_split (str1 d) (js_join (str1 d) cells) = cells.
Proof.
  intros Hne Hfree. destruct cells as [|cell cells]; [congruence|].
  unfold js_split. cbn [str1]. change (String d "") with (str1 d).
  rewrite js_split_go_join by exact Hfree. rewrite rev_string_pushed. reflexivity.
Qed.

(** Lines free of line feeds, each ended by one, come back followed by the
    empty rest after the last line feed. *)
Lemma js_split_unlines lines :
  Forall (fun line => has_char LF line = false) lines ->
  js_split (str1 LF) (unlines (map (fun line => line +:+ str1 LF) lines))
  = lines ++ [""].
Proof.
  unfold js_split. cbn [str1]. change (String LF "") with (str1 LF).
  induction 1 as [|line lines Hl _ IH]; [reflexivity|].
  cbn [map unlines fold_right].
  fold (unlines (map (fun line => line +:+ str1 LF) lines)).
  rewrite append_assoc. unfold str1 at 2. cbn [String.append].
  rewrite js_split_go_piece by exact Hl. rewrite rev_string_pushed, IH. reflexivity.
Qed.

(** Reading back with [parseCSV] a text of joined lines. *)
Lemma parseCSV_unlines d records :
  d <> LF ->
  Forall (fun cells => cells <> [] /\
                       Forall (fun cell => has_char d cell = false /\
                                           has_char LF cell = false) cells) records ->
  parseCSV (unlines (map (fun cells => js_join (str1 d) cells +:+ str1 LF) records)) (str1 d)
  = records ++ [[""]].
Proof.
  intros Hd Hrec. unfold parseCSV.
  rewrite <- (map_map (js_join (str1 d)) (fun line => line +:+ str1 LF)).
  rewrite js_split_unlines.
  - rewrite map_app, map_map. cbn [map]. f_equal.
    rewrite <- (map_id records) at 2. apply map_ext_in. intros cells Hin.
    rewrite List.Forall_forall in Hrec. destruct (Hrec cells Hin) as [Hne Hcells].
    apply js_split_join; [exact Hne|].
    eapply Forall_impl; [exact Hcells|]. intros cell [H _]. exact H.
  - apply Forall_map. eapply Forall_impl; [exact Hrec|].
    intros cells [_ Hcells]. apply has_char_join.
    + cbn. rewrite (ascii_eqb_false d LF) by exact Hd. reflexivity.
    + eapply Forall_impl; [exact Hcells|]. intros cell [_ H]. exact H.
Qed.




(** X4. The columns of the export are the keys of the first row: two data
    sets with the same first row whose later rows agree under those keys
    give the same text, whatever other keys the later rows have. *)
Theorem exportToCSV_first_row_keys first rest rest' delimiter :
  Forall2 (fun item item' =>
             forall h, In h (Object_keys first) -> js_get item h = js_get item' h)
          rest rest' ->
  exportToCSV (first :: rest) delimiter = exportToCSV (first :: rest') delimiter.
Proof.
  intros Hagree. rewrite !exportToCSV_lines.
  assert (Hrows : map (fun item => map (csv_raw item) (Object_keys first)) rest
                  = map (fun item => map (csv_raw item) (Object_keys first)) rest').
  { induction Hagree as [|item item' rest rest' Hitem _ IH]; [reflexivity|].
    cbn [map]. rewrite IH. f_equal.
    apply map_ext_in. intros h Hh. unfold csv_raw. rewrite (Hitem h Hh). reflexivity. }
  cbn [map]. rewrite Hrows. reflexivity.
Qed.

Lemma exportToCSV_first_row_keys_witness :
  exportToCSV [[("a", JStr "1")]; [("a", JStr "2")]] ","
  = exportToCSV [[("a", JStr "1")]; [("b", JStr "x"); ("a", JStr "2")]] ",".
Proof.
  apply (exportToCSV_first_row_keys [("a", JStr "1")]
           [[("a", JStr "2")]] [[("b", JStr "x"); ("a", JStr "2")]] ",").
  constructor; [|constructor].
  intros h [<- | []]. reflexivity.
Defined.

(* ===================================================================== *)
(** * More on [parseArgs] *)
(* ===================================================================== *)

Lemma step_plain_idle params tok :
  startsWith "-" tok = false -> parseArgs_step (params, None) tok = (params, None).
Proof.
  intros Ht. unfold parseArgs_step. rewrite (startsWith_dash2 _ Ht), Ht. reflexivity.
Qed.

(** After a token that is no flag the parser waits for no value. *)
Lemma step_plain_key st tok :
  startsWith "-" tok = false ->
  snd (parseArgs_step st tok) = None \/ snd (parseArgs_step st tok) = Some "".
Proof.
  intros Ht. destruct st as [params [key|]]; unfold parseArgs_step;
    rewrite (startsWith_dash2 _ Ht), Ht; [|left; reflexivity].
  destruct (String.eqb key "") eqn:Hk; [|left; reflexivity].
  apply String.eqb_eq in Hk. subst key. right. reflexivity.
Qed.

Lemma step_plain_skipped st tok :
  startsWith "-" tok = false ->
  snd st = None \/ snd st = Some "" ->
  parseArgs_step st tok = st.
Proof.
  intros Ht Hk. destruct st as [params cur]. cbn [snd] in Hk.
  unfold parseArgs_step. rewrite (startsWith_dash2 _ Ht), Ht.
  destruct Hk as [-> | ->]; reflexivity.
Qed.

(** X5. Tokens ahead of the first flag are ignored: an argument vector
    gives the same object with or without leading tokens that do not start
    with a dash, and the empty object when it has no flag at all. *)
Theorem parseArgs_leading_positionals positionals args :
  Forall (fun tok => startsWith "-" tok = false) positionals ->
  parseArgs (positionals ++ args) = parseArgs args /\
  parseArgs positionals = ∅.
Proof.
  intros Hpos.
  assert (Hrun : parseArgs_run positionals = (∅, None)).
  { unfold parseArgs_run. generalize (∅ : gmap string argval).
    induction Hpos as [|tok positionals Ht _ IH]; intros params; [reflexivity|].
    cbn [fold_left]. rewrite step_plain_idle by exact Ht. apply IH. }
  split.
  - unfold parseArgs. rewrite parseArgs_run_app, Hrun. reflexivity.
  - unfold parseArgs. rewrite Hrun. reflexivity.
Qed.

Lemma parseArgs_leading_positionals_witness :
  parseArgs (["query"; "run.sql"] ++ ["--fast"]) = parseArgs ["--fast"] /\
  parseArgs ["query"; "run.sql"] = ∅.
Proof.
  apply (parseArgs_leading_positionals ["query"; "run.sql"] ["--fast"]).
  repeat constructor.
Defined.

Lemma js_set_is_Some params key v k :
  is_Some (js_set params key v !! k) -> k = key \/ is_Some (params !! k).
Proof.
  unfold js_set. destruct (String.eqb key "__proto__"); [right; assumption|].
  destruct (decide (key = k)) as [->|Hne]; [left; reflexivity|].
  rewrite lookup_insert_ne by exact Hne. right. assumption.
Qed.

(** X6. Every key of the parsed object is the key of a flag token of the
    vector: a value token never makes a key of its own. *)
Theorem parseArgs_keys_from_flags args k :
  is_Some (parseArgs args !! k) ->
  exists tok, In tok args /\ flag_key tok = Some k.
Proof.
  (* keys set and key waited for all come from flag tokens read so far *)
  assert (Hrun : forall args,
    (forall k, is_Some (fst (parseArgs_run args) !! k) ->
    exists tok, In tok args /\ flag_key tok = Some k) /\
    (forall k, snd (parseArgs_run args) = Some k ->
    exists tok, In tok args /\ flag_key tok = Some k)).
  { clear args k. intros args.
    induction args as [|tok args [IHp IHc]] using rev_ind.
    - split; intros k H; cbn in H; [|discriminate].
      rewrite lookup_empty in H. destruct H as [? H]. discriminate.
    - assert (Hold : forall k, (exists t, In t args /\ flag_key t = Some k) ->
                               exists t, In t (args ++ [tok]) /\ flag_key t = Some k).
      { intros k [t [Hin Hf]]. exists t. split; [apply in_or_app; left; exact Hin | exact Hf]. }
      assert (Hnew : forall k, flag_key tok = Some k ->
                               exists t, In t (args ++ [tok]) /\ flag_key t = Some k).
      { intros k Hf. exists tok. split; [apply in_or_app; right; left; reflexivity | exact Hf]. }
      rewrite parseArgs_run_app. cbn [fold_left].
      destruct (parseArgs_run args) as [params cur]. cbn [fst snd] in IHp, IHc.
      unfold parseArgs_step. unfold flag_key in Hnew.
      destruct (startsWith "--" tok).
      + destruct (1 <? Z.of_nat (length (js_split "=" (substring_from 2 tok))));
          cbn [fst snd]; split; intros k H.
        * apply js_set_is_Some in H as [-> | H]; [apply Hnew; reflexivity | auto].
        * discriminate.
        * apply js_set_is_Some in H as [-> | H]; [apply Hnew; reflexivity | auto].
        * injection H as <-. apply Hnew. reflexivity.
      + destruct (startsWith "-" tok).
        * cbn [fst snd]. split; intros k H.
          -- apply js_set_is_Some in H as [-> | H]; [apply Hnew; reflexivity | auto].
          -- injection H as <-. apply Hnew. reflexivity.
        * destruct cur as [key|]; [|cbn [fst snd]; split; intros k H; auto].
          destruct (String.eqb key ""); cbn [fst snd]; split; intros k H; auto;
            try discriminate.
          apply js_set_is_Some in H as [-> | H]; auto. }
  intros H. apply (proj1 (Hrun args)). exact H.
Qed.

Lemma parseArgs_keys_from_flags_witness :
  exists tok, In tok ["--user"; "root"] /\ flag_key tok = Some "user".
Proof.
  apply (parseArgs_keys_from_flags ["--user"; "root"] "user").
  vm_compute. eexists. reflexivity.
Defined.

(** X7. Of tokens that do not start with a dash and follow one another,
    only the first can be taken as a value: dropping the second changes
    nothing. *)
Theorem parseArgs_second_value_ignored pre v w post :
  startsWith "-" v = false -> startsWith "-" w = false ->
  parseArgs (pre ++ v :: w :: post) = parseArgs (pre ++ v :: post).
Proof.
  intros Hv Hw. unfold parseArgs. rewrite !parseArgs_run_app. cbn [fold_left].
  rewrite (step_plain_skipped _ w Hw); [reflexivity|].
  apply step_plain_key. exact Hv.
Qed.

Lemma parseArgs_second_value_ignored_witness :
  parseArgs (["--db"] ++ "sales" :: "extra" :: ["-v"])
  = parseArgs (["--db"] ++ "sales" :: ["-v"]).
Proof.
  apply (parseArgs_second_value_ignored ["--db"] "sales" "extra" ["-v"]);
    reflexivity.
Defined.

(* ===================================================================== *)
(** * Properties of [progressBar] and [formatTable] *)
(* ===================================================================== *)

Lemma length_append (s1 s2 : string) :
  String.length (s1 +:+ s2) = (String.length s1 + String.length s2)%nat.
Proof. induction s1 as [|a s1 IH]; cbn; [reflexivity | rewrite IH; reflexivity]. Qed.

(** X9. [progressBar] raises a [RangeError] instead of returning a bar when
    the count runs so far past the total that the share of the width reaches
    [width + 1], or so far below zero that it reaches [-1]: a repeat count
    is negative then. *)
Theorem progressBar_out_of_range current total width :
  0 < total -> 0 <= width ->
  (width + 1) * total <= current * width \/ current * width <= - total ->
  exists msg, progressBar current total (Some width) = Throw (RangeError msg).
Proof.
  intros Ht Hw Hout.
  unfold progressBar. change (default 30 (Some width)) with width. cbv zeta.
  replace (total =? 0) with false by (symmetry; apply Z.eqb_neq; lia).
  unfold js_repeat. destruct Hout as [Hhigh | Hlow].
  - assert (Hk : width + 1 <= round_div (current * width) total).
    { unfold round_div. apply Z.div_le_lower_bound; nia. }
    replace (round_div (current * width) total <? 0) with false
      by (symmetry; apply Z.ltb_ge; lia).
    replace (width - round_div (current * width) total <? 0) with true
      by (symmetry; apply Z.ltb_lt; lia).
    eexists. reflexivity.
  - assert (Hk : round_div (current * width) total < 0).
    { unfold round_div. apply Z.div_lt_upper_bound; nia. }
    replace (round_div (current * width) total <? 0) with true
      by (symmetry; apply Z.ltb_lt; lia).
    eexists. reflexivity.
Qed.

Lemma progressBar_out_of_range_witness :
  exists msg, progressBar 5 2 (Some 30) = Throw (RangeError msg).
Proof. apply (progressBar_out_of_range 5 2 30); lia. Defined.

Lemma formatTable_rows_objects headers objects rest : forall tableData,
  formatTable_rows headers (map RowObject objects ++ rest) tableData
  = formatTable_rows headers rest
      (tableData
       ++ map (fun row => map (fun header => js_or (js_get row header) (JStr ""))
                              headers) objects).
Proof.
  induction objects as [|row objects IH]; intros tableData; cbn [map app formatTable_rows].
  - rewrite app_nil_r. reflexivity.
  - rewrite IH, <- app_assoc. reflexivity.
Qed.

(** X10. For rows that are all objects [formatTable] hands the renderer a
    rectangle: the header row and one row for each object, every one of them
    with as many cells as there are headers. *)
Theorem formatTable_rectangle bold table objects headers :
  exists tableData,
    formatTable bold table (map RowObject objects) headers = Normal (table tableData) /\
    length tableData = S (length objects) /\
    Forall (fun row => length row = length headers) tableData.
Proof.
  eexists. split; [|split].
  - unfold formatTable. rewrite <- (app_nil_r (map RowObject objects)).
    rewrite formatTable_rows_objects. reflexivity.
  - cbn [app length]. rewrite length_map. reflexivity.
  - cbn [app]. constructor; [apply length_map|].
    apply Forall_map. apply Forall_forall. intros row _. apply length_map.
Qed.

(** X11. A [null] among the rows makes [formatTable] raise a [TypeError]
    when there is a header to read: [null] passes the object test and has no
    properties. Nothing is rendered, whatever rows come before or after. *)
Theorem formatTable_null_row bold table before rest header headers :
  formatTable bold table (before ++ RowOther JNull :: rest) (header :: headers)
  = Throw (TypeError ("Cannot read properties of null (reading '" +:+ header +:+ "')")).
Proof.
  unfold formatTable.
  generalize [map (fun h => JStr (bold h)) (header :: headers)].
  induction before as [|row before IH]; intros tableData; [reflexivity|].
  cbn [app]. destruct row as [o|cells|v]; cbn [formatTable_rows].
  - apply IH.
  - apply IH.
  - destruct v; [apply IH | reflexivity | apply IH..].
Qed.

(* ===================================================================== *)
(** * Connections over sequences of calls *)
(* ===================================================================== *)

Lemma count_events_app p w1 w2 :
  count_events p (w1 ++ w2) = (count_events p w1 + count_events p w2)%nat.
Proof. induction w1 as [|e w1 IH]; cbn; [reflexivity | rewrite IH; lia]. Qed.

Lemma query_connected drv sql params c w h :
  isConnected c = true -> connection c = Some h ->
  query drv sql params c w =
    match execute drv w h sql params with
    | Resolved (rows, fields) =>
        (Normal (rows, fields), c, w ++ [EvExecute h sql params])
    | Rejected msg =>
        (Throw (Error msg), c,
         w ++ [EvExecute h sql params; EvLog "执行查询失败:" msg])
    end.
Proof.
  intros Hflag Hh. rewrite query_unfold, ensureConnected_up by exact Hflag.
  rewrite Hh. reflexivity.
Qed.

(** With the flag up [query] attempts no connection, closes none and leaves
    the client as it is. *)
Lemma query_up drv sql params c w :
  isConnected c = true ->
  exists r tail executes,
    query drv sql params c w = (r, c, w ++ tail) /\
    adds w (w ++ tail) tail 0 0 executes /\ (executes <= 1)%nat.
Proof.
  intros Hflag. rewrite query_unfold, ensureConnected_up by exact Hflag.
  destruct (connection c) as [h|].
  - destruct (execute drv w h sql params) as [[rows fields]|msg];
      do 3 eexists; (split; [reflexivity|]); (split; [repeat split; reflexivity|]);
      cbn; lia.
  - do 3 eexists. split; [reflexivity|]. split; [repeat split; reflexivity|].
    cbn; lia.
Qed.

(** [connect] makes one attempt and closes nothing; when it returns the
    flag is up. *)
Lemma connect_once drv c w :
  exists r c' tail,
    connect drv c w = (r, c', w ++ tail) /\
    adds w (w ++ tail) tail 1 0 0 /\
    (forall b, r = Normal b -> isConnected c' = true).
Proof.
  destruct (createConnection drv w (connect_options (config c))) as [h|msg] eqn:Hc.
  - rewrite (connect_resolved _ _ _ _ Hc). do 3 eexists.
    split; [reflexivity|]. split; [repeat split; reflexivity|]. reflexivity.
  - rewrite (connect_rejected _ _ _ _ Hc). do 3 eexists.
    split; [reflexivity|]. split; [repeat split; reflexivity|].
    intros b H. discriminate.
Qed.

(** The guard makes at most one attempt; when it returns the flag is up. *)
Lemma ensureConnected_once drv c w :
  exists r c' tail creates,
    _ensureConnected drv c w = (r, c', w ++ tail) /\
    adds w (w ++ tail) tail creates 0 0 /\ (creates <= 1)%nat /\
    (r = Normal tt -> isConnected c' = true).
Proof.
  destruct (isConnected c) eqn:Hflag.
  - rewrite ensureConnected_up by exact Hflag. exists (Normal tt), c, [], O.
    split; [rewrite app_nil_r; reflexivity|]. split; [repeat split; reflexivity|].
    split; [lia | intros _; exact Hflag].
  - rewrite ensureConnected_down by exact Hflag.
    destruct (connect_once drv c w) as [r [c' [tail [Heq [Hadds Hup]]]]].
    rewrite Heq. destruct r as [b|e].
    + exists (Normal tt), c', tail, 1%nat. split; [reflexivity|].
      split; [exact Hadds|]. split; [lia | intros _; apply (Hup b); reflexivity].
    + exists (Throw e), c', tail, 1%nat. split; [reflexivity|].
      split; [exact Hadds|]. split; [lia | intros H; discriminate].
Qed.

Lemma adds_trans w tail1 tail2 c1 e1 x1 c2 e2 x2 :
  adds w (w ++ tail1) tail1 c1 e1 x1 ->
  adds (w ++ tail1) ((w ++ tail1) ++ tail2) tail2 c2 e2 x2 ->
  adds w (w ++ tail1 ++ tail2) (tail1 ++ tail2) (c1 + c2) (e1 + e2) (x1 + x2).
Proof.
  intros [_ [Hc1 [He1 Hx1]]] [_ [Hc2 [He2 Hx2]]].
  split; [reflexivity|]. rewrite !count_events_app. lia.
Qed.

Lemma is_query_ops_step drv sql params c w :
  isConnected c = true ->
  fst (run_op drv (OpQuery sql params) c w) = c /\
  count_events is_create (snd (run_op drv (OpQuery sql params) c w))
  = count_events is_create w /\
  count_events is_end (snd (run_op drv (OpQuery sql params) c w))
  = count_events is_end w.
Proof.
  intros Hflag. cbn [run_op].
  destruct (query_up drv sql params c w Hflag)
    as [r [tail [n [Heq [[_ [Hc [He _]]] _]]]]].
  rewrite Heq. cbn [fst snd]. rewrite !count_events_app, Hc, He.
  split; [reflexivity | lia].
Qed.

(** X12. Once the client is connected, any number of queries, each
    succeeding or failing as the driver decides, runs on that connection: no
    further connection attempt is made, nothing is closed, and the client's
    fields stay as they are, a failed statement included. *)
Theorem queries_share_connection drv queries c w :
  isConnected c = true ->
  let ops := map (fun q => OpQuery (fst q) (snd q)) queries in
  fst (run_ops drv ops c w) = c /\
  count_events is_create (snd (run_ops drv ops c w)) = count_events is_create w /\
  count_events is_end (snd (run_ops drv ops c w)) = count_events is_end w.
Proof.
  intros Hflag ops. subst ops. revert w.
  induction queries as [|[sql params] queries IH]; intros w; [repeat split|].
  cbn [map run_ops fst snd].
  destruct (is_query_ops_step drv sql params c w Hflag) as [Hc [Hcr Hen]].
  destruct (run_op drv (OpQuery sql params) c w) as [c1 w1]. cbn [fst snd] in *.
  subst c1. rewrite <- Hcr, <- Hen. apply IH.
Qed.

Lemma queries_share_connection_witness :
  fst (run_ops serving_driver
         (map (fun q => OpQuery (fst q) (snd q)) [("SELECT 1", []); ("SELECT 2", [])])
         {| config := sample_config; connection := Some 4%nat; isConnected := true |} [])
  = {| config := sample_config; connection := Some 4%nat; isConnected := true |}.
Proof.
  apply (queries_share_connection serving_driver [("SELECT 1", []); ("SELECT 2", [])]
           {| config := sample_config; connection := Some 4%nat; isConnected := true |} []).
  reflexivity.
Defined.

Lemma getTableSchema_unfold drv db table c w :
  getTableSchema drv db table c w =
    match _ensureConnected drv c w with
    | (Normal _, c1, w1) =>
        match query drv ("DESC `" +:+ db +:+ "`.`" +:+ table +:+ "`") [] c1 w1 with
        | (Normal (rows, _), c2, w2) => (Normal rows, c2, w2)
        | (Throw e, c2, w2) => (Throw e, c2, w2)
        end
    | (Throw e, c1, w1) => (Throw e, c1, w1)
    end.
Proof.
  unfold getTableSchema. run_js.
  destruct (_ensureConnected drv c w) as [[[u|e] c1] w1]; [|reflexivity].
  destruct (query drv _ [] c1 w1) as [[[[rows fields]|e] c2] w2]; reflexivity.
Qed.

Lemma getTableSchema_up drv db table c w :
  isConnected c = true ->
  exists r tail executes,
    getTableSchema drv db table c w = (r, c, w ++ tail) /\
    adds w (w ++ tail) tail 0 0 executes /\ (executes <= 1)%nat.
Proof.
  intros Hflag. rewrite getTableSchema_unfold, ensureConnected_up by exact Hflag.
  destruct (query_up drv ("DESC `" +:+ db +:+ "`.`" +:+ table +:+ "`") [] c w Hflag)
    as [r [tail [n [Heq [Hadds Hn]]]]].
  rewrite Heq. destruct r as [[rows fields]|e]; do 3 eexists; eauto.
Qed.

(** Leaving the guard behind: a call that is guarded and, with the flag up,
    attempts no connection, attempts at most one in all. *)
Lemma guarded_once {A} drv (body : M A) c w :
  (forall c1 w1, isConnected c1 = true ->
     exists r tail executes,
       body c1 w1 = (r, c1, w1 ++ tail) /\
       adds w1 (w1 ++ tail) tail 0 0 executes /\ (executes <= 1)%nat) ->
  exists r c' tail creates executes,
    (_ensureConnected drv ;; body) c w = (r, c', w ++ tail) /\
    adds w (w ++ tail) tail creates 0 executes /\
    (creates <= 1)%nat /\ (executes <= 1)%nat.
Proof.
  intros Hbody. unfold mbind, M_bind, bind.
  destruct (ensureConnected_once drv c w)
    as [r [c1 [tail1 [n [Heq [Hadds [Hn Hup]]]]]]].
  rewrite Heq. destruct r as [[]|e].
  - destruct (Hbody c1 (w ++ tail1) (Hup eq_refl))
      as [r2 [tail2 [x [Heq2 [Hadds2 Hx]]]]].
    rewrite Heq2. exists r2, c1, (tail1 ++ tail2), (n + 0)%nat, (0 + x)%nat.
    split; [rewrite app_assoc; reflexivity|].
    split; [|lia].
    pose proof (adds_trans _ _ _ _ _ _ _ _ _ Hadds Hadds2) as H.
    cbn [Nat.add] in H. exact H.
  - exists (Throw e), c1, tail1, n, O. split; [reflexivity|].
    split; [exact Hadds | lia].
Qed.

(** The part of [bulkImport] after its guard, on a client with the flag
    up. *)
Lemma bulkImport_up drv db table row rows c w :
  isConnected c = true ->
  exists r tail executes,
    bulkImport drv db table (Some (row :: rows)) c w = (r, c, w ++ tail) /\
    adds w (w ++ tail) tail 0 0 executes /\ (executes <= 1)%nat.
Proof.
  intros Hflag. unfold bulkImport.
  unfold mbind at 1. unfold M_bind, bind at 1.
  rewrite ensureConnected_up by exact Hflag.
  unfold mbind at 1. unfold bind at 1.
  destruct (getTableSchema_up drv db table c w Hflag)
    as [r [tail [n [Heq [Hadds Hn]]]]].
  rewrite Heq. destruct r as [schema|e]; [|do 3 eexists; eauto].
  run_js. destruct (connection c) as [h|].
  - case_driver; cbn.
    + eexists _, (tail ++ [_]), (n + 0)%nat. rewrite <- app_assoc.
      split; [reflexivity|]. split; [|lia].
      destruct Hadds as [_ [Hc [He Hx]]].
      split; [reflexivity|]. rewrite !count_events_app, Hc, He, Hx. cbn. lia.
    + eexists _, (tail ++ [_; _]), (n + 0)%nat. rewrite <- !app_assoc.
      split; [reflexivity|]. split; [|lia].
      destruct Hadds as [_ [Hc [He Hx]]].
      split; [reflexivity|]. rewrite !count_events_app, Hc, He, Hx. cbn. lia.
  - cbn. eexists _, (tail ++ [_]), (n + 0)%nat. rewrite <- ?app_assoc.
    split; [reflexivity|]. split; [|lia].
    destruct Hadds as [_ [Hc [He Hx]]].
    split; [reflexivity|]. rewrite !count_events_app, Hc, He, Hx. cbn. lia.
Qed.

(** X13. [getTableSchema] and [bulkImport] check the connection two and
    three times over, yet a call makes at most one connection attempt and at
    most one schema lookup, and closes nothing, whatever state the client is
    in and whatever the driver answers. *)
Theorem schema_calls_connect_once drv db table data c w :
  let w1 := snd (getTableSchema drv db table c w) in
  let w2 := snd (bulkImport drv db table data c w) in
  (count_events is_create w1 <= S (count_events is_create w))%nat /\
  (count_events is_execute w1 <= S (count_events is_execute w))%nat /\
  count_events is_end w1 = count_events is_end w /\
  (count_events is_create w2 <= S (count_events is_create w))%nat /\
  (count_events is_execute w2 <= S (count_events is_execute w))%nat /\
  count_events is_end w2 = count_events is_end w.
Proof.
  intros w1 w2.
  assert (Hschema :
    (count_events is_create w1 <= S (count_events is_create w))%nat /\
    (count_events is_execute w1 <= S (count_events is_execute w))%nat /\
    count_events is_end w1 = count_events is_end w).
  { subst w1.
    destruct (guarded_once drv
                ('(rows, _) ← query drv ("DESC `" +:+ db +:+ "`.`" +:+ table +:+ "`") [];
                 mret rows) c w)
      as [r [c' [tail [n [x [Heq [[_ [Hc [He Hx]]] [Hn Hxle]]]]]]]].
    { intros c1 w0 Hflag. unfold mbind, M_bind, bind.
      destruct (query_up drv ("DESC `" +:+ db +:+ "`.`" +:+ table +:+ "`") [] c1 w0 Hflag)
        as [r [tail [x [Heq [Hadds Hx]]]]].
      rewrite Heq. destruct r as [[rows fields]|e]; do 3 eexists; eauto. }
    unfold getTableSchema. rewrite Heq. cbn [snd].
    rewrite !count_events_app, Hc, He, Hx. lia. }
  split; [apply Hschema|]. split; [apply Hschema|]. split; [apply Hschema|].
  subst w2. destruct data as [[|row rows]|]; [cbn; lia | | cbn; lia].
  assert (Hb : exists r c' tail creates executes,
             bulkImport drv db table (Some (row :: rows)) c w = (r, c', w ++ tail) /\
             adds w (w ++ tail) tail creates 0 executes /\
             (creates <= 1)%nat /\ (executes <= 1)%nat).
  { destruct (isConnected c) eqn:Hflag.
    - destruct (bulkImport_up drv db table row rows c w Hflag)
        as [r [tail [x [Heq [Hadds Hxle]]]]].
      exists r, c, tail, O, x. repeat split; try apply Hadds; try lia. exact Heq.
    - unfold bulkImport. unfold mbind at 1. unfold M_bind, bind at 1.
      rewrite ensureConnected_down by exact Hflag.
      destruct (createConnection drv w (connect_options (config c))) as [h|msg] eqn:Hcr.
      + rewrite (connect_resolved _ _ _ _ Hcr).
        pose proof (bulkImport_up drv db table row rows
                      {| config := config c; connection := Some h; isConnected := true |}
                      (w ++ [EvCreateConnection (connect_options (config c))]) eq_refl)
          as [r [tail [x [Heq [[_ [Hc [He Hx]]] Hxle]]]]].
        unfold bulkImport in Heq. unfold mbind at 1 in Heq.
        unfold M_bind, bind at 1 in Heq.
        rewrite ensureConnected_up in Heq by reflexivity.
        rewrite Heq. eexists r, _, (_ :: tail), 1%nat, x. rewrite <- app_assoc.
        split; [reflexivity|]. split; [|lia].
        split; [reflexivity|]. cbn. rewrite Hc, He, Hx. repeat split; lia.
      + rewrite (connect_rejected _ _ _ _ Hcr). eexists _, _, _, 1%nat, O.
        split; [reflexivity|]. split; [repeat split; reflexivity | lia]. }
  destruct Hb as [r [c' [tail [n [x [Heq [[_ [Hc [He Hx]]] [Hn Hxle]]]]]]]].
  rewrite Heq. cbn [snd]. rewrite !count_events_app, Hc, He, Hx. lia.
Qed.

Lemma map_const_repeat {A} (l : list A) (s : string) :
  map (fun _ => s) l = repeat s (length l).
Proof. induction l as [|a l IH]; cbn; [reflexivity | rewrite IH; reflexivity]. Qed.

Lemma bulkImport_connected drv db table row rows c w h :
  isConnected c = true -> connection c = Some h ->
  bulkImport drv db table (Some (row :: rows)) c w =
    let desc := "DESC `" +:+ db +:+ "`.`" +:+ table +:+ "`" in
    match execute drv w h desc [] with
    | Rejected msg =>
        (Throw (Error msg), c, w ++ [EvExecute h desc []; EvLog "执行查询失败:" msg])
    | Resolved (schema, _) =>
        let columns := map (fun col => js_or (js_get col "Field") (js_get col "name")) schema in
        let sql := "INSERT INTO `" +:+ db +:+ "`.`" +:+ table +:+ "` ("
                   +:+ js_join ", " (map (fun c => "`" +:+ js_String c +:+ "`") columns)
                   +:+ ") VALUES (" +:+ js_join ", " (map (fun _ => "?") columns) +:+ ")" in
        let values := map (fun row => map (fun col => js_get row (js_String col)) columns)
                          (row :: rows) in
        let w1 := w ++ [EvExecute h desc []] in
        match conn_query drv w1 h sql values with
        | Resolved n =>
            (Normal {| success := true; rowsAffected := n;
                       imp_message := "成功导入 " +:+ pretty n +:+ " 条数据" |},
             c, w1 ++ [EvQuery h sql values])
        | Rejected msg =>
            (Throw (Error msg), c, w1 ++ [EvQuery h sql values; EvLog "数据导入失败:" msg])
        end
    end.
Proof.
  intros Hflag Hh. unfold bulkImport.
  unfold mbind at 1. unfold M_bind, bind at 1.
  rewrite ensureConnected_up by exact Hflag.
  unfold mbind at 1. unfold bind at 1.
  rewrite getTableSchema_unfold, ensureConnected_up by exact Hflag.
  rewrite (query_connected drv _ [] c w h Hflag Hh). cbv zeta.
  destruct (execute drv w h _ []) as [[schema fields]|msg]; [|reflexivity].
  run_js. rewrite Hh. cbn.
  match goal with
  | |- context [conn_query ?d ?w0 ?h0 ?s ?v] => destruct (conn_query d w0 h0 s v) as [n|msg]
  end; cbn; rewrite <- ?app_assoc; reflexivity.
Qed.

(** X14. On a connected client whose schema lookup succeeds, [bulkImport]
    sends all the rows in one insert: the statement has one question mark
    for each column of the schema, the values have one entry for each row of
    the data and each entry one value for each column, and the history gains
    the schema lookup, that one insert and, when the driver rejects it, the
    log line; the outcome is the driver's. *)
Theorem bulkImport_single_insert drv db table row rows c w h schema fields :
  isConnected c = true -> connection c = Some h ->
  execute drv w h ("DESC `" +:+ db +:+ "`.`" +:+ table +:+ "`") [] = Resolved (schema, fields) ->
  exists columnList sql values,
    sql = "INSERT INTO `" +:+ db +:+ "`.`" +:+ table +:+ "` (" +:+ columnList
          +:+ ") VALUES (" +:+ js_join ", " (repeat "?" (length schema)) +:+ ")" /\
    length values = S (length rows) /\
    Forall (fun entry => length entry = length schema) values /\
    let w1 := w ++ [EvExecute h ("DESC `" +:+ db +:+ "`.`" +:+ table +:+ "`") []] in
    bulkImport drv db table (Some (row :: rows)) c w =
      match conn_query drv w1 h sql values with
      | Resolved n =>
          (Normal {| success := true; rowsAffected := n;
                     imp_message := "成功导入 " +:+ pretty n +:+ " 条数据" |},
           c, w1 ++ [EvQuery h sql values])
      | Rejected msg =>
          (Throw (Error msg), c, w1 ++ [EvQuery h sql values; EvLog "数据导入失败:" msg])
      end.
Proof.
  intros Hflag Hh Hdesc.
  rewrite (bulkImport_connected drv db table row rows c w h Hflag Hh). cbv zeta.
  rewrite Hdesc. do 3 eexists.
  split; [|split; [|split; [|reflexivity]]].
  - rewrite map_const_repeat, length_map. reflexivity.
  - cbn [map length]. rewrite length_map. reflexivity.
  - apply Forall_map. apply Forall_forall. intros item _.
    rewrite !length_map. reflexivity.
Qed.

Lemma bulkImport_single_insert_witness :
  exists columnList sql values,
    sql = "INSERT INTO `" +:+ "db" +:+ "`.`" +:+ "t" +:+ "` (" +:+ columnList
          +:+ ") VALUES (" +:+ js_join ", " (repeat "?" 1) +:+ ")" /\
    length values = 2%nat /\
    Forall (fun entry => length entry = 1%nat) values /\
    bulkImport serving_driver "db" "t" (Some [[("id", JNum 1)]; [("id", JNum 2)]])
      {| config := sample_config; connection := Some 5%nat; isConnected := true |} []
    = match conn_query serving_driver [EvExecute 5%nat "DESC `db`.`t`" []] 5%nat sql values with
      | Resolved n =>
          (Normal {| success := true; rowsAffected := n;
                     imp_message := "成功导入 " +:+ pretty n +:+ " 条数据" |},
           {| config := sample_config; connection := Some 5%nat; isConnected := true |},
           [EvExecute 5%nat "DESC `db`.`t`" []] ++ [EvQuery 5%nat sql values])
      | Rejected msg =>
          (Throw (Error msg),
           {| config := sample_config; connection := Some 5%nat; isConnected := true |},
           [EvExecute 5%nat "DESC `db`.`t`" []]
           ++ [EvQuery 5%nat sql values; EvLog "数据导入失败:" msg])
      end.
Proof.
  apply (bulkImport_single_insert serving_driver "db" "t"
           [("id", JNum 1)] [[("id", JNum 2)]]
           {| config := sample_config; connection := Some 5%nat; isConnected := true |}
           [] 5%nat [[("Field", JStr "id"); ("Type", JStr "INT")]] []);
    reflexivity.
Defined.

(** X15. On a connected client whose schema lookup the driver rejects,
    [bulkImport] throws that error and issues no insert: the history gains
    the lookup and the log line of [query], nothing else, and the client
    stays connected. *)
Theorem bulkImport_schema_failure drv db table row rows c w h msg :
  isConnected c = true -> connection c = Some h ->
  execute drv w h ("DESC `" +:+ db +:+ "`.`" +:+ table +:+ "`") [] = Rejected msg ->
  bulkImport drv db table (Some (row :: rows)) c w
  = (Throw (Error msg), c,
     w ++ [EvExecute h ("DESC `" +:+ db +:+ "`.`" +:+ table +:+ "`") [];
           EvLog "执行查询失败:" msg]).
Proof.
  intros Hflag Hh Hdesc.
  rewrite (bulkImport_connected drv db table row rows c w h Hflag Hh). cbv zeta.
  rewrite Hdesc. reflexivity.
Qed.

Lemma bulkImport_schema_failure_witness :
  bulkImport refusing_driver "db" "t" (Some [[("id", JNum 1)]])
    {| config := sample_config; connection := Some 5%nat; isConnected := true |} []
  = (Throw (Error "closed"),
     {| config := sample_config; connection := Some 5%nat; isConnected := true |},
     [EvExecute 5%nat "DESC `db`.`t`" []; EvLog "执行查询失败:" "closed"]).
Proof.
  apply (bulkImport_schema_failure refusing_driver "db" "t" [("id", JNum 1)] []
           {| config := sample_config; connection := Some 5%nat; isConnected := true |}
           [] 5%nat "closed"); reflexivity.
Defined.

(* ===================================================================== *)
(** * Properties of the manager's SQL operations *)
(* ===================================================================== *)

(** An operation of the shared shape makes one connection attempt, at most
    one statement, and closes nothing. *)
Lemma manager_sql_once {A} drv label sql (result : list record -> M A) c w :
  (forall rows c1 w1, exists r, result rows c1 w1 = (r, c1, w1)) ->
  exists r c' tail executes,
    manager_sql drv label sql result c w = (r, c', w ++ tail) /\
    adds w (w ++ tail) tail 1 0 executes /\ (executes <= 1)%nat.
Proof.
  intros Hres. unfold manager_sql, try_catch, mbind, M_bind, bind.
  destruct (connect_once drv c w) as [r1 [c1 [t1 [Heq1 [[_ [Hc1 [He1 Hx1]]] Hup]]]]].
  rewrite Heq1. destruct r1 as [b|e].
  - destruct (query_up drv sql [] c1 (w ++ t1) (Hup b eq_refl))
      as [r2 [t2 [x [Heq2 [[_ [Hc2 [He2 Hx2]]] Hx]]]]].
    rewrite Heq2. destruct r2 as [[rows fields]|e].
    + destruct (Hres rows c1 ((w ++ t1) ++ t2)) as [r3 Heq3]. rewrite Heq3.
      destruct r3 as [a|e].
      * exists (Normal a), c1, (t1 ++ t2), x. rewrite <- ?app_assoc.
        split; [reflexivity|]. split; [|exact Hx]. split; [reflexivity|].
        rewrite !count_events_app. lia.
      * unfold console_error, emit, throw; cbn. exists (Throw e), c1, (t1 ++ t2 ++ [EvLog label (message e)]), x.
        rewrite <- ?app_assoc. split; [reflexivity|]. split; [|exact Hx].
        split; [reflexivity|]. rewrite !count_events_app. cbn. lia.
    + unfold console_error, emit, throw; cbn. exists (Throw e), c1, (t1 ++ t2 ++ [EvLog label (message e)]), x.
      rewrite <- ?app_assoc. split; [reflexivity|]. split; [|exact Hx].
      split; [reflexivity|]. rewrite !count_events_app. cbn. lia.
  - unfold console_error, emit, throw; cbn. exists (Throw e), c1, (t1 ++ [EvLog label (message e)]), O.
    rewrite <- ?app_assoc. split; [reflexivity|]. split; [|lia].
    split; [reflexivity|]. rewrite !count_events_app. cbn. lia.
Qed.

(** The operations that drop the rows have the shared shape too. *)
Lemma manager_sql_drop_rows {A} drv label sql (a : A) c w :
  try_catch (connect drv ;; query drv sql [] ;; mret a)
            (fun error => console_error label error ;; throw error) c w
  = manager_sql drv label sql (fun _ => mret a) c w.
Proof.
  unfold manager_sql, try_catch, mbind, M_bind, bind.
  destruct (connect drv c w) as [[[b|e] c1] w1]; [|reflexivity].
  destruct (query drv sql [] c1 w1) as [[[[rows fields]|e] c2] w2]; reflexivity.
Qed.

Lemma run_manager_op_once drv op c w :
  count_events is_create (snd (run_manager_op drv op c w))
  = S (count_events is_create w) /\
  count_events is_end (snd (run_manager_op drv op c w)) = count_events is_end w.
Proof.
  assert (Hgen : forall A (m : M A) label sql (result : list record -> M A),
             (forall rows c1 w1, exists r, result rows c1 w1 = (r, c1, w1)) ->
             m c w = manager_sql drv label sql result c w ->
             count_events is_create (snd (m c w)) = S (count_events is_create w) /\
             count_events is_end (snd (m c w)) = count_events is_end w).
  { intros A m label sql result Hres ->.
    destruct (manager_sql_once drv label sql result c w Hres)
      as [r [c' [tail [x [Heq [[_ [Hc [He _]]] _]]]]]].
    rewrite Heq. cbn [snd]. rewrite !count_events_app, Hc, He. lia. }
  assert (Hpure : forall A (f : list record -> completion A) rows c1 w1,
             exists r, (fun rows => match f rows with
                                    | Normal a => mret a
                                    | Throw e => throw e
                                    end) rows c1 w1 = (r, c1, w1)).
  { intros A f rows c1 w1. cbv beta. destruct (f rows); eexists; reflexivity. }
  destruct op as [db t|db t| |id| |host port|host port]; cbn [run_manager_op].
  - pose proof (Hgen _ (getTablePartitions drv db t) _ _ (fun rows => mret rows)
                  ltac:(intros; eexists; reflexivity) eq_refl) as H.
    destruct (getTablePartitions drv db t c w) as [[r c1] w1]. exact H.
  - pose proof (Hgen _ (getTableStats drv db t) _ _ (fun rows => mret (head rows))
                  ltac:(intros; eexists; reflexivity) eq_refl) as H.
    destruct (getTableStats drv db t c w) as [[r c1] w1]. exact H.
  - pose proof (Hgen _ (getRunningQueries drv) _ _ (fun rows => mret rows)
                  ltac:(intros; eexists; reflexivity) eq_refl) as H.
    destruct (getRunningQueries drv c w) as [[r c1] w1]. exact H.
  - pose proof (Hgen _ (killQuery drv id) _ _ (fun _ => mret true)
                  ltac:(intros; eexists; reflexivity)
                  (manager_sql_drop_rows drv _ _ true c w)) as H.
    destruct (killQuery drv id c w) as [[r c1] w1]. exact H.
  - pose proof (Hgen _ (getVersion drv) _ _
                  (fun rows => match rows with
                               | row :: _ => mret (js_get row "version")
                               | [] => throw (TypeError
                                   "Cannot read properties of undefined (reading 'version')")
                               end)
                  ltac:(intros [|row rows] ? ?; eexists; reflexivity) eq_refl) as H.
    destruct (getVersion drv c w) as [[r c1] w1]. exact H.
  - pose proof (Hgen _ (addBeNode drv host port) _ _ (fun _ => mret true)
                  ltac:(intros; eexists; reflexivity)
                  (manager_sql_drop_rows drv _ _ true c w)) as H.
    destruct (addBeNode drv host port c w) as [[r c1] w1]. exact H.
  - pose proof (Hgen _ (removeBeNode drv host port) _ _ (fun _ => mret true)
                  ltac:(intros; eexists; reflexivity)
                  (manager_sql_drop_rows drv _ _ true c w)) as H.
    destruct (removeBeNode drv host port c w) as [[r c1] w1]. exact H.
Qed.

(** X16. Every SQL operation of the manager opens a connection of its own:
    after any sequence of them, each returning or throwing, the history has
    one more connection attempt for each call, the client being connected
    already or not, and not one close. *)
Theorem manager_connects_every_call drv ops c w :
  count_events is_create (snd (run_manager_ops drv ops c w))
  = (count_events is_create w + length ops)%nat /\
  count_events is_end (snd (run_manager_ops drv ops c w)) = count_events is_end w.
Proof.
  revert c w. induction ops as [|op ops IH]; intros c w; cbn [run_manager_ops length snd].
  - split; [lia | reflexivity].
  - destruct (run_manager_op_once drv op c w) as [Hc He].
    destruct (run_manager_op drv op c w) as [c1 w1]. cbn [snd] in Hc, He.
    destruct (IH c1 w1) as [IHc IHe]. rewrite IHc, IHe, Hc, He. split; [lia | reflexivity].
Qed.

(** X17. When the server answers with no row, [getVersion] raises a
    [TypeError], logged and rethrown by its own [catch], because it reads
    [version] of a first row that is not there, while [getTableStats]
    returns [undefined]; both leave the client connected. *)
Theorem manager_empty_result drv db table c w h fields :
  let opts := connect_options (config c) in
  let w1 := w ++ [EvCreateConnection opts] in
  let connected := {| config := config c; connection := Some h; isConnected := true |} in
  createConnection drv w opts = Resolved h ->
  (execute drv w1 h "SELECT DORIS_VERSION() as version" [] = Resolved ([], fields) ->
   getVersion drv c w
   = (Throw (TypeError "Cannot read properties of undefined (reading 'version')"),
      connected,
      w1 ++ [EvExecute h "SELECT DORIS_VERSION() as version" [];
             EvLog "获取版本信息失败:"
                   "Cannot read properties of undefined (reading 'version')"])) /\
  (execute drv w1 h ("SHOW STATS `" +:+ db +:+ "`.`" +:+ table +:+ "`") []
   = Resolved ([], fields) ->
   getTableStats drv db table c w
   = (Normal None, connected,
      w1 ++ [EvExecute h ("SHOW STATS `" +:+ db +:+ "`.`" +:+ table +:+ "`") []])).
Proof.
  intros opts w1 connected Hc. split; intros He.
  - unfold getVersion, try_catch, mbind, M_bind, bind.
    rewrite (connect_resolved drv c w h Hc).
    rewrite (query_connected drv _ [] connected _ h eq_refl eq_refl).
    fold opts. fold w1. rewrite He. cbn. rewrite <- app_assoc. reflexivity.
  - unfold getTableStats, try_catch, mbind, M_bind, bind.
    rewrite (connect_resolved drv c w h Hc).
    rewrite (query_connected drv _ [] connected _ h eq_refl eq_refl).
    fold opts. fold w1. rewrite He. reflexivity.
Qed.

Lemma manager_empty_result_witness :
  getVersion
    {| createConnection := fun _ _ => Resolved 1%nat;
       execute := fun _ _ _ _ => Resolved ([], []);
       conn_query := fun _ _ _ _ => Rejected "unused" |}
    (new_DorisClient sample_config) []
  = (Throw (TypeError "Cannot read properties of undefined (reading 'version')"),
     {| config := sample_config; connection := Some 1%nat; isConnected := true |},
     [EvCreateConnection (connect_options sample_config)]
     ++ [EvExecute 1%nat "SELECT DORIS_VERSION() as version" [];
         EvLog "获取版本信息失败:"
               "Cannot read properties of undefined (reading 'version')"]).
Proof.
  exact (proj1 (manager_empty_result
                  {| createConnection := fun _ _ => Resolved 1%nat;
                     execute := fun _ _ _ _ => Resolved ([], []);
                     conn_query := fun _ _ _ _ => Rejected "unused" |}
                  "db" "t" (new_DorisClient sample_config) [] 1%nat [] eq_refl) eq_refl).
Defined.

(* ===================================================================== *)
(** * The connection of the query tool *)
(* ===================================================================== *)

(** X18. A call of [dorisQuery] that succeeds opens one connection, runs
    the statement on it and closes it. When the statement fails the
    connection it opened is left open: [disconnect] comes after [query]
    inside [try], so the history ends with the log line of the failed
    statement and gains no close. *)
Theorem dorisQuery_connection drv params cfg w h :
  let opts := connect_options (with_database (doris cfg) (q_database params)) in
  let w1 := w ++ [EvCreateConnection opts] in
  createConnection drv w opts = Resolved h ->
  (forall rows fields,
     execute drv w1 h (sql params) [] = Resolved (rows, fields) ->
     snd (dorisQuery drv params (Normal cfg) w)
     = w ++ [EvCreateConnection opts; EvExecute h (sql params) []; EvEnd h]) /\
  (forall msg,
     execute drv w1 h (sql params) [] = Rejected msg ->
     snd (dorisQuery drv params (Normal cfg) w)
     = w ++ [EvCreateConnection opts; EvExecute h (sql params) [];
             EvLog "执行查询失败:" msg] /\
     count_events is_end (snd (dorisQuery drv params (Normal cfg) w))
     = count_events is_end w).
Proof.
  intros opts w1 Hc.
  assert (Hconn := connect_resolved drv
            (new_DorisClient (with_database (doris cfg) (q_database params))) w h Hc).
  split.
  - intros rows fields He. unfold dorisQuery, dorisQuery_try, loadConfig.
    unfold mbind, M_bind, bind at 1. rewrite Hconn.
    unfold bind at 1. rewrite (query_connected drv _ []
               {| config := with_database (doris cfg) (q_database params);
                  connection := Some h; isConnected := true |} _ h eq_refl eq_refl).
    cbn [config new_DorisClient]. fold opts. fold w1. rewrite He.
    unfold bind, disconnect. run_js. cbn. unfold w1. rewrite <- !app_assoc. reflexivity.
  - intros msg He.
    assert (Hw : snd (dorisQuery drv params (Normal cfg) w)
                 = w ++ [EvCreateConnection opts; EvExecute h (sql params) [];
                         EvLog "执行查询失败:" msg]).
    { unfold dorisQuery, dorisQuery_try, loadConfig.
      unfold mbind, M_bind, bind at 1. rewrite Hconn.
      unfold bind at 1. rewrite (query_connected drv _ []
               {| config := with_database (doris cfg) (q_database params);
                  connection := Some h; isConnected := true |} _ h eq_refl eq_refl).
      cbn [config new_DorisClient]. fold opts. fold w1. rewrite He.
      cbn. unfold w1. rewrite <- !app_assoc. reflexivity. }
    split; [exact Hw|]. rewrite Hw, count_events_app. cbn. lia.
Qed.

Lemma dorisQuery_connection_witness :
  snd (dorisQuery serving_driver {| sql := "SELECT 1"; q_database := Some "sales" |}
         (Normal {| doris := sample_config |}) [])
  = [] ++ [EvCreateConnection
             (connect_options (with_database sample_config (Some "sales")));
           EvExecute O "SELECT 1" []; EvEnd O].
Proof.
  exact (proj1 (dorisQuery_connection serving_driver
                  {| sql := "SELECT 1"; q_database := Some "sales" |}
                  {| doris := sample_config |} [] O eq_refl) _ _ eq_refl).
Defined.

(* ===================================================================== *)
(** * Handles come from the driver *)
(* ===================================================================== *)

Lemma handed_out_app drv h w tail :
  handed_out drv h w -> handed_out drv h (w ++ tail).
Proof.
  intros [w0 [opts [rest [-> Hc]]]]. exists w0, opts, (rest ++ tail).
  split; [rewrite <- app_assoc; reflexivity | exact Hc].
Qed.

Lemma known_events_snoc drv w e :
  known_events drv w ->
  (forall h, event_handle e = Some h -> handed_out drv h w) ->
  known_events drv (w ++ [e]).
Proof.
  intros Hw He before e' after h Heq Hh.
  destruct after as [|x after] using rev_ind.
  - apply app_inj_tail in Heq as [<- <-]. apply He. exact Hh.
  - clear IHafter. change (before ++ e' :: after ++ [x])
      with (before ++ (e' :: after) ++ [x]) in Heq.
    rewrite app_assoc in Heq. apply app_inj_tail in Heq as [-> _].
    apply (Hw before e' after h eq_refl Hh).
Qed.

Lemma handles_known_log drv c w label msg :
  handles_known drv c w -> handles_known drv c (w ++ [EvLog label msg]).
Proof.
  intros [Hc Hw]. split.
  - intros h Hh. apply handed_out_app. apply Hc. exact Hh.
  - apply known_events_snoc; [exact Hw|]. intros h H. discriminate.
Qed.

Lemma connect_known drv c w :
  handles_known drv c w ->
  handles_known drv (snd (fst (connect drv c w))) (snd (connect drv c w)).
Proof.
  intros [Hc Hw].
  destruct (createConnection drv w (connect_options (config c))) as [h|msg] eqn:Hcr.
  - rewrite (connect_resolved _ _ _ _ Hcr). cbn [fst snd]. split.
    + intros h' Hh. cbn in Hh. injection Hh as <-.
      exists w, (connect_options (config c)), []. split; [reflexivity | exact Hcr].
    + apply known_events_snoc; [exact Hw|]. intros h' H. discriminate.
  - rewrite (connect_rejected _ _ _ _ Hcr). cbn [fst snd].
    change (w ++ [EvCreateConnection (connect_options (config c));
                  EvLog "连接到 Doris 失败:" msg])
      with (w ++ [EvCreateConnection (connect_options (config c))]
              ++ [EvLog "连接到 Doris 失败:" msg]).
    rewrite app_assoc. apply (handles_known_log drv (set_isConnected false c)).
    split.
    + intros h Hh. apply handed_out_app. apply Hc. exact Hh.
    + apply known_events_snoc; [exact Hw|]. intros h H. discriminate.
Qed.

Lemma disconnect_known drv c w :
  handles_known drv c w ->
  handles_known drv (snd (fst (disconnect c w))) (snd (disconnect c w)).
Proof.
  intros [Hc Hw]. unfold disconnect. run_js.
  destruct (connection c) as [h|] eqn:Hh; cbn.
  - split; [intros h' H; discriminate|].
    apply known_events_snoc; [exact Hw|].
    intros h' H. injection H as <-. apply Hc. reflexivity.
  - split; [|exact Hw]. intros h H. rewrite Hh in H. discriminate.
Qed.

Lemma ensureConnected_known drv c w :
  handles_known drv c w ->
  handles_known drv (snd (fst (_ensureConnected drv c w))) (snd (_ensureConnected drv c w)).
Proof.
  intros Hk. destruct (isConnected c) eqn:Hflag.
  - rewrite ensureConnected_up by exact Hflag. exact Hk.
  - rewrite ensureConnected_down by exact Hflag.
    pose proof (connect_known drv c w Hk) as H.
    destruct (connect drv c w) as [[[b|e] c1] w1]; exact H.
Qed.

Lemma query_known drv sql params c w :
  handles_known drv c w ->
  handles_known drv (snd (fst (query drv sql params c w))) (snd (query drv sql params c w)).
Proof.
  intros Hk. rewrite query_unfold.
  pose proof (ensureConnected_known drv c w Hk) as H.
  destruct (_ensureConnected drv c w) as [[[u|e] c1] w1]; cbn [fst snd] in H |- *;
    [|exact H].
  destruct (connection c1) as [h|] eqn:Hh.
  - assert (Hexec : handles_known drv c1 (w1 ++ [EvExecute h sql params])).
    { destruct H as [Hc Hw]. split.
      - intros h' Hh'. apply handed_out_app. apply Hc. exact Hh'.
      - apply known_events_snoc; [exact Hw|].
        intros h' Heq. injection Heq as <-. apply Hc. exact Hh. }
    destruct (execute drv w1 h sql params) as [[rows fields]|msg]; cbn [fst snd].
    + exact Hexec.
    + change (w1 ++ [EvExecute h sql params; EvLog "执行查询失败:" msg])
        with (w1 ++ [EvExecute h sql params] ++ [EvLog "执行查询失败:" msg]).
      rewrite app_assoc. apply handles_known_log. exact Hexec.
  - cbn [fst snd]. apply handles_known_log. exact H.
Qed.

(** X19. Whatever sequence of [connect], [disconnect] and [query] is
    called on a new client, every statement executed and every connection
    closed is on a handle that the driver had returned for an earlier
    connection attempt, and so is the handle the client holds. *)
Theorem client_handles_from_driver drv cfg ops :
  let c := fst (run_ops drv ops (new_DorisClient cfg) []) in
  let w := snd (run_ops drv ops (new_DorisClient cfg) []) in
  (forall h, connection c = Some h -> handed_out drv h w) /\
  (forall before e after h,
     w = before ++ e :: after -> event_handle e = Some h -> handed_out drv h before).
Proof.
  assert (Hgen : forall ops c w, handles_known drv c w ->
                   handles_known drv (fst (run_ops drv ops c w)) (snd (run_ops drv ops c w))).
  { clear ops. induction ops as [|op ops IH]; intros c w Hk; [exact Hk|].
    cbn [run_ops].
    assert (Hop : handles_known drv (fst (run_op drv op c w)) (snd (run_op drv op c w))).
    { destruct op as [| |sql params]; cbn [run_op].
      - pose proof (connect_known drv c w Hk) as H.
        destruct (connect drv c w) as [[r c1] w1]. exact H.
      - pose proof (disconnect_known drv c w Hk) as H.
        destruct (disconnect c w) as [[r c1] w1]. exact H.
      - pose proof (query_known drv sql params c w Hk) as H.
        destruct (query drv sql params c w) as [[r c1] w1]. exact H. }
    destruct (run_op drv op c w) as [c1 w1]. apply IH. exact Hop. }
  intros c w. apply (Hgen ops (new_DorisClient cfg) []). split.
  - intros h H. discriminate.
  - intros before e after h Heq _. destruct before; discriminate.
Qed.

(* ===================================================================== *)
(** * Properties of [exportToFile] *)
(* ===================================================================== *)

(** X20. On a connected client [exportToFile] writes only what a query
    returned. When the driver rejects the statement no write is attempted
    and the error, logged by [query] and again by [exportToFile], is thrown
    on. When the statement returns rows, one write of the content built from
    them is attempted: if it succeeds the result reports the number of rows
    and the file, if it fails its error is logged and thrown. The client
    stays connected throughout. *)
Theorem exportToFile_writes drv writeFile sql outputFile options c w h :
  isConnected c = true -> connection c = Some h ->
  (forall msg,
     execute drv w h sql [] = Rejected msg ->
     exportToFile drv writeFile sql outputFile options c w
     = (Throw (Error msg), c,
        w ++ [EvExecute h sql []; EvLog "执行查询失败:" msg; EvLog "数据导出失败:" msg],
        [])) /\
  (forall rows fields,
     execute drv w h sql [] = Resolved (rows, fields) ->
     let content := export_content rows options in
     exportToFile drv writeFile sql outputFile options c w
     = match writeFile outputFile content with
       | Normal _ =>
           (Normal {| exp_success := true; rowCount := length rows;
                      exp_file := outputFile;
                      exp_message := "成功导出 " +:+ pretty (length rows)
                                     +:+ " 条记录到 " +:+ outputFile |},
            c, w ++ [EvExecute h sql []], [(outputFile, content)])
       | Throw error =>
           (Throw error, c,
            w ++ [EvExecute h sql []; EvLog "数据导出失败:" (message error)],
            [(outputFile, content)])
       end).
Proof.
  intros Hflag Hh. split.
  - intros msg He. unfold exportToFile.
    rewrite ensureConnected_up by exact Hflag.
    rewrite (query_connected drv sql [] c w h Hflag Hh), He.
    cbn [message]. rewrite <- app_assoc. reflexivity.
  - intros rows fields He content. unfold exportToFile.
    rewrite ensureConnected_up by exact Hflag.
    rewrite (query_connected drv sql [] c w h Hflag Hh), He.
    fold content. destruct (writeFile outputFile content) as [u|error];
      [reflexivity|]. rewrite <- app_assoc. reflexivity.
Qed.

Lemma exportToFile_writes_witness :
  exportToFile refusing_driver (fun _ _ => Normal tt) "SELECT 1" "out.csv"
    {| separator := None; includeHeader := true |}
    {| config := sample_config; connection := Some 2%nat; isConnected := true |} []
  = (Throw (Error "closed"),
     {| config := sample_config; connection := Some 2%nat; isConnected := true |},
     [] ++ [EvExecute 2%nat "SELECT 1" []; EvLog "执行查询失败:" "closed";
            EvLog "数据导出失败:" "closed"],
     []).
Proof.
  exact (proj1 (exportToFile_writes refusing_driver (fun _ _ => Normal tt)
                  "SELECT 1" "out.csv" {| separator := None; includeHeader := true |}
                  {| config := sample_config; connection := Some 2%nat;
                     isConnected := true |} [] 2%nat eq_refl eq_refl)
           "closed" eq_refl).
Defined.

Lemma export_content_lines rows options :
  export_content rows options
  = unlines
      (map (fun cells => js_join (export_separator options) cells +:+ str1 LF)
           ((match rows with
             | first :: _ => if includeHeader options then [Object_keys first] else []
             | [] => []
             end)
            ++ map (fun row => map join_element (Object_values row)) rows)).
Proof.
  unfold export_content.
  rewrite (fold_left_lines
             (fun row => js_join (export_separator options)
                           (map join_element (Object_values row)) +:+ str1 LF)).
  rewrite map_app, map_map.
  destruct rows as [|first rest]; [reflexivity|].
  destruct (includeHeader options); reflexivity.
Qed.

(** X21. The file [exportToFile] writes is read back by [parseCSV] when the
    separator is one character other than the line feed and no key and no
    value holds it or a line feed: the keys of the first row if the header
    is asked for, the values of each row as [join] prints them ([null] and
    [undefined] empty), and a last record with one empty cell. A result with
    no rows gives the empty file, header or not. *)
Theorem export_content_parseCSV d header rows :
  let options := {| separator := Some (str1 d); includeHeader := header |} in
  let free := fun cell => has_char d cell = false /\ has_char LF cell = false in
  d <> LF ->
  Forall (fun row => row <> [] /\
                     Forall free (Object_keys row) /\
                     Forall free (map join_element (Object_values row))) rows ->
  parseCSV (export_content rows options) (str1 d)
  = (match rows with
     | first :: _ => if header then [Object_keys first] else []
     | [] => []
     end)
    ++ map (fun row => map join_element (Object_values row)) rows ++ [[""]] /\
  export_content [] options = "".
Proof.
  intros options free Hd Hrows. split; [|reflexivity].
  rewrite export_content_lines.
  change (export_separator options) with (str1 d).
  rewrite parseCSV_unlines; [rewrite <- app_assoc; reflexivity | exact Hd |].
  apply Forall_app. split.
  - destruct rows as [|first rest]; [constructor|]. cbn [includeHeader options].
    destruct header; [|constructor].
    inversion Hrows as [|? ? [Hne [Hkeys _]] _]; subst.
    constructor; [|constructor]. split; [|exact Hkeys].
    unfold Object_keys. destruct first; [congruence | discriminate].
  - apply Forall_map. eapply Forall_impl; [exact Hrows|].
    intros row [Hne [_ Hvals]]. split; [|exact Hvals].
    unfold Object_values. destruct row; [congruence | discriminate].
Qed.

Lemma export_content_parseCSV_witness :
  parseCSV (export_content [[("id", JNum 7); ("city", JNull)]]
              {| separator := Some (str1 ";"); includeHeader := true |}) (str1 ";")
  = [["id"; "city"]] ++ [["7"; ""]] ++ [[""]].
Proof.
  apply (proj1 (export_content_parseCSV ";" true [[("id", JNum 7); ("city", JNull)]]
                  ltac:(intros H; discriminate)
                  ltac:(repeat constructor; intros H; discriminate))).
Defined.

(* ===================================================================== *)
(** * Properties of [ConfigLoader] *)
(* ===================================================================== *)

Lemma substring_from_append p q : substring_from (String.length p) (p +:+ q) = q.
Proof. induction p as [|a p IH]; cbn; [reflexivity | exact IH]. Qed.

Lemma substring_prefix p q : String.substring 0 (String.length p) (p +:+ q) = p.
Proof.
  induction p as [|a p IH]; cbn.
  - destruct q; reflexivity.
  - rewrite IH. reflexivity.
Qed.

Lemma endsWith_append p suffix : endsWith suffix (p +:+ suffix) = true.
Proof.
  unfold endsWith. rewrite length_append.
  replace (String.length p + String.length suffix - String.length suffix)%nat
    with (String.length p) by lia.
  rewrite substring_from_append, String.eqb_refl.
  apply andb_true_intro. split; [apply Nat.leb_le; lia | reflexivity].
Qed.

(** A placeholder made of a name resolves to the variable of that name. *)
Lemma resolve_placeholder env name :
  resolve_value env (JStr ("${" +:+ name +:+ "}")) = JStr (env_or env name "").
Proof.
  unfold resolve_value.
  replace (startsWith "${" ("${" +:+ name +:+ "}")) with true
    by (unfold startsWith; cbn [String.append];
        rewrite !prefix_cons, prefix_nil; reflexivity).
  change ("${" +:+ name +:+ "}") with ("${" +:+ (name +:+ "}")) at 1.
  rewrite <- append_assoc, endsWith_append. cbn [andb].
  unfold slice_2_m1. rewrite !length_append. cbn [String.append String.length].
  replace (2 + String.length name + 1 - 3)%nat with (String.length name) by lia.
  change (String.substring 2 (String.length name) (String "$" (String "{" (name +:+ "}"))))
    with (String.substring 0 (String.length name) (name +:+ "}")).
  rewrite substring_prefix. reflexivity.
Qed.

Lemma obj_set_lookup {V} (o : gmap string V) key v :
  key <> "__proto__" -> obj_set o key v !! key = Some v.
Proof.
  intros Hk. unfold obj_set. apply String.eqb_neq in Hk. rewrite Hk.
  apply lookup_insert_eq.
Qed.

Lemma obj_set_lookup_other {V} (o : gmap string V) key v key' :
  key <> key' -> obj_set o key v !! key' = o !! key'.
Proof.
  intros Hk. unfold obj_set. destruct (String.eqb key "__proto__"); [reflexivity|].
  apply lookup_insert_ne. exact Hk.
Qed.

Lemma resolve_fold_other env envConfig key : forall resolved,
  ~ In key (map fst envConfig) ->
  fold_left (fun resolved '(key, value) => obj_set resolved key (resolve_value env value))
            envConfig resolved !! key
  = resolved !! key.
Proof.
  induction envConfig as [|[k v] envConfig IH]; intros resolved Hnot; [reflexivity|].
  cbn [fold_left]. rewrite IH by (intros H; apply Hnot; right; exact H).
  apply obj_set_lookup_other. intros ->. apply Hnot. left. reflexivity.
Qed.

Lemma resolveEnvVariables_lookup env before key value after :
  key <> "__proto__" -> ~ In key (map fst after) ->
  resolveEnvVariables env (before ++ (key, value) :: after) !! key
  = Some (resolve_value env value).
Proof.
  intros Hk Hnot. unfold resolveEnvVariables. rewrite fold_left_app. cbn [fold_left].
  rewrite resolve_fold_other by exact Hnot. apply obj_set_lookup. exact Hk.
Qed.

Lemma loadEnv_lookup_key env before key value after :
  key <> "__proto__" -> ~ In key (map fst after) ->
  fst (loadEnv env (Some (Normal {| mcp_env := Some (before ++ (key, value) :: after) |})))
  !! key = Some (js_String (resolve_value env value)).
Proof.
  intros Hk Hnot. unfold loadEnv. cbn [mcp_env fst].
  rewrite lookup_union, lookup_fmap.
  rewrite resolveEnvVariables_lookup by assumption.
  cbn. destruct (env !! key); reflexivity.
Qed.

(** X22. [loadEnv] with a side configuration: a variable configured as the
    placeholder of a name gets the value that name had in the environment
    before any override, the empty string if it was unset or empty; a
    variable configured as any other value gets that value's string
    conversion; a variable the configuration does not mention keeps its
    value. *)
Theorem loadEnv_overrides env before key value after :
  let envConfig := before ++ (key, value) :: after in
  let env' := fst (loadEnv env (Some (Normal {| mcp_env := Some envConfig |}))) in
  key <> "__proto__" -> ~ In key (map fst after) ->
  env' !! key = Some (js_String (resolve_value env value)) /\
  (forall name, value = JStr ("${" +:+ name +:+ "}") ->
                env' !! key = Some (env_or env name "")) /\
  (forall other, ~ In other (map fst envConfig) -> env' !! other = env !! other).
Proof.
  intros envConfig env' Hk Hnot.
  pose proof (loadEnv_lookup_key env before key value after Hk Hnot) as Hkey.
  fold envConfig in Hkey. fold env' in Hkey.
  split; [exact Hkey|]. split.
  - intros name ->. rewrite Hkey, resolve_placeholder. reflexivity.
  - intros other Hother. unfold env', loadEnv. cbn [mcp_env fst].
    rewrite lookup_union, lookup_fmap. unfold resolveEnvVariables.
    rewrite resolve_fold_other by exact Hother. rewrite lookup_empty. cbn.
    destruct (env !! other); reflexivity.
Qed.

Lemma loadEnv_overrides_witness :
  fst (loadEnv {[ "HOME_DB" := "warehouse" ]}
         (Some (Normal {| mcp_env := Some ([] ++ ("DORIS_HOST", JStr "${HOME_DB}") :: []) |})))
  !! "DORIS_HOST" = Some (js_String (resolve_value {[ "HOME_DB" := "warehouse" ]}
                                       (JStr "${HOME_DB}"))).
Proof.
  exact (proj1 (loadEnv_overrides {[ "HOME_DB" := "warehouse" ]} [] "DORIS_HOST"
                  (JStr "${HOME_DB}") []
                  ltac:(intros H; discriminate) ltac:(intros H; exact H))).
Defined.

(** X23. The host [getDorisConfig] returns after [loadEnv]. With
    [DORIS_HOST] set to a non-empty [x] in the environment and configured in
    the side configuration as its own placeholder, the host is [x]; with it
    unset in the environment and so configured, the host is [localhost], the
    empty string the placeholder resolved to counting as unset. With no side
    configuration, or one that cannot be read, the environment is left as it
    is, and an environment without the four variables gives [localhost], the
    port parsed from [9030], [root] and the empty password. *)
Theorem getDorisConfig_after_loadEnv parseInt env before after :
  let mcp := Some (Normal {| mcp_env :=
                   Some (before ++ ("DORIS_HOST", JStr "${DORIS_HOST}") :: after) |}) in
  (~ In "DORIS_HOST" (map fst after) ->
   (forall x, env !! "DORIS_HOST" = Some x -> x <> "" ->
              env_host (getDorisConfig parseInt (fst (loadEnv env mcp))) = x) /\
   (env !! "DORIS_HOST" = None ->
    env_host (getDorisConfig parseInt (fst (loadEnv env mcp))) = "localhost")) /\
  (forall error, fst (loadEnv env None) = env /\ fst (loadEnv env (Some (Throw error))) = env) /\
  (env !! "DORIS_HOST" = None -> env !! "DORIS_PORT" = None ->
   env !! "DORIS_USER" = None -> env !! "DORIS_PASSWORD" = None ->
   getDorisConfig parseInt (fst (loadEnv env None))
   = {| env_host := "localhost"; env_port := parseInt "9030";
        env_user := "root"; env_password := "" |}).
Proof.
  intros mcp. split; [|split].
  - intros Hnot.
    assert (Hph : fst (loadEnv env mcp) !! "DORIS_HOST"
                  = Some (env_or env "DORIS_HOST" "")).
    { unfold mcp. rewrite loadEnv_lookup_key by (assumption || (intros H; discriminate)).
      exact (f_equal (fun v => Some (js_String v))
                     (resolve_placeholder env "DORIS_HOST")). }
    split.
    + intros x Hx Hne. unfold getDorisConfig. cbn [env_host].
      unfold env_or at 1. rewrite Hph. unfold env_or. rewrite Hx.
      apply String.eqb_neq in Hne. rewrite Hne, Hne. reflexivity.
    + intros Hx. unfold getDorisConfig. cbn [env_host].
      unfold env_or at 1. rewrite Hph. unfold env_or. rewrite Hx. reflexivity.
  - intros error. split; reflexivity.
  - intros Hh Hp Hu Hw. unfold getDorisConfig, env_or. cbn [loadEnv fst].
    rewrite Hh, Hp, Hu, Hw. reflexivity.
Qed.

Lemma getDorisConfig_after_loadEnv_witness :
  env_host (getDorisConfig (fun _ => JNum 9030)
              (fst (loadEnv {[ "DORIS_HOST" := "db.internal" ]}
                      (Some (Normal {| mcp_env :=
                         Some ([] ++ ("DORIS_HOST", JStr "${DORIS_HOST}") :: []) |})))))
  = "db.internal".
Proof.
  apply (proj1 (proj1 (getDorisConfig_after_loadEnv (fun _ => JNum 9030)
                          {[ "DORIS_HOST" := "db.internal" ]} [] [])
                  ltac:(intros H; exact H)) "db.internal").
  - reflexivity.
  - intros H. discriminate.
Defined.

(* ===================================================================== *)
(** * Small byte counts *)
(* ===================================================================== *)

Lemma strip_zeros_scaled dm : forall n,
  strip_zeros dm (n * 10 ^ Z.of_nat dm) = (O, n).
Proof.
  induction dm as [|dm IH]; intros n.
  - cbn. f_equal. lia.
  - cbn [strip_zeros].
    replace (n * 10 ^ Z.of_nat (S dm)) with ((n * 10 ^ Z.of_nat dm) * 10)
      by (rewrite Nat2Z.inj_succ, Z.pow_succ_r by lia; lia).
    rewrite Z.mod_mul by lia. cbn [Z.eqb].
    rewrite Z.div_mul by lia. apply IH.
Qed.

(** X24. A byte count from 1 to 1023 is printed whole, with the unit
    Bytes, whatever number of decimals from 0 to 100 is asked for: the
    trailing zeros of the fixed notation are dropped. *)
Theorem formatBytes_below_1024 bytes dm :
  1 <= bytes < 1024 -> 0 <= dm <= 100 ->
  formatBytes bytes (Some dm) = Normal (pretty bytes +:+ " Bytes").
Proof.
  intros Hb Hdm. unfold formatBytes. change (default 2 (Some dm)) with dm. cbv zeta.
  replace (bytes =? 0) with false by (symmetry; apply Z.eqb_neq; lia).
  replace (dm <? 0) with false by (symmetry; apply Z.ltb_ge; lia).
  replace (100 <? dm) with false by (symmetry; apply Z.ltb_ge; lia).
  replace (bytes <? 0) with false by (symmetry; apply Z.ltb_ge; lia).
  assert (Hi : unit_index bytes = 0).
  { unfold unit_index. apply Z.div_small. split; [apply Z.log2_nonneg|].
    assert (H : Z.log2 bytes < 10); [|lia].
    apply Z.log2_lt_pow2; [lia|]. change (2 ^ 10) with 1024. lia. }
  rewrite Hi. change (1024 ^ 0) with 1. change (Z.to_nat 0) with O.
  cbn [nth sizes].
  assert (Hn : toFixed_scaled bytes 1 dm = bytes * 10 ^ Z.of_nat (Z.to_nat dm)).
  { unfold toFixed_scaled. rewrite Z2Nat.id by lia.
    replace (2 * bytes * 10 ^ dm + 1) with (1 + (bytes * 10 ^ dm) * (2 * 1)) by lia.
    rewrite Z.div_add by lia. change (1 / (2 * 1)) with 0. lia. }
  rewrite Hn. unfold decimal_text. rewrite strip_zeros_scaled. reflexivity.
Qed.

Lemma formatBytes_below_1024_witness :
  formatBytes 512 (Some 3) = Normal (pretty 512 +:+ " Bytes").
Proof. apply (formatBytes_below_1024 512 3); lia. Defined.

(* ===================================================================== *)
(** * Rounding to the nearest double *)
(* ===================================================================== *)

Section Rounding.
Import Float64.
Local Open Scope Q_scope.

Lemma pow2_pos e : 0 < pow2 e.
Proof. apply Qpower_0_lt. reflexivity. Qed.

Lemma pow2_add a b : pow2 (a + b) == pow2 a * pow2 b.
Proof. apply Qpower_plus. discriminate. Qed.

Lemma pow2_le a b : (a <= b)%Z -> pow2 a <= pow2 b.
Proof. intros H. apply Qpower_le_compat_l; [exact H | discriminate]. Qed.

Lemma pow2_lt a b : (a < b)%Z -> pow2 a < pow2 b.
Proof. intros H. apply Qpower_lt_compat_l; [exact H | reflexivity]. Qed.

Lemma pow2_lt_inv a b : pow2 a < pow2 b -> (a < b)%Z.
Proof. intros H. apply (Qpower_lt_compat_l_inv 2); [exact H | reflexivity]. Qed.

Lemma pow2_Z e : (0 <= e)%Z -> pow2 e == inject_Z (2 ^ e).
Proof. intros H. unfold pow2. rewrite Zpower_Qpower by exact H. reflexivity. Qed.

Lemma pow2_succ e : pow2 (e + 1) == 2 * pow2 e.
Proof. rewrite pow2_add. change (pow2 1) with 2. ring. Qed.

Lemma inject_Z_le a b : (a <= b)%Z -> inject_Z a <= inject_Z b.
Proof. intros H. rewrite <- Zle_Qle. exact H. Qed.

Lemma inject_Z_lt a b : (a < b)%Z -> inject_Z a < inject_Z b.
Proof. intros H. rewrite <- Zlt_Qlt. exact H. Qed.

(** The floor of the binary logarithm brackets a positive rational. *)
Lemma Qlog2_spec q : 0 < q -> pow2 (Qlog2 q) <= q /\ q < pow2 (Qlog2 q + 1).
Proof.
  intros Hq. destruct q as [n d]. unfold Qlog2. cbn [Qnum Qden].
  assert (Hn : (0 < n)%Z) by (unfold Qlt in Hq; cbn in Hq; lia).
  set (a := Z.log2 n). set (b := Z.log2 (Z.pos d)).
  destruct (Z.log2_spec n Hn) as [Ha1 Ha2]. fold a in Ha1, Ha2.
  destruct (Z.log2_spec (Z.pos d) ltac:(lia)) as [Hb1 Hb2]. fold b in Hb1, Hb2.
  assert (Ha0 : (0 <= a)%Z) by apply Z.log2_nonneg.
  assert (Hb0 : (0 <= b)%Z) by apply Z.log2_nonneg.
  assert (Hq' : n # d == inject_Z n / inject_Z (Z.pos d)) by apply Qmake_Qdiv.
  assert (Hd : 0 < inject_Z (Z.pos d)) by reflexivity.
  (* 2^(a-b-1) < n/d < 2^(a-b+1) *)
  assert (Hlow : pow2 (a - b - 1) < n # d).
  { rewrite Hq'. apply Qlt_shift_div_l; [exact Hd|].
    apply Qlt_le_trans with (pow2 (a - b - 1) * pow2 (b + 1)).
    - apply Qmult_lt_l; [apply pow2_pos|].
      rewrite pow2_Z by lia. rewrite Z.add_1_r. apply inject_Z_lt. exact Hb2.
    - rewrite <- pow2_add. replace (a - b - 1 + (b + 1))%Z with a by lia.
      rewrite pow2_Z by lia. apply inject_Z_le. exact Ha1. }
  assert (Hhigh : n # d < pow2 (a - b + 1)).
  { rewrite Hq'. apply Qlt_shift_div_r; [exact Hd|].
    apply Qlt_le_trans with (pow2 (a - b + 1) * pow2 b).
    - rewrite <- pow2_add. replace (a - b + 1 + b)%Z with (a + 1)%Z by lia.
      rewrite pow2_Z by lia. rewrite Z.add_1_r. apply inject_Z_lt. exact Ha2.
    - apply Qmult_le_l; [apply pow2_pos|].
      rewrite pow2_Z by lia. apply inject_Z_le. exact Hb1. }
  destruct (Qle_bool (pow2 (a - b)) (n # d)) eqn:Hle.
  - apply Qle_bool_iff in Hle. split; [exact Hle | exact Hhigh].
  - split; [apply Qlt_le_weak; exact Hlow|].
    replace (a - b - 1 + 1)%Z with (a - b)%Z by lia.
    apply Qnot_le_lt. intros H. apply Qle_bool_iff in H. congruence.
Qed.

Lemma Qlog2_unique q l : pow2 l <= q -> q < pow2 (l + 1) -> Qlog2 q = l.
Proof.
  intros H1 H2.
  assert (Hq : 0 < q) by (apply Qlt_le_trans with (pow2 l); [apply pow2_pos | exact H1]).
  destruct (Qlog2_spec q Hq) as [H3 H4].
  assert (Ha : (l < Qlog2 q + 1)%Z).
  { apply pow2_lt_inv. apply Qle_lt_trans with q; assumption. }
  assert (Hb : (Qlog2 q < l + 1)%Z).
  { apply pow2_lt_inv. apply Qle_lt_trans with q; assumption. }
  lia.
Qed.

Lemma Qlog2_compat q q' : 0 < q -> q == q' -> Qlog2 q = Qlog2 q'.
Proof.
  intros Hq E. symmetry. destruct (Qlog2_spec q Hq) as [H1 H2].
  apply Qlog2_unique; rewrite <- E; assumption.
Qed.

Lemma Qlog2_mono x y : 0 < x -> x <= y -> (Qlog2 x <= Qlog2 y)%Z.
Proof.
  intros Hx Hxy.
  assert (Hy : 0 < y) by (apply Qlt_le_trans with x; assumption).
  destruct (Qlog2_spec x Hx) as [H1 _]. destruct (Qlog2_spec y Hy) as [_ H2].
  assert (H : (Qlog2 x < Qlog2 y + 1)%Z); [|lia].
  apply pow2_lt_inv. apply Qle_lt_trans with x; [exact H1|].
  apply Qle_lt_trans with y; assumption.
Qed.
Lemma round_even_range q :
  (Qfloor q <= round_even q <= Qfloor q + 1)%Z.
Proof.
  unfold round_even. destruct (Qcompare (q - inject_Z (Qfloor q)) (1 # 2));
    [destruct (Z.even (Qfloor q))|..]; lia.
Qed.

(** The nearest integer is within one half. *)
Lemma round_even_near q :
  inject_Z (round_even q) - (1 # 2) <= q /\ q <= inject_Z (round_even q) + (1 # 2).
Proof.
  pose proof (Qfloor_le q) as H1. pose proof (Qlt_floor q) as H2.
  rewrite inject_Z_plus in H2. change (inject_Z 1) with 1 in H2.
  unfold round_even.
  destruct (Qcompare_spec (q - inject_Z (Qfloor q)) (1 # 2)) as [E|E|E].
  - destruct (Z.even (Qfloor q)).
    + split; lra.
    + rewrite inject_Z_plus. change (inject_Z 1) with 1. split; lra.
  - split; lra.
  - rewrite inject_Z_plus. change (inject_Z 1) with 1. split; lra.
Qed.

Lemma round_even_compat q q' : q == q' -> round_even q = round_even q'.
Proof.
  intros E. unfold round_even.
  assert (H : Qfloor q = Qfloor q') by (apply Qfloor_comp; exact E).
  rewrite <- H.
  assert (Hc : (q - inject_Z (Qfloor q) ?= 1 # 2) = (q' - inject_Z (Qfloor q) ?= 1 # 2)).
  { apply Qcompare_comp; [|reflexivity]. apply Qminus_comp; [exact E | reflexivity]. }
  rewrite Hc. reflexivity.
Qed.

Lemma round_even_Z z : round_even (inject_Z z) = z.
Proof.
  unfold round_even. rewrite Qfloor_Z.
  destruct (Qcompare_spec (inject_Z z - inject_Z z) (1 # 2)) as [E|E|E].
  - exfalso. lra.
  - reflexivity.
  - exfalso. lra.
Qed.

Lemma round_even_mono x y : x <= y -> (round_even x <= round_even y)%Z.
Proof.
  intros Hxy. pose proof (Qfloor_resp_le x y Hxy) as Hf.
  pose proof (round_even_range x) as Hx. pose proof (round_even_range y) as Hy.
  destruct (Z.eq_dec (Qfloor x) (Qfloor y)) as [E|NE]; [|lia].
  unfold round_even. rewrite <- E.
  destruct (Qcompare_spec (x - inject_Z (Qfloor x)) (1 # 2)) as [Ex|Ex|Ex];
    destruct (Qcompare_spec (y - inject_Z (Qfloor x)) (1 # 2)) as [Ey|Ey|Ey];
    try (destruct (Z.even (Qfloor x))); try lia; exfalso; lra.
Qed.
(** Scaling by the unit of the last place and back. *)
Lemma scaled_le x y e : x <= y -> x / pow2 e <= y / pow2 e.
Proof.
  intros H. unfold Qdiv. apply Qmult_le_compat_r; [exact H|].
  apply Qlt_le_weak. apply Qinv_lt_0_compat. apply pow2_pos.
Qed.

Lemma scaled_back x e : x / pow2 e * pow2 e == x.
Proof. field. intros H. pose proof (pow2_pos e) as P. rewrite H in P. discriminate P. Qed.

Lemma ulp_exp_mono x y : 0 < x -> x <= y -> (ulp_exp x <= ulp_exp y)%Z.
Proof. intros Hx Hxy. unfold ulp_exp. pose proof (Qlog2_mono x y Hx Hxy). lia. Qed.

Lemma ulp_exp_compat q q' : 0 < q -> q == q' -> ulp_exp q = ulp_exp q'.
Proof. intros Hq E. unfold ulp_exp. rewrite (Qlog2_compat q q' Hq E). reflexivity. Qed.

Lemma fl53_pos_compat q q' : 0 < q -> q == q' -> fl53_pos q == fl53_pos q'.
Proof.
  intros Hq E. unfold fl53_pos. cbv zeta. rewrite <- (ulp_exp_compat q q' Hq E).
  rewrite (round_even_compat (q / pow2 (ulp_exp q)) (q' / pow2 (ulp_exp q))).
  - reflexivity.
  - apply Qdiv_comp; [exact E | reflexivity].
Qed.

Lemma fl53_pos_nonneg q : 0 < q -> 0 <= fl53_pos q.
Proof.
  intros Hq. unfold fl53_pos. cbv zeta. apply Qmult_le_0_compat.
  - change 0 with (inject_Z 0). apply inject_Z_le.
    rewrite <- (round_even_Z 0). apply round_even_mono.
    change (inject_Z 0) with 0. apply Qle_shift_div_l; [apply pow2_pos|]. lra.
  - apply Qlt_le_weak. apply pow2_pos.
Qed.

(** Below the top of its binade's scale. *)
Lemma scaled_lt_top q : 0 < q -> q / pow2 (ulp_exp q) < inject_Z (2 ^ 53).
Proof.
  intros Hq. destruct (Qlog2_spec q Hq) as [_ H2].
  apply Qlt_shift_div_r; [apply pow2_pos|].
  apply Qlt_le_trans with (pow2 (Qlog2 q + 1)); [exact H2|].
  rewrite <- pow2_Z by lia. rewrite <- pow2_add. apply pow2_le. unfold ulp_exp. lia.
Qed.

(** A normal number scales to at least 2^52. *)
Lemma scaled_ge_normal q :
  0 < q -> ulp_exp q = (Qlog2 q - 52)%Z -> inject_Z (2 ^ 52) <= q / pow2 (ulp_exp q).
Proof.
  intros Hq He. destruct (Qlog2_spec q Hq) as [H1 _].
  apply Qle_shift_div_l; [apply pow2_pos|].
  rewrite <- pow2_Z by lia. rewrite <- pow2_add. rewrite He.
  replace (52 + (Qlog2 q - 52))%Z with (Qlog2 q) by lia. exact H1.
Qed.

Lemma fl53_pos_mono x y : 0 < x -> x <= y -> fl53_pos x <= fl53_pos y.
Proof.
  intros Hx Hxy.
  assert (Hy : 0 < y) by (apply Qlt_le_trans with x; assumption).
  pose proof (ulp_exp_mono x y Hx Hxy) as He.
  unfold fl53_pos. cbv zeta.
  destruct (Z.eq_dec (ulp_exp x) (ulp_exp y)) as [E|NE].
  - rewrite <- E. apply Qmult_le_compat_r; [|apply Qlt_le_weak; apply pow2_pos].
    apply inject_Z_le. apply round_even_mono. apply scaled_le. exact Hxy.
  - assert (Hny : ulp_exp y = (Qlog2 y - 52)%Z) by (unfold ulp_exp in *; lia).
    apply Qle_trans with (inject_Z (2 ^ 53) * pow2 (ulp_exp x)).
    + apply Qmult_le_compat_r; [|apply Qlt_le_weak; apply pow2_pos].
      apply inject_Z_le. rewrite <- (round_even_Z (2 ^ 53)).
      apply round_even_mono. apply Qlt_le_weak. apply scaled_lt_top. exact Hx.
    + apply Qle_trans with (inject_Z (2 ^ 52) * pow2 (ulp_exp y)).
      * rewrite <- !pow2_Z by lia. rewrite <- !pow2_add. apply pow2_le. lia.
      * apply Qmult_le_compat_r; [|apply Qlt_le_weak; apply pow2_pos].
        apply inject_Z_le. rewrite <- (round_even_Z (2 ^ 52)) at 1.
        apply round_even_mono. apply scaled_ge_normal; assumption.
Qed.

Lemma fl53_compat q q' : q == q' -> fl53 q == fl53 q'.
Proof.
  intros E. unfold fl53.
  assert (Hc : (q ?= 0) = (q' ?= 0)) by (apply Qcompare_comp; [exact E | reflexivity]).
  rewrite <- Hc. destruct (Qcompare_spec q 0) as [H|H|H].
  - reflexivity.
  - apply Qopp_comp. apply fl53_pos_compat; [lra|]. apply Qopp_comp. exact E.
  - apply fl53_pos_compat; assumption.
Qed.

(** Rounding to the nearest double is monotone. *)
Lemma fl53_mono x y : x <= y -> fl53 x <= fl53 y.
Proof.
  intros Hxy. unfold fl53.
  destruct (Qcompare_spec x 0) as [Hx|Hx|Hx]; destruct (Qcompare_spec y 0) as [Hy|Hy|Hy];
    try (exfalso; lra); try lra.
  - apply fl53_pos_nonneg. exact Hy.
  - pose proof (fl53_pos_nonneg (- x) ltac:(lra)). lra.
  - pose proof (fl53_pos_mono (- y) (- x) ltac:(lra) ltac:(lra)). lra.
  - pose proof (fl53_pos_nonneg (- x) ltac:(lra)).
    pose proof (fl53_pos_nonneg y Hy). lra.
  - apply fl53_pos_mono; assumption.
Qed.
(** A number with a mantissa of at most 53 bits is a double: rounding keeps
    it. *)
Lemma fl53_pos_exact q m E :
  (0 < m < 2 ^ 53)%Z -> (-1074 <= E)%Z -> q == inject_Z m * pow2 E ->
  fl53_pos q == q.
Proof.
  intros Hm HE Hq.
  assert (Hpos : 0 < q).
  { rewrite Hq. apply Qmult_lt_0_compat; [|apply pow2_pos].
    change 0 with (inject_Z 0). apply inject_Z_lt. lia. }
  destruct (Qlog2_spec q Hpos) as [H1 _].
  assert (Htop : q < pow2 (53 + E)).
  { rewrite Hq, pow2_add. apply Qmult_lt_compat_r; [apply pow2_pos|].
    rewrite pow2_Z by lia. apply inject_Z_lt. lia. }
  assert (HL : (Qlog2 q < 53 + E)%Z).
  { apply pow2_lt_inv. apply Qle_lt_trans with q; assumption. }
  assert (He : (ulp_exp q <= E)%Z) by (unfold ulp_exp; lia).
  unfold fl53_pos. cbv zeta. set (e := ulp_exp q) in *.
  assert (Hs : q / pow2 e == inject_Z (m * 2 ^ (E - e))).
  { rewrite inject_Z_mult, <- pow2_Z by lia. rewrite Hq.
    replace E with ((E - e) + e)%Z at 1 by lia. rewrite pow2_add.
    field. intros H. pose proof (pow2_pos e) as P. rewrite H in P. discriminate P. }
  rewrite (round_even_compat _ _ Hs), round_even_Z.
  rewrite inject_Z_mult, <- pow2_Z by lia. rewrite Hq.
  replace E with ((E - e) + e)%Z at 2 by lia. rewrite pow2_add. ring.
Qed.

Lemma fl53_exact m E :
  (- 2 ^ 53 < m < 2 ^ 53)%Z -> (-1074 <= E)%Z ->
  fl53 (inject_Z m * pow2 E) == inject_Z m * pow2 E.
Proof.
  intros Hm HE. pose proof (pow2_pos E) as P. unfold fl53.
  destruct (Qcompare_spec (inject_Z m * pow2 E) 0) as [H|H|H].
  - symmetry. exact H.
  - assert (Hneg : (m < 0)%Z).
    { destruct (Z_lt_le_dec m 0) as [Hlt|Hge]; [exact Hlt|]. exfalso.
      assert (0 <= inject_Z m * pow2 E); [|lra].
      apply Qmult_le_0_compat; [|lra]. change 0 with (inject_Z 0).
      apply inject_Z_le. exact Hge. }
    rewrite (fl53_pos_exact _ (- m) E); [ring | lia | exact HE |].
    rewrite inject_Z_opp. ring.
  - assert (Hp : (0 < m)%Z).
    { destruct (Z_lt_le_dec 0 m) as [Hlt|Hge]; [exact Hlt|]. exfalso.
      assert (inject_Z m * pow2 E <= 0); [|lra].
      assert (inject_Z m <= 0) by (change 0 with (inject_Z 0); apply inject_Z_le; exact Hge).
      assert (Hr : inject_Z m * pow2 E == - ((- inject_Z m) * pow2 E)) by ring.
      assert (0 <= (- inject_Z m) * pow2 E) by (apply Qmult_le_0_compat; lra). lra. }
    apply (fl53_pos_exact _ m E); [lia | exact HE | reflexivity].
Qed.

(** Integers of magnitude up to 2^53 are doubles. *)
Lemma fl53_Z z : (- 2 ^ 53 <= z <= 2 ^ 53)%Z -> fl53 (inject_Z z) == inject_Z z.
Proof.
  intros Hz.
  destruct (Z.eq_dec z (2 ^ 53)%Z) as [->|H1];
    [|destruct (Z.eq_dec z (- 2 ^ 53)%Z) as [->|H2]].
  - rewrite (fl53_compat _ (inject_Z (2 ^ 52)%Z * pow2 1)).
    + rewrite fl53_exact by lia. reflexivity.
    + reflexivity.
  - rewrite (fl53_compat _ (inject_Z (- 2 ^ 52)%Z * pow2 1)).
    + rewrite fl53_exact by lia. reflexivity.
    + reflexivity.
  - rewrite (fl53_compat _ (inject_Z z * pow2 0)).
    + rewrite fl53_exact by lia. change (pow2 0) with 1. ring.
    + change (pow2 0) with 1. ring.
Qed.

(** The rounding error is at most half a unit of the last place. *)
Lemma fl53_pos_error q :
  0 < q ->
  fl53_pos q - pow2 (ulp_exp q) * (1 # 2) <= q /\
  q <= fl53_pos q + pow2 (ulp_exp q) * (1 # 2).
Proof.
  intros Hq. unfold fl53_pos. cbv zeta. set (e := ulp_exp q).
  pose proof (pow2_pos e) as P.
  destruct (round_even_near (q / pow2 e)) as [H1 H2].
  set (r := inject_Z (round_even (q / pow2 e))) in *.
  pose proof (scaled_back q e) as Hb. fold e in Hb.
  assert (H1' : (r - (1 # 2)) * pow2 e <= q / pow2 e * pow2 e)
    by (apply Qmult_le_compat_r; lra).
  assert (H2' : q / pow2 e * pow2 e <= (r + (1 # 2)) * pow2 e)
    by (apply Qmult_le_compat_r; lra).
  rewrite Hb in H1', H2'. split; lra.
Qed.

(** For a number in the normal range the error is at most [2^-53] of it. *)
Lemma fl53_pos_relative q :
  pow2 (-1022) <= q ->
  q * (1 - pow2 (-53)) <= fl53_pos q /\ fl53_pos q <= q * (1 + pow2 (-53)).
Proof.
  intros Hn.
  assert (Hq : 0 < q) by (apply Qlt_le_trans with (pow2 (-1022)); [apply pow2_pos | exact Hn]).
  destruct (fl53_pos_error q Hq) as [H1 H2].
  destruct (Qlog2_spec q Hq) as [HL HL'].
  assert (HL1 : (-1022 <= Qlog2 q)%Z).
  { assert (H : (-1022 < Qlog2 q + 1)%Z); [|lia].
    apply pow2_lt_inv. apply Qle_lt_trans with q; assumption. }
  assert (He : ulp_exp q = (Qlog2 q + (-52))%Z) by (unfold ulp_exp; lia).
  assert (Hu : pow2 (ulp_exp q) * (1 # 2) <= q * pow2 (-53)).
  { rewrite He, pow2_add.
    assert (Hh : pow2 (-53) == pow2 (-52) * (1 # 2)) by reflexivity.
    rewrite Hh, Qmult_assoc. apply Qmult_le_compat_r; [|discriminate].
    apply Qmult_le_compat_r; [exact HL | discriminate]. }
  split; lra.
Qed.

Lemma Qred_inject_Z z : Qred (inject_Z z) = inject_Z z.
Proof.
  apply Qred_identity. cbn. apply Z.gcd_1_r.
Qed.

Lemma fl53_0 : fl53 0 = 0.
Proof. reflexivity. Qed.

Lemma fl53_nonneg q : 0 <= q -> 0 <= fl53 q.
Proof. intros H. rewrite <- fl53_0. apply fl53_mono. exact H. Qed.

(** A rounded value between zero and the overflow threshold is a finite
    double. *)
Lemma to_double_finite q :
  0 <= fl53 q -> fl53 q < pow2 1024 -> to_double q = Num (Qred (fl53 q)).
Proof.
  intros H0 H1. unfold to_double. cbv zeta.
  replace (Qle_bool (pow2 1024) (Qabs (Qred (fl53 q)))) with false; [reflexivity|].
  symmetry. apply not_true_is_false. intros H. apply Qle_bool_iff in H.
  rewrite Qred_correct, Qabs_pos in H by exact H0. lra.
Qed.

Lemma to_double_bounded q :
  0 <= fl53 q -> fl53 q <= inject_Z (2 ^ 53) -> to_double q = Num (Qred (fl53 q)).
Proof.
  intros H0 H1. apply to_double_finite; [exact H0|].
  assert (Hp : pow2 53 < pow2 1024) by (apply pow2_lt; lia).
  rewrite pow2_Z in Hp by lia. lra.
Qed.


Lemma to_double_Z q z :
  (0 <= z <= 2 ^ 53)%Z -> fl53 q == inject_Z z -> to_double q = Num (inject_Z z).
Proof.
  intros Hz E.
  assert (H0 : 0 <= inject_Z z) by (change 0 with (inject_Z 0); apply inject_Z_le; lia).
  assert (H1 : inject_Z z <= inject_Z (2 ^ 53)) by (apply inject_Z_le; lia).
  rewrite to_double_bounded by (rewrite E; assumption).
  rewrite (Qred_complete _ _ E). rewrite Qred_inject_Z. reflexivity.
Qed.

Lemma of_Z_safe z : (0 <= z <= 2 ^ 53)%Z -> of_Z z = Num (inject_Z z).
Proof.
  intros Hz. unfold of_Z. apply to_double_Z; [exact Hz|]. apply fl53_Z. lia.
Qed.

Lemma Qeq_bool_false x y : ~ x == y -> Qeq_bool x y = false.
Proof.
  intros H. apply not_true_is_false. intros E. apply H. apply Qeq_bool_iff. exact E.
Qed.

Lemma Qle_bool_false x y : y < x -> Qle_bool x y = false.
Proof.
  intros H. apply not_true_is_false. intros E. apply Qle_bool_iff in E. lra.
Qed.

Lemma Qltb_false x y : y <= x -> Qltb x y = false.
Proof.
  intros H. unfold Qltb. apply negb_false_iff. apply Qle_bool_iff. exact H.
Qed.

Lemma Qltb_true x y : x < y -> Qltb x y = true.
Proof.
  intros H. unfold Qltb. apply negb_true_iff. apply Qle_bool_false. exact H.
Qed.

Lemma inject_Z_pos z : (0 < z)%Z -> 0 < inject_Z z.
Proof. intros H. change 0 with (inject_Z 0). apply inject_Z_lt. exact H. Qed.

Lemma inject_Z_nonneg z : (0 <= z)%Z -> 0 <= inject_Z z.
Proof. intros H. change 0 with (inject_Z 0). apply inject_Z_le. exact H. Qed.

(** The quotient of a part by the whole, as a double, lies between 0 and 1. *)
Lemma ratio_bounds c t :
  (0 <= c <= t)%Z -> (0 < t)%Z ->
  0 <= fl53 (inject_Z c / inject_Z t) /\ fl53 (inject_Z c / inject_Z t) <= 1.
Proof.
  intros Hc Ht. pose proof (inject_Z_pos t Ht) as Hq.
  pose proof (inject_Z_nonneg c ltac:(lia)) as Hc0.
  assert (Hct : inject_Z c <= inject_Z t) by (apply inject_Z_le; lia).
  split.
  - apply fl53_nonneg. apply Qle_shift_div_l; [exact Hq | lra].
  - assert (H1 : fl53 1 == 1) by (apply (fl53_Z 1); lia).
    rewrite <- H1. apply fl53_mono. apply Qle_shift_div_r; [exact Hq | lra].
Qed.

(** Rounding a number that is zero or in the normal range changes it by at
    most [2^-53] of itself. *)
Lemma fl53_relative q :
  q == 0 \/ pow2 (-1022) <= q ->
  q * (1 - pow2 (-53)) <= fl53 q /\ fl53 q <= q * (1 + pow2 (-53)).
Proof.
  intros [Hz | Hn].
  - rewrite (fl53_compat _ _ Hz), Hz. change (fl53 0) with 0. split; lra.
  - assert (Hq : 0 < q)
      by (apply Qlt_le_trans with (pow2 (-1022)); [apply pow2_pos | exact Hn]).
    unfold fl53. rewrite (proj1 (Qgt_alt _ _) Hq). apply fl53_pos_relative. exact Hn.
Qed.

Lemma share_accuracy c t s :
  (0 <= c <= t)%Z -> (0 < t <= 2 ^ 53)%Z -> (0 <= s <= 2 ^ 53)%Z ->
  let v := fl53 (Qred (fl53 (inject_Z c / inject_Z t)) * inject_Z s) in
  inject_Z c / inject_Z t * inject_Z s * (1 - pow2 (-51)) <= v /\
  v <= inject_Z c / inject_Z t * inject_Z s * (1 + pow2 (-51)).
Proof.
  intros Hc Ht Hs v.
  pose proof (inject_Z_pos t ltac:(lia)) as Hq.
  pose proof (inject_Z_nonneg s ltac:(lia)) as Hs0.
  pose proof (inject_Z_nonneg c ltac:(lia)) as Hc0.
  set (A := inject_Z c / inject_Z t) in *.
  set (S := inject_Z s) in *.
  set (u := pow2 (-53)).
  assert (HA0 : 0 <= A) by (apply Qle_shift_div_l; [exact Hq | lra]).
  assert (Hu : u == 1 # 9007199254740992) by reflexivity.
  assert (He : pow2 (-51) == 1 # 2251799813685248) by reflexivity.
  assert (HAn : A == 0 \/ pow2 (-1022) <= A).
  { destruct (Z.eq_dec c 0%Z) as [->|Hne].
    - left. unfold A. change (inject_Z 0) with 0. field. lra.
    - right. apply Qle_trans with (pow2 (-53)); [apply pow2_le; lia|].
      unfold A. apply Qle_shift_div_l; [exact Hq|].
      apply Qle_trans with (pow2 (-53) * inject_Z (2 ^ 53)).
      + apply Qmult_le_l; [apply pow2_pos | apply inject_Z_le; lia].
      + assert (E : pow2 (-53) * inject_Z (2 ^ 53) == 1) by reflexivity.
        rewrite E. apply (inject_Z_le 1). lia. }
  destruct (fl53_relative A HAn) as [Hr1 Hr2]. fold u in Hr1, Hr2.
  set (r := Qred (fl53 A)) in *.
  assert (Er : r == fl53 A) by apply Qred_correct.
  assert (HrS : r * S == 0 \/ pow2 (-1022) <= r * S).
  { destruct (Z.eq_dec s 0%Z) as [->|Hs1]; [left; unfold S; change (inject_Z 0) with 0; ring|].
    destruct HAn as [HA | HA].
    - left. rewrite Er, (fl53_compat _ _ HA). change (fl53 0) with 0. ring.
    - right. assert (HA53 : pow2 (-53) <= A).
      { destruct (Z.eq_dec c 0%Z) as [->|Hne].
        - exfalso. unfold A in HA. pose proof (pow2_pos (-1022)) as P.
          assert (E0 : inject_Z 0 / inject_Z t == 0) by (change (inject_Z 0) with 0; field; lra).
          rewrite E0 in HA. lra.
        - unfold A. apply Qle_shift_div_l; [exact Hq|].
          apply Qle_trans with (pow2 (-53) * inject_Z (2 ^ 53)).
          + apply Qmult_le_l; [apply pow2_pos | apply inject_Z_le; lia].
          + assert (E : pow2 (-53) * inject_Z (2 ^ 53) == 1) by reflexivity.
            rewrite E. apply (inject_Z_le 1). lia. }
      assert (H1S : 1 <= S) by (apply (inject_Z_le 1); lia).
      apply Qle_trans with (pow2 (-54) * 1); [rewrite Qmult_1_r; apply pow2_le; lia|].
      apply Qmult_le_compat_nonneg.
      + split; [apply Qlt_le_weak; apply pow2_pos|]. rewrite Er.
        apply Qle_trans with (A * (1 - u)); [|exact Hr1].
        assert (E54 : pow2 (-54) == pow2 (-53) * (1 # 2)) by reflexivity.
        rewrite E54. apply Qmult_le_compat_nonneg.
        * split; [apply Qlt_le_weak; apply pow2_pos | exact HA53].
        * rewrite Hu. split; [discriminate | discriminate].
      + split; [lra | exact H1S]. }
  destruct (fl53_relative (r * S) HrS) as [Hv1 Hv2]. fold u in Hv1, Hv2. fold v in Hv1, Hv2.
  rewrite Er in Hv1, Hv2. rewrite He.
  assert (HAS : 0 <= A * S) by (apply Qmult_le_0_compat; assumption).
  assert (Hlo : A * S * (1 - (1 # 2251799813685248)) <= fl53 A * S * (1 - u)).
  { apply Qle_trans with (A * (1 - u) * S * (1 - u)).
    - rewrite Hu. 
      assert (Eq : A * (1 - (1 # 9007199254740992)) * S * (1 - (1 # 9007199254740992))
                   == A * S * ((1 - (1 # 9007199254740992)) * (1 - (1 # 9007199254740992))))
        by ring.
      rewrite Eq.
      apply Qmult_le_compat_nonneg; [split; [exact HAS | apply Qle_refl] | split; discriminate].
    - apply Qmult_le_compat_r; [|rewrite Hu; discriminate].
      apply Qmult_le_compat_r; [exact Hr1 | exact Hs0]. }
  assert (Hhi : fl53 A * S * (1 + u) <= A * S * (1 + (1 # 2251799813685248))).
  { apply Qle_trans with (A * (1 + u) * S * (1 + u)).
    - apply Qmult_le_compat_r; [|rewrite Hu; discriminate].
      apply Qmult_le_compat_r; [exact Hr2 | exact Hs0].
    - rewrite Hu.
      assert (Eq : A * (1 + (1 # 9007199254740992)) * S * (1 + (1 # 9007199254740992))
                   == A * S * ((1 + (1 # 9007199254740992)) * (1 + (1 # 9007199254740992))))
        by ring.
      rewrite Eq.
      apply Qmult_le_compat_nonneg; [split; [exact HAS | apply Qle_refl] | split; discriminate]. }
  split; lra.
Qed.

(** The rounded share is within one half of the exact share, up to
    [2^-51] of it. *)
Lemma share_nearest c t s :
  (0 <= c <= t)%Z -> (0 < t <= 2 ^ 53)%Z -> (0 <= s <= 2 ^ 53)%Z ->
  let k := Qfloor (Qred (fl53 (Qred (fl53 (inject_Z c / inject_Z t)) * inject_Z s)) + (1 # 2)) in
  (2 ^ 51 * (2 * k * t - t) <= (2 ^ 51 + 1) * (2 * (c * s)))%Z /\
  ((2 ^ 51 - 1) * (2 * (c * s)) < 2 ^ 51 * (2 * k * t + t))%Z.
Proof.
  intros Hc Ht Hs k.
  destruct (share_accuracy c t s Hc Ht Hs) as [H1 H2]. cbv zeta in H1, H2.
  set (v := fl53 (Qred (fl53 (inject_Z c / inject_Z t)) * inject_Z s)) in *.
  pose proof (Qfloor_le (Qred v + (1 # 2))) as Hk1.
  pose proof (Qlt_floor (Qred v + (1 # 2))) as Hk2.
  fold k in Hk1, Hk2. rewrite Qred_correct in Hk1, Hk2.
  rewrite inject_Z_plus in Hk2. change (inject_Z 1) with 1 in Hk2.
  pose proof (inject_Z_pos t ltac:(lia)) as Hq.
  assert (He : pow2 (-51) == 1 # 2251799813685248) by reflexivity.
  rewrite He in H1, H2.
  set (M := inject_Z 2251799813685248 * (2 * inject_Z t)).
  assert (HM : 0 < M) by (unfold M; apply Qmult_lt_0_compat; [reflexivity | lra]).
  change (2 ^ 51)%Z with 2251799813685248%Z.
  split.
  - rewrite Zle_Qle.
    assert (Ha : inject_Z (2251799813685248 * (2 * k * t - t)) == (inject_Z k - (1 # 2)) * M).
    { unfold M, Zminus. rewrite !inject_Z_mult, inject_Z_plus, inject_Z_opp, !inject_Z_mult.
      change (inject_Z 2) with 2. field. }
    assert (Hb : inject_Z ((2251799813685248 + 1) * (2 * (c * s)))
                 == inject_Z c / inject_Z t * inject_Z s * (1 + (1 # 2251799813685248)) * M).
    { unfold M. rewrite !inject_Z_mult. change (inject_Z 2) with 2.
      change (inject_Z (2251799813685248 + 1)) with (inject_Z 2251799813685249).
      field. lra. }
    rewrite Ha, Hb. apply Qmult_le_compat_r; [lra | lra].
  - rewrite Zlt_Qlt.
    assert (Ha : inject_Z (2251799813685248 * (2 * k * t + t)) == (inject_Z k + (1 # 2)) * M).
    { unfold M. rewrite !inject_Z_mult, inject_Z_plus, !inject_Z_mult.
      change (inject_Z 2) with 2. field. }
    assert (Hb : inject_Z ((2251799813685248 - 1) * (2 * (c * s)))
                 == inject_Z c / inject_Z t * inject_Z s * (1 - (1 # 2251799813685248)) * M).
    { unfold M. rewrite !inject_Z_mult. change (inject_Z 2) with 2.
      change (inject_Z (2251799813685248 - 1)) with (inject_Z 2251799813685247).
      field. lra. }
    rewrite Ha, Hb. apply Qmult_lt_compat_r; [exact HM | lra].
Qed.

(** [Math.round((part / whole) * scale)] in doubles: an integer between 0
    and the scale, 0 for no part and the scale for the whole, within one
    half of the exact share up to [2^-51] of it. *)
Lemma share_round c t s :
  (0 <= c <= t)%Z -> (0 < t <= 2 ^ 53)%Z -> (0 <= s <= 2 ^ 53)%Z ->
  exists k,
    Math_round (dmul (ddiv (Num (inject_Z c)) (Num (inject_Z t))) (Num (inject_Z s)))
    = Num (inject_Z k) /\
    (0 <= k <= s)%Z /\ (c = 0%Z -> k = 0%Z) /\ (c = t -> k = s) /\
    (2 ^ 51 * (2 * k * t - t) <= (2 ^ 51 + 1) * (2 * (c * s)))%Z /\
    ((2 ^ 51 - 1) * (2 * (c * s)) < 2 ^ 51 * (2 * k * t + t))%Z.
Proof.
  intros Hc Ht Hs.
  pose proof (inject_Z_pos t ltac:(lia)) as Hq.
  pose proof (inject_Z_nonneg s ltac:(lia)) as Hs0.
  destruct (ratio_bounds c t Hc ltac:(lia)) as [Hr0 Hr1].
  set (r := fl53 (inject_Z c / inject_Z t)) in *.
  assert (Hd : ddiv (Num (inject_Z c)) (Num (inject_Z t)) = Num (Qred r)).
  { unfold ddiv. rewrite Qeq_bool_false by lra.
    apply to_double_bounded; fold r; [exact Hr0|].
    apply Qle_trans with 1; [exact Hr1|]. apply (inject_Z_le 1). lia. }
  rewrite Hd. unfold dmul.
  assert (Hv0 : 0 <= Qred r * inject_Z s)
    by (apply Qmult_le_0_compat; [rewrite Qred_correct; exact Hr0 | exact Hs0]).
  assert (Hv1 : Qred r * inject_Z s <= inject_Z s).
  { rewrite Qred_correct. rewrite <- (Qmult_1_l (inject_Z s)) at 2.
    apply Qmult_le_compat_r; assumption. }
  assert (Hs53 : fl53 (inject_Z s) == inject_Z s) by (apply fl53_Z; lia).
  set (v := fl53 (Qred r * inject_Z s)).
  assert (Hw0 : 0 <= v) by (apply fl53_nonneg; exact Hv0).
  assert (Hw1 : v <= inject_Z s) by (rewrite <- Hs53; apply fl53_mono; exact Hv1).
  rewrite to_double_bounded; fold v;
    [|exact Hw0 | apply Qle_trans with (inject_Z s); [exact Hw1 | apply inject_Z_le; lia]].
  cbn [Math_round]. exists (Qfloor (Qred v + (1 # 2))).
  split; [reflexivity|].
  assert (Hk0 : (0 <= Qfloor (Qred v + (1 # 2)))%Z).
  { rewrite <- (Qfloor_Z 0). apply Qfloor_resp_le. rewrite Qred_correct.
    change (inject_Z 0) with 0. lra. }
  assert (Hk1 : (Qfloor (Qred v + (1 # 2)) <= s)%Z).
  { assert (H : (Qfloor (Qred v + (1 # 2)) < s + 1)%Z); [|lia].
    rewrite Zlt_Qlt.
    apply Qle_lt_trans with (Qred v + (1 # 2)); [apply Qfloor_le|].
    rewrite Qred_correct, inject_Z_plus. change (inject_Z 1) with 1. lra. }
  split; [lia|]. split; [|split; [|exact (share_nearest c t s Hc Ht Hs)]].
  - intros ->. 
    assert (Hr : r == 0).
    { unfold r. rewrite (fl53_compat _ 0); [reflexivity|]. 
      change (inject_Z 0) with 0. field. lra. }
    assert (Hv : v == 0).
    { unfold v. rewrite (fl53_compat _ 0); [reflexivity|]. rewrite Qred_correct, Hr. ring. }
    rewrite (Qfloor_comp _ (1 # 2)); [reflexivity|]. rewrite Qred_correct, Hv. ring.
  - intros ->.
    assert (Hr : r == 1).
    { unfold r. rewrite (fl53_compat _ 1); [apply (fl53_Z 1); lia|]. field. lra. }
    assert (Hv : v == inject_Z s).
    { unfold v. rewrite (fl53_compat _ (inject_Z s)); [exact Hs53|].
      rewrite Qred_correct, Hr. ring. }
    rewrite (Qfloor_comp _ (inject_Z s + (1 # 2))); [|rewrite Qred_correct, Hv; reflexivity].
    assert (H1 : (s <= Qfloor (inject_Z s + (1 # 2)))%Z).
    { rewrite <- (Qfloor_Z s) at 1. apply Qfloor_resp_le. lra. }
    assert (H2 : (Qfloor (inject_Z s + (1 # 2)) < s + 1)%Z).
    { rewrite Zlt_Qlt. apply Qle_lt_trans with (inject_Z s + (1 # 2)); [apply Qfloor_le|].
      rewrite inject_Z_plus. change (inject_Z 1) with 1. lra. }
    lia.
Qed.

End Rounding.

(* ===================================================================== *)
(** * Numerals *)
(* ===================================================================== *)

Section Numerals.
Import Float64.

(** The digits [pretty] writes are put in front of what is there already. *)
Lemma pretty_N_go_app x : forall s, pretty_N_go x s = pretty_N_go x "" +:+ s.
Proof.
  induction (N.lt_wf_0 x) as [x _ IH]. intros s.
  destruct (N.eq_dec x 0%N) as [->|Hx]; [reflexivity|].
  assert (Hpos : (0 < x)%N) by lia.
  rewrite (pretty_N_go_step x s Hpos), (pretty_N_go_step x "" Hpos).
  assert (Hlt : (x `div` 10 < x)%N) by (apply N.div_lt; lia).
  rewrite (IH _ Hlt (String _ s)), (IH _ Hlt (String _ "")).
  rewrite append_assoc. reflexivity.
Qed.

Lemma pretty_digit d : 0 <= d < 10 -> pretty d = String (digit_char d) "".
Proof.
  intros Hd.
  assert (H : d = 0 \/ d = 1 \/ d = 2 \/ d = 3 \/ d = 4 \/ d = 5 \/ d = 6 \/ d = 7
              \/ d = 8 \/ d = 9) by lia.
  repeat (destruct H as [->|H]; [reflexivity|]). subst d. reflexivity.
Qed.


(** The numeral of a number of two digits or more: the numeral of its tens,
    then its last digit. *)
Lemma pretty_step z : 10 <= z -> pretty z = pretty (z / 10) +:+ pretty (z mod 10).
Proof.
  intros Hz. destruct z as [|p|p]; try lia.
  assert (Hq : 0 < Z.pos p / 10) by (apply Z.div_str_pos; lia).
  destruct (Z.pos p / 10) as [|q|q] eqn:Eq; try lia.
  change (pretty (Z.pos p)) with (pretty (N.pos p)).
  change (pretty (Z.pos q)) with (pretty (N.pos q)).
  unfold pretty at 1 2, pretty_N.
  rewrite !decide_False by discriminate.
  rewrite pretty_N_go_step by lia.
  assert (Hd : (N.pos p `div` 10)%N = N.pos q).
  { apply N2Z.inj. rewrite N2Z.inj_div. cbn [Z.of_N]. exact Eq. }
  rewrite Hd, pretty_N_go_app. f_equal.
  rewrite pretty_digit by (apply Z.mod_pos_bound; lia).
  f_equal. unfold digit_char. f_equal.
  apply N2Z.inj. rewrite N2Z.inj_mod, Z2N.id by (apply Z.mod_pos_bound; lia).
  reflexivity.
Qed.

Lemma pow10_pos n : 0 <= n -> 0 < 10 ^ n.
Proof. intros H. apply Z.pow_pos_nonneg; lia. Qed.


Lemma length_digits f : forall m, String.length (digits f m) = f.
Proof.
  induction f as [|f IH]; intros m; [reflexivity|].
  cbn [digits]. rewrite length_append, IH.
  rewrite pretty_digit by (apply Z.mod_pos_bound; lia). cbn. lia.
Qed.


(** The number of digits of a numeral. *)
Lemma pretty_length z : 0 < z ->
  10 ^ (Z.of_nat (String.length (pretty z)) - 1) <= z
  < 10 ^ Z.of_nat (String.length (pretty z)).
Proof.
  intros Hz. assert (Hz0 : 0 <= z) by lia. revert Hz. pattern z.
  apply Z_lt_induction; [|exact Hz0]. clear z Hz0.
  intros z IH Hz.
  destruct (Z_lt_le_dec z 10) as [Hs|Hl].
  - rewrite pretty_digit by lia. cbn. lia.
  - rewrite pretty_step by exact Hl. rewrite length_append.
    pose proof (Z.mod_pos_bound z 10 ltac:(lia)) as Hm.
    rewrite (pretty_digit (z mod 10)) by exact Hm. cbn [String.length].
    assert (Hdiv : 0 <= z / 10 < z) by (split; [apply Z.div_pos; lia | apply Z.div_lt; lia]).
    assert (Hq : 0 < z / 10) by (apply Z.div_str_pos; lia).
    destruct (IH (z / 10) Hdiv Hq) as [H1 H2].
    set (k := String.length (pretty (z / 10))) in *.
    assert (Hk : (1 <= k)%nat).
    { destruct k; [|lia]. cbn in H2. lia. }
    rewrite Nat2Z.inj_add. change (Z.of_nat 1) with 1.
    replace (Z.of_nat k + 1 - 1) with ((Z.of_nat k - 1) + 1) by lia.
    rewrite !Z.pow_add_r by lia. change (10 ^ 1) with 10.
    pose proof (Z.div_mod z 10 ltac:(lia)). lia.
Qed.

Lemma pretty_0 : pretty 0 = "0".
Proof. reflexivity. Qed.


End Numerals.

Section ShortestNumeral.
Import Float64.
Local Open Scope Q_scope.

Lemma pow10_pos_Q e : 0 < pow10 e.
Proof. apply Qpower_0_lt. reflexivity. Qed.

Lemma pow10_add a b : pow10 (a + b) == pow10 a * pow10 b.
Proof. apply Qpower_plus. discriminate. Qed.

Lemma pow10_Z e : (0 <= e)%Z -> pow10 e == inject_Z (10 ^ e).
Proof. intros H. unfold pow10. rewrite Zpower_Qpower by exact H. reflexivity. Qed.

(** A grid point of a coarser decimal grid, on the finer grid. *)
Lemma coarser_grid c e E :
  (E <= e)%Z -> inject_Z c * pow10 e == inject_Z (c * 10 ^ (e - E)) * pow10 E.
Proof.
  intros H. rewrite inject_Z_mult, <- pow10_Z by lia.
  replace e with ((e - E) + E)%Z at 1 by lia. rewrite pow10_add. ring.
Qed.

Lemma round_trips_true x c e :
  (0 < c)%Z -> fl53 (inject_Z c * pow10 e) == x -> round_trips x c e = true.
Proof.
  intros Hc E. unfold round_trips. apply andb_true_intro. split.
  - apply Z.ltb_lt. exact Hc.
  - apply Qeq_bool_iff. exact E.
Qed.

Lemma round_trips_false x c e :
  ((0 < c)%Z -> ~ fl53 (inject_Z c * pow10 e) == x) -> round_trips x c e = false.
Proof.
  intros H. unfold round_trips. destruct (Z.ltb_spec 0 c) as [Hc|Hc]; [|reflexivity].
  cbn [andb]. apply Qeq_bool_false. apply H. exact Hc.
Qed.

Section Shortest.
Variable x : Q.
Variables D E : Z.
Hypothesis D_pos : (0 < D)%Z.
Hypothesis D_last : (D mod 10 <> 0)%Z.
Hypothesis D_trips : fl53 (inject_Z D * pow10 E) == x.
Hypothesis D_alone : forall C, (0 < C)%Z -> C <> D -> ~ fl53 (inject_Z C * pow10 E) == x.
Hypothesis D_near : inject_Z (D - 1) * pow10 E < x /\ x < inject_Z (D + 1) * pow10 E.

Lemma floor_near : Qfloor (x / pow10 E) = (D - 1)%Z \/ Qfloor (x / pow10 E) = D.
Proof.
  destruct D_near as [H1 H2]. pose proof (pow10_pos_Q E) as P.
  assert (Hlo : (D - 1 <= Qfloor (x / pow10 E))%Z).
  { rewrite <- (Qfloor_Z (D - 1)). apply Qfloor_resp_le.
    apply Qle_shift_div_l; [exact P | lra]. }
  assert (Hhi : (Qfloor (x / pow10 E) < D + 1)%Z).
  { rewrite Zlt_Qlt. apply Qle_lt_trans with (x / pow10 E); [apply Qfloor_le|].
    apply Qlt_shift_div_r; [exact P | lra]. }
  lia.
Qed.

(** Coarser grids hold no numeral that reads back as [x]. *)
Lemma coarser_fails c e : (E < e)%Z -> round_trips x c e = false.
Proof.
  intros He. apply round_trips_false. intros Hc.
  rewrite (fl53_compat _ _ (coarser_grid c e E ltac:(lia))).
  apply D_alone.
  - apply Z.mul_pos_pos; [exact Hc | apply pow10_pos; lia].
  - intros EqD. apply D_last. rewrite <- EqD.
    replace (e - E)%Z with (1 + (e - E - 1))%Z by lia.
    rewrite Z.pow_add_r by lia. change (10 ^ 1)%Z with 10%Z.
    rewrite Z.mul_assoc, (Z.mul_comm c 10), <- Z.mul_assoc.
    rewrite Z.mul_comm. apply Z.mod_mul. lia.
Qed.

Lemma shortest_go_found : forall fuel e,
  (E <= e)%Z -> (Z.to_nat (e - E) < fuel)%nat -> shortest_go fuel e x = (D, E).
Proof.
  induction fuel as [|fuel IH]; intros e He Hf; [lia|].
  cbn [shortest_go]. destruct (Z.eq_dec e E) as [->|Hne].
  - destruct floor_near as [Hlo | Hlo]; rewrite Hlo.
    + replace (D - 1 + 1)%Z with D by lia.
      rewrite (round_trips_true x D E D_pos D_trips).
      rewrite round_trips_false; [reflexivity|].
      intros Hc. apply D_alone; [exact Hc | lia].
    + rewrite (round_trips_true x D E D_pos D_trips).
      rewrite round_trips_false; [reflexivity|].
      intros Hc. apply D_alone; [exact Hc | lia].
  - rewrite !coarser_fails by lia. apply IH; lia.
Qed.

Lemma shortest_found :
  (-342 < E)%Z -> (E <= Z.max 0 (Qlog2 x) + 1)%Z -> shortest x = (D, E).
Proof.
  intros H1 H2. unfold shortest. cbv zeta. apply shortest_go_found; lia.
Qed.

Lemma strip10_last fuel : strip10 fuel D E = (D, E).
Proof.
  destruct fuel as [|fuel]; [reflexivity|]. cbn [strip10].
  destruct (Z.eqb_spec (D mod 10) 0) as [H|H]; [contradiction | reflexivity].
Qed.

(** The text of [x] when it needs no exponent. *)
Lemma positive_text_found :
  (-342 < E)%Z -> (E <= Z.max 0 (Qlog2 x) + 1)%Z ->
  (-6 < Z.of_nat (String.length (pretty D)) + E <= 21)%Z ->
  positive_text x
  = if (0 <=? E)%Z then pretty (D * 10 ^ E)%Z
    else pretty (D / 10 ^ (- E))%Z +:+ "." +:+ digits (Z.to_nat (- E)) (D mod 10 ^ (- E))%Z.
Proof.
  intros H1 H2 Hn. unfold positive_text. rewrite (shortest_found H1 H2).
  rewrite strip10_last. destruct (Z.leb_spec 0 E) as [HE|HE].
  - replace (Z.of_nat (String.length (pretty D)) + E <=? 21)%Z with true
      by (symmetry; apply Z.leb_le; lia).
    reflexivity.
  - cbn [andb]. replace (E <? 0)%Z with true by (symmetry; apply Z.ltb_lt; lia).
    replace (-6 <? Z.of_nat (String.length (pretty D)) + E)%Z with true
      by (symmetry; apply Z.ltb_lt; lia).
    replace (Z.of_nat (String.length (pretty D)) + E <=? 21)%Z with true
      by (symmetry; apply Z.leb_le; lia).
    reflexivity.
Qed.
End Shortest.

End ShortestNumeral.

(* ===================================================================== *)
(** * The progress bar in double precision *)
(* ===================================================================== *)

Section ProgressBar.
Import Float64.

(** A positive integer is a numeral without trailing zero times a power of
    ten. *)
Lemma decimal_factor z :
  0 < z -> exists D E, 0 < D /\ 0 <= E /\ D mod 10 <> 0 /\ z = D * 10 ^ E.
Proof.
  intros Hz. assert (Hz0 : 0 <= z) by lia. revert Hz. pattern z.
  apply Z_lt_induction; [|exact Hz0]. clear z Hz0. intros z IH Hz.
  destruct (Z.eq_dec (z mod 10) 0) as [Hm|Hm].
  - pose proof (Z.div_mod z 10 ltac:(lia)) as Hd.
    destruct (IH (z / 10) ltac:(lia) ltac:(lia)) as (D & E & HD & HE & HL & Heq).
    exists D, (E + 1). repeat split; try assumption; try lia.
    rewrite Z.pow_add_r by lia. change (10 ^ 1) with 10. lia.
  - exists z, 0. repeat split; try assumption; try lia.
Qed.

Lemma log2_ge_pow10 z E :
  0 <= E -> 10 ^ E <= z -> E <= Qlog2 (inject_Z z).
Proof.
  intros HE Hz.
  assert (Hpos : (0 < inject_Z z)%Q).
  { apply inject_Z_pos. pose proof (pow10_pos E HE). lia. }
  destruct (Qlog2_spec _ Hpos) as [_ H2].
  assert (H : E < Qlog2 (inject_Z z) + 1); [|lia].
  apply pow2_lt_inv. apply Qle_lt_trans with (inject_Z z); [|exact H2].
  rewrite pow2_Z by exact HE. apply inject_Z_le.
  apply Z.le_trans with (10 ^ E); [|exact Hz].
  apply Z.pow_le_mono_l. lia.
Qed.

(** An integer below 2^53 prints as its decimal numeral. *)
Lemma Number_toString_Z z :
  0 <= z < 2 ^ 53 -> Number_toString (Num (inject_Z z)) = pretty z.
Proof.
  intros Hz. unfold Number_toString.
  destruct (Z.eq_dec z 0) as [->|Hne]; [reflexivity|].
  assert (Hpos : (0 < inject_Z z)%Q) by (apply inject_Z_pos; lia).
  rewrite (proj1 (Qgt_alt _ _) Hpos).
  destruct (decimal_factor z ltac:(lia)) as (D & E & HD & HE & HL & Heq).
  pose proof (pow10_pos E HE) as HP.
  assert (Hval : forall C, (inject_Z C * pow10 E == inject_Z (C * 10 ^ E))%Q).
  { intros C. rewrite inject_Z_mult, <- pow10_Z by exact HE. reflexivity. }
  pose proof (pretty_length D HD) as [Hk1 Hk2].
  set (k := Z.of_nat (String.length (pretty D))) in *.
  assert (Hk : 1 <= k).
  { destruct (Z_lt_le_dec k 1) as [Hlt|]; [|assumption]. exfalso.
    assert (10 ^ k <= 10 ^ 0) by (apply Z.pow_le_mono_r; lia).
    change (10 ^ 0) with 1 in *. lia. }
  rewrite (positive_text_found (inject_Z z) D E HD HL).
  - replace (0 <=? E) with true by (symmetry; apply Z.leb_le; exact HE).
    rewrite <- Heq. reflexivity.
  - rewrite (fl53_compat _ _ (Hval D)), <- Heq. apply fl53_Z. lia.
  - intros C HC HCD Hfl. rewrite (fl53_compat _ _ (Hval C)) in Hfl.
    assert (Hc : C * 10 ^ E <> z) by nia.
    destruct (Z_lt_le_dec (C * 10 ^ E) z) as [Hlt|Hge].
    + assert (H : (fl53 (inject_Z (C * 10 ^ E)) <= fl53 (inject_Z (z - 1)))%Q)
        by (apply fl53_mono; apply inject_Z_le; lia).
      rewrite Hfl, (fl53_Z (z - 1)) in H by lia.
      rewrite <- Zle_Qle in H. lia.
    + assert (H : (fl53 (inject_Z (z + 1)) <= fl53 (inject_Z (C * 10 ^ E)))%Q)
        by (apply fl53_mono; apply inject_Z_le; lia).
      rewrite Hfl, (fl53_Z (z + 1)) in H by lia.
      rewrite <- Zle_Qle in H. lia.
  - rewrite !Hval. split; apply inject_Z_lt; nia.
  - lia.
  - pose proof (log2_ge_pow10 z E HE ltac:(nia)). lia.
  - fold k. split; [lia|].
    assert (H : k - 1 + E < 16); [|lia].
    apply (Z.pow_lt_mono_r_iff 10); [lia | lia |].
    rewrite Z.pow_add_r by lia.
    apply Z.le_lt_trans with z; [nia|].
    apply Z.lt_trans with (2 ^ 53); [lia | reflexivity].
Qed.

Lemma length_repeat_string s n :
  String.length (repeat_string s n) = (n * String.length s)%nat.
Proof.
  induction n as [|n IH]; [reflexivity|]. cbn [repeat_string].
  rewrite length_append, IH. lia.
Qed.

Lemma pretty_length_le z n :
  0 <= z < 10 ^ n -> 1 <= n -> Z.of_nat (String.length (pretty z)) <= n.
Proof.
  intros Hz Hn. destruct (Z.eq_dec z 0) as [->|Hne]; [cbn; lia|].
  destruct (pretty_length z ltac:(lia)) as [H1 _].
  set (k := Z.of_nat (String.length (pretty z))) in *.
  destruct (Z_lt_le_dec k 1) as [|Hk]; [lia|].
  assert (H : k - 1 < n); [|lia].
  apply (Z.pow_lt_mono_r_iff 10); lia.
Qed.

Lemma dsub_Z a b :
  0 <= b <= a -> a <= 2 ^ 53 ->
  dsub (Num (inject_Z a)) (Num (inject_Z b)) = Num (inject_Z (a - b)).
Proof.
  intros Hb Ha. unfold dsub. apply to_double_Z; [lia|].
  rewrite (fl53_compat _ (inject_Z (a - b))).
  - apply fl53_Z. lia.
  - unfold Zminus. rewrite inject_Z_plus, inject_Z_opp. reflexivity.
Qed.

Lemma js_repeat_Z limit s k :
  0 <= k -> k * Z.of_nat (String.length s) <= limit ->
  js_repeat limit s (Num (inject_Z k)) = Normal (repeat_string s (Z.to_nat k)).
Proof.
  intros Hk Hl. unfold js_repeat, Qtrunc.
  rewrite Qltb_false by (apply inject_Z_nonneg; exact Hk).
  rewrite Qfloor_Z.
  replace (k <? 0) with false by (symmetry; apply Z.ltb_ge; lia).
  replace (limit <? k * Z.of_nat (String.length s)) with false
    by (symmetry; apply Z.ltb_ge; lia).
  reflexivity.
Qed.

(** X8. In double precision, for integers below 2^53: for a count between
    zero and the total, a positive total, a width that is not negative and
    an engine whose strings can be 44 characters longer than the width,
    [progressBar] returns the bar: [k] equals signs, the arrow head and
    [width - k] spaces between the brackets, which is [width + 1] characters
    whatever the count, then the percentage [p] and the two counts. [k] lies
    between 0 and the width and [p] between 0 and 100; [k] is within one
    half of the exact share of the width, up to [2^-51] of that share; no
    progress gives [k = 0] and 0 percent, the full count gives the full
    width and 100 percent. *)
Theorem progressBar_shape limit current total width :
  0 <= current <= total -> 0 < total < 2 ^ 53 -> 0 <= width < 2 ^ 53 ->
  width + 44 <= limit ->
  exists k p,
    0 <= k <= width /\ 0 <= p <= 100 /\
    2 ^ 51 * (2 * k * total - total) <= (2 ^ 51 + 1) * (2 * (current * width)) /\
    (2 ^ 51 - 1) * (2 * (current * width)) < 2 ^ 51 * (2 * k * total + total) /\
    (current = 0 -> k = 0 /\ p = 0) /\
    (current = total -> k = width /\ p = 100) /\
    Float64.progressBar limit current total (Some width)
    = Normal ("[" +:+ repeat_string "=" (Z.to_nat k) +:+ ">"
              +:+ repeat_string " " (Z.to_nat (width - k)) +:+ "] " +:+ pretty p
              +:+ "% (" +:+ pretty current +:+ "/" +:+ pretty total +:+ ")") /\
    String.length (repeat_string "=" (Z.to_nat k) +:+ ">"
                   +:+ repeat_string " " (Z.to_nat (width - k)))
    = S (Z.to_nat width).
Proof.
  intros Hc Ht Hw Hl.
  destruct (share_round current total width Hc ltac:(lia) ltac:(lia))
    as (k & Ek & Hk & Hk0 & Hk1 & Hnear).
  destruct (share_round current total 100 Hc ltac:(lia) ltac:(lia))
    as (p & Ep & Hp & Hp0 & Hp1 & _).
  exists k, p. split; [exact Hk|]. split; [exact Hp|].
  split; [exact (proj1 Hnear)|]. split; [exact (proj2 Hnear)|].
  split; [intros E; split; auto|]. split; [intros E; split; auto|].
  assert (Hbar : String.length (repeat_string "=" (Z.to_nat k) +:+ ">"
                   +:+ repeat_string " " (Z.to_nat (width - k))) = S (Z.to_nat width)).
  { rewrite !length_append, !length_repeat_string. cbn [String.length]. lia. }
  split; [|exact Hbar].
  unfold progressBar. change (default 30 (Some width)) with width. cbv zeta.
  rewrite (of_Z_safe width), (of_Z_safe current), (of_Z_safe total), (of_Z_safe 100) by lia.
  rewrite Ek, Ep. rewrite dsub_Z by lia.
  rewrite js_repeat_Z by (cbn [String.length]; lia).
  rewrite js_repeat_Z by (cbn [String.length]; lia).
  rewrite !Number_toString_Z by lia.
  unfold template.
  match goal with |- (if ?b then _ else _) = _ => replace b with false; [reflexivity|] end.
  symmetry. apply Z.ltb_ge.
  pose proof (pretty_length_le p 3 ltac:(lia) ltac:(lia)) as Lp.
  pose proof (pretty_length_le current 16 ltac:(lia) ltac:(lia)) as Lc.
  pose proof (pretty_length_le total 16 ltac:(lia) ltac:(lia)) as Lt.
  rewrite !length_append, !length_repeat_string. cbn [String.length]. lia.
Qed.

Lemma progressBar_shape_witness :
  exists k p,
    0 <= k <= 30 /\ 0 <= p <= 100 /\
    2 ^ 51 * (2 * k * 200 - 200) <= (2 ^ 51 + 1) * (2 * (29 * 30)) /\
    (2 ^ 51 - 1) * (2 * (29 * 30)) < 2 ^ 51 * (2 * k * 200 + 200) /\
    (29 = 0 -> k = 0 /\ p = 0) /\
    (29 = 200 -> k = 30 /\ p = 100) /\
    Float64.progressBar (2 ^ 29) 29 200 (Some 30)
    = Normal ("[" +:+ repeat_string "=" (Z.to_nat k) +:+ ">"
              +:+ repeat_string " " (Z.to_nat (30 - k)) +:+ "] " +:+ pretty p
              +:+ "% (" +:+ pretty 29 +:+ "/" +:+ pretty 200 +:+ ")") /\
    String.length (repeat_string "=" (Z.to_nat k) +:+ ">"
                   +:+ repeat_string " " (Z.to_nat (30 - k)))
    = S (Z.to_nat 30).
Proof.
  apply (progressBar_shape (2 ^ 29) 29 200 30).
  - lia.
  - split; [lia | reflexivity].
  - split; [lia | reflexivity].
  - vm_compute. intros H. discriminate H.
Defined.

(** The quotient 29/200 times 100 is a double just below 14.5: the bar shows
    14 percent where the exact rounding gives 15. *)
Example progressBar_sample :
  Float64.progressBar (2 ^ 29) 29 200 None
  = Normal "[====>                          ] 14% (29/200)".
Proof. vm_compute. reflexivity. Qed.

(** X29. With a total of zero the quotient is not a number or infinite.
    No progress of none: both repeat counts are not a number and repeat
    nothing, and the text holds the arrow head alone and NaN for the
    percentage. Some progress of none, with a positive width: the completed
    width is infinite, and [repeat] raises a [RangeError]. *)
Theorem progressBar_zero_total limit current width :
  0 <= current < 2 ^ 53 -> 0 <= width < 2 ^ 53 ->
  (current = 0 -> 15 <= limit ->
   Float64.progressBar limit current 0 (Some width) = Normal "[>] NaN% (0/0)") /\
  (0 < current -> 0 < width ->
   Float64.progressBar limit current 0 (Some width)
   = Throw (RangeError "Invalid count value: Infinity")).
Proof.
  intros Hc Hw. unfold progressBar. change (default 30 (Some width)) with width. cbv zeta.
  rewrite (of_Z_safe width), (of_Z_safe current), (of_Z_safe 0), (of_Z_safe 100) by lia.
  split.
  - intros -> Hl. cbn [ddiv]. change (Qeq_bool (inject_Z 0) 0) with true. cbv iota.
    cbn [dmul Math_round dsub js_repeat]. unfold template.
    replace (limit <? _) with false; [reflexivity|].
    symmetry. apply Z.ltb_ge. change (14 <= limit). lia.
  - intros Hc0 Hw0. cbn [ddiv]. change (Qeq_bool (inject_Z 0) 0) with true. cbv iota.
    assert (Hcq : (0 < inject_Z current)%Q) by (apply inject_Z_pos; exact Hc0).
    assert (Hwq : (0 < inject_Z width)%Q) by (apply inject_Z_pos; exact Hw0).
    rewrite Qeq_bool_false by (intros E; rewrite E in Hcq; discriminate Hcq).
    rewrite Qltb_false by (apply Qlt_le_weak; exact Hcq).
    cbn [dmul]. rewrite Qeq_bool_false by (intros E; rewrite E in Hwq; discriminate Hwq).
    rewrite Qltb_false by (apply Qlt_le_weak; exact Hwq).
    reflexivity.
Qed.

Lemma progressBar_zero_total_witness :
  Float64.progressBar (2 ^ 29) 0 0 (Some 30) = Normal "[>] NaN% (0/0)" /\
  Float64.progressBar (2 ^ 29) 5 0 (Some 30)
  = Throw (RangeError "Invalid count value: Infinity").
Proof.
  split.
  - apply (proj1 (progressBar_zero_total (2 ^ 29) 0 30 ltac:(lia) ltac:(lia)));
      [reflexivity | vm_compute; intros H; discriminate H].
  - apply (proj2 (progressBar_zero_total (2 ^ 29) 5 30 ltac:(lia) ltac:(lia))); lia.
Defined.

End ProgressBar.

(* ===================================================================== *)
(** * Byte counts in double precision *)
(* ===================================================================== *)

Section Decimals.
Import Float64.
Local Open Scope Q_scope.

Lemma pow10_lt a b : (a < b)%Z -> pow10 a < pow10 b.
Proof. intros H. apply Qpower_lt_compat_l; [exact H | reflexivity]. Qed.







End Decimals.

Section ReadingBack.
Import Float64.





End ReadingBack.

Section FormatBytesSteps.
Import Float64.
Local Open Scope Q_scope.











End FormatBytesSteps.

Section FormatBytesUnits.
Import Float64.






(** With the sample engine: one byte short of 1024^5 the quotient of
    logarithms rounds to 5, and the count prints in the unit above its own;
    the quotient by the power of 1024 is rounded to two decimals. *)
Example formatBytes_sample :
  Float64.formatBytes ln_series (2 ^ 50 - 1) None = Normal "1 PB" /\
  Float64.formatBytes ln_series (2 ^ 50) None = Normal "1 PB" /\
  Float64.formatBytes ln_series 1023 None = Normal "1023 Bytes" /\
  Float64.formatBytes ln_series 1000000 None = Normal "976.56 KB" /\
  Float64.formatBytes ln_series 1234567890 (Some 3) = Normal "1.15 GB".
Proof.
  split; [vm_compute; reflexivity|]. split; [vm_compute; reflexivity|].
  split; [vm_compute; reflexivity|]. split; vm_compute; reflexivity.
Qed.


(** X27. The number of decimals goes to [toFixed] unchecked from above and
    clamped from below: for a byte count other than zero, more than 100
    decimals raise the [RangeError] of [toFixed], whatever the engine takes
    for the logarithm, and a negative number of decimals counts as none. *)
Theorem formatBytes_decimals_range (ln : Z -> Q) bytes decimals :
  (bytes <> 0 -> 100 < decimals ->
   Float64.formatBytes ln bytes (Some decimals)
   = Throw (RangeError "toFixed() digits argument must be between 0 and 100")) /\
  (decimals < 0 ->
   Float64.formatBytes ln bytes (Some decimals) = Float64.formatBytes ln bytes (Some 0)).
Proof.
  split.
  - intros Hb Hd. unfold formatBytes. cbv zeta. change (default 2 (Some decimals)) with decimals.
    replace (bytes =? 0) with false by (symmetry; apply Z.eqb_neq; exact Hb).
    replace (decimals <? 0) with false by (symmetry; apply Z.ltb_ge; lia).
    unfold toFixed.
    replace (100 <? decimals) with true by (symmetry; apply Z.ltb_lt; exact Hd).
    rewrite orb_true_r. reflexivity.
  - intros Hd. unfold formatBytes. cbv zeta.
    change (default 2 (Some decimals)) with decimals. change (default 2 (Some 0)) with 0.
    replace (decimals <? 0) with true by (symmetry; apply Z.ltb_lt; exact Hd).
    reflexivity.
Qed.

Lemma formatBytes_decimals_range_witness :
  Float64.formatBytes ln_series 2048 (Some 101)
  = Throw (RangeError "toFixed() digits argument must be between 0 and 100") /\
  Float64.formatBytes ln_series 1536 (Some (-1)) = Float64.formatBytes ln_series 1536 (Some 0).
Proof.
  split.
  - apply (proj1 (formatBytes_decimals_range ln_series 2048 101)); lia.
  - apply (proj2 (formatBytes_decimals_range ln_series 1536 (-1))). lia.
Defined.

(** X28. A negative byte count prints as not a number, with no unit: the
    logarithm of a negative number is not a number, and so are the index,
    the power, the quotient and what [parseFloat] reads; the element of the
    table at such an index is undefined. *)
Theorem formatBytes_negative (ln : Z -> Q) bytes decimals :
  bytes < 0 -> decimals <= 100 ->
  Float64.formatBytes ln bytes (Some decimals) = Normal "NaN undefined".
Proof.
  intros Hb Hd. unfold formatBytes. cbv zeta. change (default 2 (Some decimals)) with decimals.
  replace (bytes =? 0) with false by (symmetry; apply Z.eqb_neq; lia).
  assert (Hlog : Math_log ln bytes = NaN).
  { unfold Math_log. replace (bytes <? 0) with true by (symmetry; apply Z.ltb_lt; exact Hb).
    reflexivity. }
  rewrite Hlog. cbn [ddiv Math_floor Math_pow].
  assert (Hq : ddiv (of_Z bytes) NaN = NaN) by (destruct (of_Z bytes); reflexivity).
  rewrite Hq. unfold toFixed.
  assert (Hr : ((if decimals <? 0 then 0 else decimals) <? 0)
               || (100 <? (if decimals <? 0 then 0 else decimals)) = false).
  { destruct (Z.ltb_spec decimals 0); apply orb_false_iff; split;
      apply Z.ltb_ge; lia. }
  rewrite Hr. reflexivity.
Qed.

Lemma formatBytes_negative_witness :
  Float64.formatBytes ln_series (-5) (Some 2) = Normal "NaN undefined".
Proof. apply (formatBytes_negative ln_series (-5) 2); lia. Defined.

End FormatBytesUnits.

